(** * jiten-parser-py: a shallow embedding of the analysis pipeline

    The development follows the Python sources module by module:
    - [PyStr]: Python [str] values as lists of Unicode code points, with the
      string methods the sources call ([endswith], [startswith], [in],
      [replace], [find], slicing);
    - [Deconj]: [deconjugator.py], [deconjugation_form.py],
      [deconjugation_rule.py], [deconjugation_virtual_rule.py];
    - [Score]: [jmdict/jmdict_word.py];
    - [Morph]: [word_info.py], [morphological_analyser.py];
    - [Resolver]: the resolved-word cache of [parser.py]. *)

From Stdlib Require Import NArith ZArith String Ascii List Lia.
From stdpp Require Import base decidable option list gmap strings relations.

Local Open Scope N_scope.

(** ** Python strings *)

Module PyStr.

(** A Python [str] is a sequence of code points; [len] is [length]. *)
Abbreviation str := (list N).

Definition byte_list (s : string) : list N :=
  map (fun a : ascii => N_of_ascii a) (list_ascii_of_string s).

(** Literals are written in the source file's UTF-8 and decoded here. *)
Fixpoint utf8_decode (bs : list N) : str :=
  match bs with
  | [] => []
  | b0 :: r0 =>
    if b0 <? 128 then b0 :: utf8_decode r0
    else if b0 <? 224 then
      match r0 with
      | b1 :: r1 => ((b0 - 192) * 64 + (b1 - 128)) :: utf8_decode r1
      | _ => []
      end
    else if b0 <? 240 then
      match r0 with
      | b1 :: b2 :: r2 =>
        ((b0 - 224) * 4096 + (b1 - 128) * 64 + (b2 - 128)) :: utf8_decode r2
      | _ => []
      end
    else
      match r0 with
      | b1 :: b2 :: b3 :: r3 =>
        ((b0 - 240) * 262144 + (b1 - 128) * 4096 + (b2 - 128) * 64 + (b3 - 128))
          :: utf8_decode r3
      | _ => []
      end
  end.

Definition u (s : string) : str := utf8_decode (byte_list s).

(** [s.startswith(p)] *)
Fixpoint startswith (s p : str) : bool :=
  match p with
  | [] => true
  | c :: p' =>
    match s with
    | [] => false
    | d :: s' => if decide (c = d) then startswith s' p' else false
    end
  end.

(** [s.endswith(p)] *)
Definition endswith (s p : str) : bool := startswith (rev s) (rev p).

(** [s[:n]] and [s[n:]] for [0 <= n] *)
Definition slice_to (n : nat) (s : str) : str := take n s.
Definition slice_from (n : nat) (s : str) : str := drop n s.

(** [s[:-n]] for [0 < n] *)
Definition slice_to_neg (n : nat) (s : str) : str := take (length s - n) s.

(** [s.find(p, start)]: lowest index [>= start] at which [p] occurs, [None]
    for Python's [-1]. *)
Fixpoint find_from (s p : str) (pos : nat) : option nat :=
  if startswith s p then Some pos
  else match s with
       | [] => None
       | _ :: s' => find_from s' p (S pos)
       end.

Definition find (s p : str) (start : nat) : option nat :=
  if decide (start <= length s)%nat then find_from (drop start s) p start
  else None.

(** [p in s] *)
Definition contains (s p : str) : bool :=
  match find_from s p 0 with Some _ => true | None => false end.

(** [s.replace(old, new)] for a non-empty [old]: leftmost non-overlapping
    occurrences. The [fuel] is the number of characters still to scan. *)
Fixpoint replace_ne (fuel : nat) (s old new : str) : str :=
  match fuel with
  | O => s
  | S fuel' =>
    match s with
    | [] => []
    | c :: s' =>
      if startswith s old then new ++ replace_ne fuel' (drop (length old) s) old new
      else c :: replace_ne fuel' s' old new
    end
  end.

(** [s.replace(old, new)] for the empty [old] puts [new] before every
    character and at the end. *)
Fixpoint replace_empty (s new : str) : str :=
  match s with
  | [] => new
  | c :: s' => new ++ c :: replace_empty s' new
  end.

Definition replace (s old new : str) : str :=
  match old with
  | [] => replace_empty s new
  | _ :: _ => replace_ne (length s) s old new
  end.

(** [not s], [not l]: emptiness of a string or list *)
Definition is_empty {A} (l : list A) : bool :=
  match l with [] => true | _ => false end.

End PyStr.

Import PyStr.

(** ** Exceptions

    A Python call either returns or raises; [Raise] records the exception
    class. *)

Inductive exn := IndexError | ValueError | OverflowError.

Inductive result (A : Type) :=
| Ok (a : A)
| Raise (e : exn).
Arguments Ok {A} a.
Arguments Raise {A} e.

#[global] Instance exn_eq_dec : EqDecision exn.
Proof. solve_decision. Defined.

#[global] Instance result_eq_dec {A} `{EqDecision A} : EqDecision (result A).
Proof. solve_decision. Defined.

#[global] Instance result_bind : MBind result := fun A B k m =>
  match m with
  | Ok a => k a
  | Raise e => Raise e
  end.

(** [l[i]] on a Python list *)
Definition index {A} (l : list A) (i : nat) : result A :=
  match l !! i with
  | Some a => Ok a
  | None => Raise IndexError
  end.

(** ** The deconjugation engine ([deconjugator.py]) *)

Module Deconj.

Record DeconjugationForm := {
  text : str;
  original_text : str;
  tags : list str;
  seen_text : gset str;
  process : list str
}.

#[global] Instance DeconjugationForm_eq_dec : EqDecision DeconjugationForm.
Proof. solve_decision. Defined.

#[global] Instance DeconjugationForm_countable : Countable DeconjugationForm.
Proof.
  refine (inj_countable'
    (fun f => (text f, original_text f, tags f, seen_text f, process f))
    (fun '(a, b, c, d, e) =>
       {| text := a; original_text := b; tags := c; seen_text := d; process := e |})
    _).
  by intros [].
Defined.

Record DeconjugationRule := {
  type : str;
  detail : str;
  dec_end : list str;
  con_end : list str;
  context_rule : option str;
  dec_tag : option (list str);
  con_tag : option (list str)
}.

Record DeconjugationVirtualRule := {
  v_dec_end : str;
  v_con_end : str;
  v_dec_tag : option str;
  v_con_tag : option str;
  v_detail : str
}.

(** The instance state built by [__init__]. *)
Record Deconjugator := {
  rules : list DeconjugationRule;
  _virtual_rules_cache : gmap nat (list DeconjugationVirtualRule)
}.

(** [x[i] if i < len(x) else x[0]] *)
Definition index_or_first {A} (l : list A) (i : nat) : result A :=
  if decide (i < length l)%nat then index l i else index l 0.

(** [x[i] if i < len(x) else x[0]], guarded by [if x:] on an optional list *)
Definition opt_tag_at (t : option (list str)) (i : nat) : result (option str) :=
  match t with
  | None | Some [] => Ok None
  | Some l => v ← index_or_first l i; Ok (Some v)
  end.

Definition virtual_rule_at (rule : DeconjugationRule) (i : nat)
  : result DeconjugationVirtualRule :=
  de ← index_or_first (dec_end rule) i;
  ce ← index_or_first (con_end rule) i;
  dt ← opt_tag_at (dec_tag rule) i;
  ct ← opt_tag_at (con_tag rule) i;
  Ok {| v_dec_end := de; v_con_end := ce; v_dec_tag := dt; v_con_tag := ct;
        v_detail := detail rule |}.

Fixpoint mapM {A B} (f : A -> result B) (l : list A) : result (list B) :=
  match l with
  | [] => Ok []
  | a :: l' => b ← f a; bs ← mapM f l'; Ok (b :: bs)
  end.

Definition _cache_virtual_rules (cache : gmap nat (list DeconjugationVirtualRule))
    (rule : DeconjugationRule) (rule_index : nat)
  : result (gmap nat (list DeconjugationVirtualRule)) :=
  if decide (length (dec_end rule) <= 1)%nat then Ok cache
  else
    virtual_rules ← mapM (virtual_rule_at rule) (seq 0 (length (dec_end rule)));
    Ok (<[rule_index := virtual_rules]> cache).

(** The loop of [__init__] over the rule table, from rule index [i] on. *)
Fixpoint init_loop (rules_data : list DeconjugationRule) (i : nat)
    (self : Deconjugator) : result Deconjugator :=
  match rules_data with
  | [] => Ok self
  | rule :: rest =>
    cache ← _cache_virtual_rules (_virtual_rules_cache self) rule i;
    init_loop rest (S i)
      {| rules := rules self ++ [rule]; _virtual_rules_cache := cache |}
  end.

Definition __init__ (rules_data : list DeconjugationRule) : result Deconjugator :=
  init_loop rules_data 0 {| rules := []; _virtual_rules_cache := ∅ |}.

Definition _create_initial_form (t : str) : DeconjugationForm :=
  {| text := t; original_text := t; tags := []; seen_text := ∅; process := [] |}.

Definition _should_skip_form (form : DeconjugationForm) : bool :=
  is_empty (text form)
  || bool_decide (length (original_text form) + 10 < length (text form))%nat
  || bool_decide (length (original_text form) + 6 < length (tags form))%nat.

Definition _create_new_form (form : DeconjugationForm) (new_text : str)
    (con_tag dec_tag : option str) (detail : str) : DeconjugationForm :=
  let new_tags := tags form in
  let new_seen_text := seen_text form in
  let new_process := process form ++ [detail] in
  let new_tags :=
    match con_tag with
    | Some ct => if is_empty new_tags then new_tags ++ [ct] else new_tags
    | None => new_tags
    end in
  let new_tags :=
    match dec_tag with
    | Some dt => new_tags ++ [dt]
    | None => new_tags
    end in
  let new_seen_text :=
    if decide (new_seen_text = ∅) then {[text form]} ∪ new_seen_text
    else new_seen_text in
  let new_seen_text := {[new_text]} ∪ new_seen_text in
  {| text := new_text; original_text := original_text form; tags := new_tags;
     seen_text := new_seen_text; process := new_process |}.

Definition _std_rule_deconjugate_inner (form : DeconjugationForm)
    (rule : DeconjugationVirtualRule) : option DeconjugationForm :=
  if negb (endswith (text form) (v_con_end rule)) then None
  else if negb (is_empty (tags form))
          && negb (bool_decide (last (tags form) = v_con_tag rule)) then None
  else
    let prefix_len := (length (text form) - length (v_con_end rule))%nat in
    let new_text := slice_to prefix_len (text form) ++ v_dec_end rule in
    if decide (new_text = original_text form) then None
    else Some (_create_new_form form new_text (v_con_tag rule) (v_dec_tag rule)
                 (v_detail rule)).

(** [rule.dec_tag[0] if rule.dec_tag else None] *)
Definition first_tag (t : option (list str)) : option str :=
  match t with
  | Some (x :: _) => Some x
  | _ => None
  end.

(** Adds to [collection] every hit of the virtual rules. *)
Definition collect_hits (form : DeconjugationForm)
    (vrs : list DeconjugationVirtualRule) : gset DeconjugationForm :=
  foldl (fun collection virtual_rule =>
           match _std_rule_deconjugate_inner form virtual_rule with
           | Some hit => {[hit]} ∪ collection
           | None => collection
           end) ∅ vrs.

(** [collection if collection else None] *)
Definition nonempty_or_none (s : gset DeconjugationForm)
  : option (gset DeconjugationForm) :=
  if decide (s = ∅) then None else Some s.

Definition _std_rule_deconjugate (self : Deconjugator) (form : DeconjugationForm)
    (rule : DeconjugationRule) (rule_index : nat)
  : result (option (gset DeconjugationForm)) :=
  if is_empty (detail rule) && is_empty (tags form) then Ok None
  else if decide (length (dec_end rule) = 1)%nat then
    de ← index (dec_end rule) 0;
    ce ← index (con_end rule) 0;
    let virtual_rule :=
      {| v_dec_end := de; v_con_end := ce;
         v_dec_tag := first_tag (dec_tag rule);
         v_con_tag := first_tag (con_tag rule);
         v_detail := detail rule |} in
    Ok (match _std_rule_deconjugate_inner form virtual_rule with
        | Some hit => Some {[hit]}
        | None => None
        end)
  else
    match _virtual_rules_cache self !! rule_index with
    | None | Some [] => Ok None
    | Some cached_virtual_rules =>
      Ok (nonempty_or_none (collect_hits form cached_virtual_rules))
    end.

Definition _create_substitution_form (form : DeconjugationForm) (new_text : str)
    (detail : str) : DeconjugationForm :=
  let new_seen_text := seen_text form in
  let new_process := process form ++ [detail] in
  let new_tags := tags form in
  let new_seen_text :=
    if decide (new_seen_text = ∅) then {[text form]} ∪ new_seen_text
    else new_seen_text in
  let new_seen_text := {[new_text]} ∪ new_seen_text in
  {| text := new_text; original_text := original_text form; tags := new_tags;
     seen_text := new_seen_text; process := new_process |}.

Definition _substitution_inner (form : DeconjugationForm) (con_end dec_end : str)
    (detail : str) : option DeconjugationForm :=
  if negb (contains (text form) con_end) then None
  else
    let new_text := replace (text form) con_end dec_end in
    Some (_create_substitution_form form new_text detail).

(** The loop of [_substitution_deconjugate] over [range(len(rule.dec_end))]. *)
Fixpoint substitution_loop (form : DeconjugationForm) (rule : DeconjugationRule)
    (idx : list nat) (collection : gset DeconjugationForm)
  : result (gset DeconjugationForm) :=
  match idx with
  | [] => Ok collection
  | i :: rest =>
    de ← index_or_first (dec_end rule) i;
    ce ← index_or_first (con_end rule) i;
    substitution_loop form rule rest
      (match _substitution_inner form ce de (detail rule) with
       | Some ret => {[ret]} ∪ collection
       | None => collection
       end)
  end.

Definition _substitution_deconjugate (form : DeconjugationForm)
    (rule : DeconjugationRule) : result (option (gset DeconjugationForm)) :=
  if negb (is_empty (process form)) || is_empty (text form) then Ok None
  else if decide (length (dec_end rule) = 1)%nat then
    ce ← index (con_end rule) 0;
    de ← index (dec_end rule) 0;
    Ok (match _substitution_inner form ce de (detail rule) with
        | Some hit => Some {[hit]}
        | None => None
        end)
  else
    collection ← substitution_loop form rule (seq 0 (length (dec_end rule))) ∅;
    Ok (nonempty_or_none collection).

Definition _rewrite_rule_deconjugate (self : Deconjugator) (form : DeconjugationForm)
    (rule : DeconjugationRule) (rule_index : nat)
  : result (option (gset DeconjugationForm)) :=
  ce ← index (con_end rule) 0;
  if decide (text form = ce) then _std_rule_deconjugate self form rule rule_index
  else Ok None.

Definition _only_final_rule_deconjugate (self : Deconjugator)
    (form : DeconjugationForm) (rule : DeconjugationRule) (rule_index : nat)
  : result (option (gset DeconjugationForm)) :=
  if is_empty (tags form) then _std_rule_deconjugate self form rule rule_index
  else Ok None.

Definition _never_final_rule_deconjugate (self : Deconjugator)
    (form : DeconjugationForm) (rule : DeconjugationRule) (rule_index : nat)
  : result (option (gset DeconjugationForm)) :=
  if negb (is_empty (tags form)) then _std_rule_deconjugate self form rule rule_index
  else Ok None.

Definition s_stem_ren : str := Eval vm_compute in u "stem-ren".
Definition s_v1inftrap : str := Eval vm_compute in u "v1inftrap".
Definition s_saspecial : str := Eval vm_compute in u "saspecial".
(** The two-character literal of the last line of [_sa_special_check], as the
    source file spells it (U+00E3, U+2022). *)
Definition s_sa_literal : str := [227; 8226].

Definition _v1_inf_trap_check (form : DeconjugationForm) : bool :=
  negb (bool_decide (tags form = [s_stem_ren])).

Definition _sa_special_check (form : DeconjugationForm) (rule : DeconjugationRule)
  : result bool :=
  if is_empty (text form) then Ok false
  else
    con_end ← index (con_end rule) 0;
    if negb (endswith (text form) con_end) then Ok false
    else
      let prefix_len := (length (text form) - length con_end)%nat in
      match prefix_len with
      | O => Ok true
      | S p =>
        c ← index (text form) p;
        Ok (negb (bool_decide ([c] = s_sa_literal)))
      end.

Definition _context_rule_deconjugate (self : Deconjugator) (form : DeconjugationForm)
    (rule : DeconjugationRule) (rule_index : nat)
  : result (option (gset DeconjugationForm)) :=
  if bool_decide (context_rule rule = Some s_v1inftrap)
     && negb (_v1_inf_trap_check form) then Ok None
  else
    blocked ←
      (if bool_decide (context_rule rule = Some s_saspecial)
       then (ok ← _sa_special_check form rule; Ok (negb ok))
       else Ok false);
    if (blocked : bool) then Ok None
    else _std_rule_deconjugate self form rule rule_index.

Definition s_stdrule : str := Eval vm_compute in u "stdrule".
Definition s_rewriterule : str := Eval vm_compute in u "rewriterule".
Definition s_onlyfinalrule : str := Eval vm_compute in u "onlyfinalrule".
Definition s_neverfinalrule : str := Eval vm_compute in u "neverfinalrule".
Definition s_contextrule : str := Eval vm_compute in u "contextrule".
Definition s_substitution : str := Eval vm_compute in u "substitution".

Definition _apply_rule (self : Deconjugator) (form : DeconjugationForm)
    (rule : DeconjugationRule) (rule_index : nat)
  : result (option (gset DeconjugationForm)) :=
  let rule_type := type rule in
  if decide (rule_type = s_stdrule) then
    _std_rule_deconjugate self form rule rule_index
  else if decide (rule_type = s_rewriterule) then
    _rewrite_rule_deconjugate self form rule rule_index
  else if decide (rule_type = s_onlyfinalrule) then
    _only_final_rule_deconjugate self form rule rule_index
  else if decide (rule_type = s_neverfinalrule) then
    _never_final_rule_deconjugate self form rule rule_index
  else if decide (rule_type = s_contextrule) then
    _context_rule_deconjugate self form rule rule_index
  else if decide (rule_type = s_substitution) then
    _substitution_deconjugate form rule
  else Ok None.

(** The class attribute [_deconjugation_cache] as the class body sets it. *)
Definition empty_cache : gmap str (gset DeconjugationForm) := ∅.

(** [if f not in processed and f not in novel and f not in new_novel:
      new_novel.add(f)] *)
Definition add_if_new (processed novel new_novel : gset DeconjugationForm)
    (f : DeconjugationForm) : gset DeconjugationForm :=
  if bool_decide (f ∉ processed) && bool_decide (f ∉ novel)
     && bool_decide (f ∉ new_novel)
  then {[f]} ∪ new_novel else new_novel.

(** [for i, rule in enumerate(self.rules)], from rule index [i] on. *)
Fixpoint rules_loop (self : Deconjugator) (processed novel : gset DeconjugationForm)
    (form : DeconjugationForm) (rs : list DeconjugationRule) (i : nat)
    (new_novel : gset DeconjugationForm) : result (gset DeconjugationForm) :=
  match rs with
  | [] => Ok new_novel
  | rule :: rest =>
    new_forms ← _apply_rule self form rule i;
    rules_loop self processed novel form rest (S i)
      (match new_forms with
       | None => new_novel
       | Some fs => foldl (add_if_new processed novel) new_novel (elements fs)
       end)
  end.

(** [for form in novel]; a Python set is visited in an unspecified order, here
    the order of [elements]. *)
Fixpoint forms_loop (self : Deconjugator) (processed novel : gset DeconjugationForm)
    (fs : list DeconjugationForm) (new_novel : gset DeconjugationForm)
  : result (gset DeconjugationForm) :=
  match fs with
  | [] => Ok new_novel
  | form :: rest =>
    if _should_skip_form form then forms_loop self processed novel rest new_novel
    else
      nn ← rules_loop self processed novel form (rules self) 0 new_novel;
      forms_loop self processed novel rest nn
  end.

(** [while novel:]; [None] when [fuel] rounds do not empty the frontier. *)
Fixpoint while_novel (fuel : nat) (self : Deconjugator)
    (processed novel : gset DeconjugationForm)
  : option (result (gset DeconjugationForm)) :=
  if decide (novel = ∅) then Some (Ok processed)
  else
    match fuel with
    | O => None
    | S fuel' =>
      match forms_loop self processed novel (elements novel) ∅ with
      | Raise e => Some (Raise e)
      | Ok new_novel => while_novel fuel' self (processed ∪ novel) new_novel
      end
    end.

(** [deconjugate]; the class attributes [USE_CACHE] and
    [_deconjugation_cache] are passed in, and the cache is returned. *)
Definition deconjugate (fuel : nat) (USE_CACHE : bool) (self : Deconjugator)
    (cache : gmap str (gset DeconjugationForm)) (t : str)
  : option (result (gset DeconjugationForm * gmap str (gset DeconjugationForm))) :=
  match (if USE_CACHE then cache !! t else None) with
  | Some cached => Some (Ok (cached, cache))
  | None =>
    if is_empty t then Some (Ok (∅, cache))
    else
      match while_novel fuel self ∅ {[_create_initial_form t]} with
      | None => None
      | Some (Raise e) => Some (Raise e)
      | Some (Ok processed) =>
        Some (Ok (processed,
                  if USE_CACHE && bool_decide (length t <= 20)%nat
                     && bool_decide (size processed < 55)%nat
                     && bool_decide (N.of_nat (size cache) < 250000)%N
                  then <[t := processed]> cache else cache))
      end
  end.

End Deconj.

(** ** Priority scores ([jmdict/jmdict_word.py]) *)

Module Score.

Local Open Scope Z_scope.

(** The fields of [JmDictWord] that [get_priority_score] reads, with the
    entry id and the readings. [priorities] is [Optional]. *)
Record JmDictWord := {
  word_id : Z;
  readings : list str;
  parts_of_speech : list str;
  priorities : option (list str)
}.

Definition s_jiten : str := Eval vm_compute in u "jiten".
Definition s_ichi1 : str := Eval vm_compute in u "ichi1".
Definition s_ichi2 : str := Eval vm_compute in u "ichi2".
Definition s_news1 : str := Eval vm_compute in u "news1".
Definition s_news2 : str := Eval vm_compute in u "news2".
Definition s_gai1 : str := Eval vm_compute in u "gai1".
Definition s_gai2 : str := Eval vm_compute in u "gai2".
Definition s_nf : str := Eval vm_compute in u "nf".
Definition s_spec1 : str := Eval vm_compute in u "spec1".
Definition s_spec2 : str := Eval vm_compute in u "spec2".
Definition s_uk : str := Eval vm_compute in u "uk".

(** [x in l] on a list of strings *)
Definition mem (x : str) (l : list str) : bool := bool_decide (x ∈ l).

(** [next((p for p in l if p.startswith("nf")), None)] *)
Fixpoint first_nf (l : list str) : option str :=
  match l with
  | [] => None
  | p :: l' => if startswith p s_nf then Some p else first_nf l'
  end.

Section get_priority_score.

(** Python's built-ins, taken as given: [py_int s] is [int(s)] and
    [py_round_div10 n] is [int(round(n / 10.0))]; either may raise. *)
Variable py_int : str -> result Z.
Variable py_round_div10 : Z -> result Z.

Definition get_priority_score (self : JmDictWord) (is_kana : bool) : result Z :=
  match priorities self with
  | None | Some [] => Ok 0
  | Some ps =>
    let score := 0 in
    let score := if mem s_jiten ps then score + 100 else score in
    let score := if mem s_ichi1 ps then score + 20 else score in
    let score := if mem s_ichi2 ps then score + 10 else score in
    let score := if mem s_news1 ps then score + 15 else score in
    let score := if mem s_news2 ps then score + 10 else score in
    let score := if mem s_gai1 ps || mem s_gai2 ps then score + 5 else score in
    score ← match first_nf ps with
            | Some nf =>
              nf_rank ← py_int (slice_from 2 nf);
              r ← py_round_div10 nf_rank;
              Ok (score + Z.max 0 (5 - r))
            | None => Ok score
            end;
    let score :=
      if score =? 0 then
        let score := if mem s_spec1 ps then score + 15 else score in
        let score := if mem s_spec2 ps then score + 5 else score in
        score
      else score in
    let score :=
      if mem s_uk (parts_of_speech self) then
        if is_kana then score + 10 else score - 10
      else score in
    Ok score
  end.

End get_priority_score.

(** Instances of the two built-ins for evaluating examples: [int] on a
    string of ASCII digits, and division by ten rounded half to even (what
    [round] does on the exactly representable quotients of small ranks). *)
Fixpoint digits_value (acc : Z) (s : str) : result Z :=
  match s with
  | [] => Ok acc
  | c :: s' =>
    if (48 <=? c)%N && (c <=? 57)%N
    then digits_value (10 * acc + Z.of_N (c - 48)) s'
    else Raise ValueError
  end.

Definition int_of_digits (s : str) : result Z :=
  match s with
  | [] => Raise ValueError
  | _ => digits_value 0 s
  end.

Definition round_half_even_div10 (n : Z) : result Z :=
  let q := n / 10 in
  let r := n mod 10 in
  Ok (if r <? 5 then q
      else if 5 <? r then q + 1
      else if Z.even q then q else q + 1).

End Score.

(** ** Parts of speech ([part_of_speech.py]) *)

Module PartOfSpeech.

Inductive t :=
  | UNKNOWN | NOUN | VERB | I_ADJECTIVE | ADVERB | PARTICLE | CONJUNCTION
  | AUXILIARY | ADNOMINAL | INTERJECTION | SYMBOL | PREFIX | FILLER | NAME
  | PRONOUN | NA_ADJECTIVE | SUFFIX | COMMON_NOUN | SUPPLEMENTARY_SYMBOL
  | BLANK_SPACE | EXPRESSION | NOMINAL_ADJECTIVE | NUMERAL
  | PRENOUN_ADJECTIVAL | COUNTER | ADVERB_TO | NOUN_SUFFIX.

(** The [IntEnum] value. *)
Definition value (x : t) : N :=
  match x with
    | UNKNOWN => 0
    | NOUN => 1
    | VERB => 2
    | I_ADJECTIVE => 3
    | ADVERB => 4
    | PARTICLE => 5
    | CONJUNCTION => 6
    | AUXILIARY => 7
    | ADNOMINAL => 8
    | INTERJECTION => 9
    | SYMBOL => 10
    | PREFIX => 11
    | FILLER => 12
    | NAME => 13
    | PRONOUN => 14
    | NA_ADJECTIVE => 15
    | SUFFIX => 16
    | COMMON_NOUN => 17
    | SUPPLEMENTARY_SYMBOL => 18
    | BLANK_SPACE => 19
    | EXPRESSION => 20
    | NOMINAL_ADJECTIVE => 21
    | NUMERAL => 22
    | PRENOUN_ADJECTIVAL => 23
    | COUNTER => 24
    | ADVERB_TO => 25
    | NOUN_SUFFIX => 26
  end.

#[global] Instance eq_dec : EqDecision t.
Proof. solve_decision. Defined.

End PartOfSpeech.

Module PartOfSpeechSection.

Inductive t :=
  | NONE | AMOUNT | ALPHABET | FULL_STOP | BLANK_SPACE | SUFFIX | PRONOUN
  | INDEPENDANT | DEPENDANT | FILLER | COMMON | SENTENCE_ENDING_PARTICLE
  | COUNTER | PARALLEL_MARKER | BINDING_PARTICLE | POTENTIAL_ADVERB
  | CASE_MARKING_PARTICLE | IRREGULAR_CONJUNCTION | CONJUNCTION_PARTICLE
  | AUXILIARY_VERB_STEM | ADJECTIVAL_STEM | COMPOUND_WORD | QUOTATION
  | NOUN_CONJUNCTION | ADVERBIAL_PARTICLE | CONJUNCTIVE_PARTICLE_CLASS
  | ADVERBIALIZATION
  | ADVERBIAL_PARTICLE_OR_PARALLEL_MARKER_OR_SENTENCE_ENDING_PARTICLE
  | ADNOMINAL_ADJECTIVE | PROPER_NOUN | SPECIAL | VERB_CONJUNCTION
  | PERSON_NAME | FAMILY_NAME | ORGANIZATION | NOT_ADJECTIVE_STEM | COMMA
  | OPENING_BRACKET | CLOSING_BRACKET | REGION | COUNTRY | NUMERAL
  | POSSIBLE_DEPENDANT | COMMON_NOUN | SUBSTANTIVE_ADJECTIVE
  | POSSIBLE_COUNTER_WORD | POSSIBLE_SURU | JUNTAIJOUSHI
  | POSSIBLE_NA_ADJECTIVE | VERB_LIKE | POSSIBLE_VERB_SURU_NOUN | ADJECTIVAL
  | NA_ADJECTIVE_LIKE | NAME | LETTER | PLACE_NAME | TARU_ADJECTIVE.

(** The [IntEnum] value. *)
Definition value (x : t) : N :=
  match x with
    | NONE => 0
    | AMOUNT => 1
    | ALPHABET => 2
    | FULL_STOP => 3
    | BLANK_SPACE => 4
    | SUFFIX => 5
    | PRONOUN => 6
    | INDEPENDANT => 7
    | DEPENDANT => 8
    | FILLER => 9
    | COMMON => 10
    | SENTENCE_ENDING_PARTICLE => 11
    | COUNTER => 12
    | PARALLEL_MARKER => 13
    | BINDING_PARTICLE => 14
    | POTENTIAL_ADVERB => 15
    | CASE_MARKING_PARTICLE => 16
    | IRREGULAR_CONJUNCTION => 17
    | CONJUNCTION_PARTICLE => 18
    | AUXILIARY_VERB_STEM => 19
    | ADJECTIVAL_STEM => 20
    | COMPOUND_WORD => 21
    | QUOTATION => 22
    | NOUN_CONJUNCTION => 23
    | ADVERBIAL_PARTICLE => 24
    | CONJUNCTIVE_PARTICLE_CLASS => 25
    | ADVERBIALIZATION => 26
    | ADVERBIAL_PARTICLE_OR_PARALLEL_MARKER_OR_SENTENCE_ENDING_PARTICLE => 27
    | ADNOMINAL_ADJECTIVE => 28
    | PROPER_NOUN => 29
    | SPECIAL => 30
    | VERB_CONJUNCTION => 31
    | PERSON_NAME => 32
    | FAMILY_NAME => 33
    | ORGANIZATION => 34
    | NOT_ADJECTIVE_STEM => 35
    | COMMA => 36
    | OPENING_BRACKET => 37
    | CLOSING_BRACKET => 38
    | REGION => 39
    | COUNTRY => 40
    | NUMERAL => 41
    | POSSIBLE_DEPENDANT => 42
    | COMMON_NOUN => 43
    | SUBSTANTIVE_ADJECTIVE => 44
    | POSSIBLE_COUNTER_WORD => 45
    | POSSIBLE_SURU => 46
    | JUNTAIJOUSHI => 47
    | POSSIBLE_NA_ADJECTIVE => 48
    | VERB_LIKE => 49
    | POSSIBLE_VERB_SURU_NOUN => 50
    | ADJECTIVAL => 51
    | NA_ADJECTIVE_LIKE => 52
    | NAME => 53
    | LETTER => 54
    | PLACE_NAME => 55
    | TARU_ADJECTIVE => 56
  end.

#[global] Instance eq_dec : EqDecision t.
Proof. solve_decision. Defined.

End PartOfSpeechSection.

(** ** Word units ([word_info.py]) and the combination passes
       ([morphological_analyser.py]) *)

Module Morph.

Record WordInfo := {
  text : str;
  part_of_speech : PartOfSpeech.t;
  part_of_speech_section1 : PartOfSpeechSection.t;
  part_of_speech_section2 : PartOfSpeechSection.t;
  part_of_speech_section3 : PartOfSpeechSection.t;
  normalized_form : str;
  dictionary_form : str;
  reading : str;
  is_invalid : bool
}.

#[global] Instance WordInfo_eq_dec : EqDecision WordInfo.
Proof. solve_decision. Defined.

(** [WordInfo()] *)
Definition WordInfo_new : WordInfo :=
  {| text := []; part_of_speech := PartOfSpeech.UNKNOWN;
     part_of_speech_section1 := PartOfSpeechSection.NONE;
     part_of_speech_section2 := PartOfSpeechSection.NONE;
     part_of_speech_section3 := PartOfSpeechSection.NONE;
     normalized_form := []; dictionary_form := []; reading := [];
     is_invalid := false |}.

(** Attribute assignments [w.text = t], [w.part_of_speech = p], ... *)
Definition with_text (t : str) (w : WordInfo) : WordInfo :=
  {| text := t; part_of_speech := part_of_speech w;
     part_of_speech_section1 := part_of_speech_section1 w;
     part_of_speech_section2 := part_of_speech_section2 w;
     part_of_speech_section3 := part_of_speech_section3 w;
     normalized_form := normalized_form w; dictionary_form := dictionary_form w;
     reading := reading w; is_invalid := is_invalid w |}.

Definition with_part_of_speech (p : PartOfSpeech.t) (w : WordInfo) : WordInfo :=
  {| text := text w; part_of_speech := p;
     part_of_speech_section1 := part_of_speech_section1 w;
     part_of_speech_section2 := part_of_speech_section2 w;
     part_of_speech_section3 := part_of_speech_section3 w;
     normalized_form := normalized_form w; dictionary_form := dictionary_form w;
     reading := reading w; is_invalid := is_invalid w |}.

Definition with_part_of_speech_section1 (x : PartOfSpeechSection.t) (w : WordInfo)
  : WordInfo :=
  {| text := text w; part_of_speech := part_of_speech w;
     part_of_speech_section1 := x;
     part_of_speech_section2 := part_of_speech_section2 w;
     part_of_speech_section3 := part_of_speech_section3 w;
     normalized_form := normalized_form w; dictionary_form := dictionary_form w;
     reading := reading w; is_invalid := is_invalid w |}.

Definition with_dictionary_form (d : str) (w : WordInfo) : WordInfo :=
  {| text := text w; part_of_speech := part_of_speech w;
     part_of_speech_section1 := part_of_speech_section1 w;
     part_of_speech_section2 := part_of_speech_section2 w;
     part_of_speech_section3 := part_of_speech_section3 w;
     normalized_form := normalized_form w; dictionary_form := d;
     reading := reading w; is_invalid := is_invalid w |}.

Definition with_reading (r : str) (w : WordInfo) : WordInfo :=
  {| text := text w; part_of_speech := part_of_speech w;
     part_of_speech_section1 := part_of_speech_section1 w;
     part_of_speech_section2 := part_of_speech_section2 w;
     part_of_speech_section3 := part_of_speech_section3 w;
     normalized_form := normalized_form w; dictionary_form := dictionary_form w;
     reading := r; is_invalid := is_invalid w |}.

Definition has_part_of_speech_section (self : WordInfo)
    (section : PartOfSpeechSection.t) : bool :=
  bool_decide (part_of_speech_section1 self = section)
  || bool_decide (part_of_speech_section2 self = section)
  || bool_decide (part_of_speech_section3 self = section).

(** *** The object store

    Word units are Python objects: a list of units is a list of references,
    and an attribute assignment is seen through every reference. The store
    maps a reference (an index) to the object's current field values. *)

Abbreviation ref := nat.
Abbreviation store := (list WordInfo).

(** Field values of the object behind a reference. *)
Definition get (h : store) (r : ref) : WordInfo := nth r h WordInfo_new.

(** Attribute assignment on the object behind [r]. *)
Definition set (h : store) (r : ref) (f : WordInfo -> WordInfo) : store :=
  <[r := f (get h r)]> h.

(** A new object with the given field values. *)
Definition alloc (h : store) (w : WordInfo) : ref * store := (length h, h ++ [w]).

(** [WordInfo(other)]: a new object with the field values of [other]. *)
Definition copy (h : store) (other : ref) : ref * store := alloc h (get h other).

(** [x in (a, b, ...)] *)
Definition isin {A} `{EqDecision A} (x : A) (l : list A) : bool := bool_decide (x ∈ l).

(** [new_list[-1]] *)
Definition last_ref (new_list : list ref) : ref :=
  nth (length new_list - 1) new_list 0%nat.

Definition SPECIAL_CASES_3 : list (str * str * str * option PartOfSpeech.t) :=
  [ (u "な", u "の", u "で", Some PartOfSpeech.EXPRESSION);
    (u "で", u "は", u "ない", Some PartOfSpeech.EXPRESSION);
    (u "それ", u "で", u "も", Some PartOfSpeech.CONJUNCTION);
    (u "なく", u "なっ", u "た", Some PartOfSpeech.VERB) ].

Definition SPECIAL_CASES_2 : list (str * str * option PartOfSpeech.t) :=
  [ (u "じゃ", u "ない", Some PartOfSpeech.EXPRESSION);
    (u "に", u "しろ", Some PartOfSpeech.EXPRESSION);
    (u "だ", u "けど", Some PartOfSpeech.CONJUNCTION);
    (u "だ", u "が", Some PartOfSpeech.CONJUNCTION);
    (u "で", u "さえ", Some PartOfSpeech.EXPRESSION);
    (u "で", u "すら", Some PartOfSpeech.EXPRESSION);
    (u "と", u "いう", Some PartOfSpeech.EXPRESSION);
    (u "と", u "か", Some PartOfSpeech.CONJUNCTION);
    (u "だ", u "から", Some PartOfSpeech.CONJUNCTION);
    (u "これ", u "まで", Some PartOfSpeech.EXPRESSION);
    (u "それ", u "も", Some PartOfSpeech.CONJUNCTION);
    (u "それ", u "だけ", Some PartOfSpeech.NOUN);
    (u "くせ", u "に", Some PartOfSpeech.CONJUNCTION);
    (u "の", u "で", Some PartOfSpeech.PARTICLE);
    (u "誰", u "も", Some PartOfSpeech.EXPRESSION);
    (u "誰", u "か", Some PartOfSpeech.EXPRESSION);
    (u "すぐ", u "に", Some PartOfSpeech.ADVERB);
    (u "なん", u "か", Some PartOfSpeech.PARTICLE);
    (u "だっ", u "た", Some PartOfSpeech.EXPRESSION);
    (u "だっ", u "たら", Some PartOfSpeech.CONJUNCTION);
    (u "よう", u "に", Some PartOfSpeech.EXPRESSION);
    (u "ん", u "です", Some PartOfSpeech.EXPRESSION);
    (u "ん", u "だ", Some PartOfSpeech.EXPRESSION);
    (u "です", u "か", Some PartOfSpeech.EXPRESSION) ].

Definition HONORIFICS_SUFFIXES : list str := [u "さん"; u "ちゃん"; u "くん"].
Definition _SENTENCE_ENDERS : list N :=
  Eval vm_compute in u "。" ++ u "！" ++ u "？" ++ u "」".

(** [for sc in SPECIAL_CASES_3: if w1.text == sc[0] and ...]: the first entry
    whose texts match (the entries have pairwise different texts). *)
Fixpoint find_case3 (t1 t2 t3 : str)
    (cases : list (str * str * str * option PartOfSpeech.t))
  : option (option PartOfSpeech.t) :=
  match cases with
  | [] => None
  | (a, b, c, p) :: cases' =>
    if bool_decide (t1 = a) && bool_decide (t2 = b) && bool_decide (t3 = c)
    then Some p else find_case3 t1 t2 t3 cases'
  end.

Fixpoint find_case2 (t1 t2 : str) (cases : list (str * str * option PartOfSpeech.t))
  : option (option PartOfSpeech.t) :=
  match cases with
  | [] => None
  | (a, b, p) :: cases' =>
    if bool_decide (t1 = a) && bool_decide (t2 = b)
    then Some p else find_case2 t1 t2 cases'
  end.

(** The 3-word block of [_process_special_cases]: the new unit, if one of the
    3-word cases applies. *)
Definition special_three (h : store) (w1 w2 w3 : ref) : option (ref * store) :=
  if bool_decide (dictionary_form (get h w1) = u "する")
     && bool_decide (text (get h w2) = u "て")
     && bool_decide (dictionary_form (get h w3) = u "くださる")
  then
    let '(new_word, h) := copy h w1 in
    Some (new_word,
          set h new_word
            (with_text (text (get h w1) ++ text (get h w2) ++ text (get h w3))))
  else
    match find_case3 (text (get h w1)) (text (get h w2)) (text (get h w3))
            SPECIAL_CASES_3 with
    | Some p =>
      let '(new_word, h) := copy h w1 in
      let h := set h new_word
                 (with_text (text (get h w1) ++ text (get h w2) ++ text (get h w3))) in
      Some (new_word,
            match p with
            | Some p => set h new_word (with_part_of_speech p)
            | None => h
            end)
    | None => None
    end.

(** The 2-word block. *)
Definition special_two (h : store) (w1 w2 : ref) : option (ref * store) :=
  match find_case2 (text (get h w1)) (text (get h w2)) SPECIAL_CASES_2 with
  | Some p =>
    let '(new_word, h) := copy h w1 in
    let h := set h new_word (with_text (text (get h w1) ++ text (get h w2))) in
    Some (new_word,
          match p with
          | Some p => set h new_word (with_part_of_speech p)
          | None => h
          end)
  | None => None
  end.

(** The rest of the loop body: the units appended for [w1] alone. *)
Definition special_one (h : store) (w1 : ref) : list ref * store :=
  if bool_decide (text (get h w1) = u "でしょう") then
    let '(new_word, h) := copy h w1 in
    let h := set h new_word (with_part_of_speech PartOfSpeech.EXPRESSION) in
    let h := set h new_word (with_part_of_speech_section1 PartOfSpeechSection.NONE) in
    ([new_word], h)
  else if bool_decide (text (get h w1) = u "だし") then
    let '(da, h) := alloc h WordInfo_new in
    let h := set h da (with_text (u "だ")) in
    let h := set h da (with_dictionary_form (u "だ")) in
    let h := set h da (with_reading (u "だ")) in
    let h := set h da (with_part_of_speech PartOfSpeech.AUXILIARY) in
    let '(shi, h) := alloc h WordInfo_new in
    let h := set h shi (with_text (u "し")) in
    let h := set h shi (with_dictionary_form (u "し")) in
    let h := set h shi (with_reading (u "し")) in
    let h := set h shi (with_part_of_speech PartOfSpeech.CONJUNCTION) in
    ([da; shi], h)
  else
    let h := if isin (text (get h w1)) [u "な"; u "に"]
             then set h w1 (with_part_of_speech PartOfSpeech.PARTICLE) else h in
    let h := if bool_decide (text (get h w1) = u "よう")
             then set h w1 (with_part_of_speech PartOfSpeech.NOUN) else h in
    let h := if bool_decide (text (get h w1) = u "十五")
             then set h w1 (with_part_of_speech PartOfSpeech.NUMERAL) else h in
    ([w1], h).

(** [while i < len(word_infos)] of [_process_special_cases]; [ws] is
    [word_infos[i:]]. *)
Fixpoint special_loop (h : store) (new_list : list ref) (ws : list ref)
  : list ref * store :=
  match ws with
  | [] => (new_list, h)
  | w1 :: rest =>
    if bool_decide (part_of_speech (get h w1) = PartOfSpeech.CONJUNCTION)
       && bool_decide (text (get h w1) = u "で")
    then
      special_loop (set h w1 (with_part_of_speech PartOfSpeech.PARTICLE))
        (new_list ++ [w1]) rest
    else
      match rest with
      | w2 :: rest2 =>
        match
          match rest2 with
          | w3 :: rest3 =>
            match special_three h w1 w2 w3 with
            | Some (new_word, h') =>
              Some (special_loop h' (new_list ++ [new_word]) rest3)
            | None => None
            end
          | [] => None
          end
        with
        | Some r => r
        | None =>
          match special_two h w1 w2 with
          | Some (new_word, h') => special_loop h' (new_list ++ [new_word]) rest2
          | None =>
            let '(items, h') := special_one h w1 in
            special_loop h' (new_list ++ items) rest
          end
        end
      | [] =>
        let '(items, h') := special_one h w1 in
        special_loop h' (new_list ++ items) rest
      end
  end.

Definition _process_special_cases (h : store) (word_infos : list ref)
  : list ref * store :=
  match word_infos with
  | [] => (word_infos, h)
  | _ => special_loop h [] word_infos
  end.

(** [for i in range(1, len(word_infos))] of [_combine_prefixes]; [rest] is
    [word_infos[i:]]. *)
Fixpoint prefixes_loop (h : store) (new_list : list ref) (current_word : ref)
    (rest : list ref) : list ref * store :=
  match rest with
  | [] => (new_list ++ [current_word], h)
  | next_word :: rest' =>
    if bool_decide (part_of_speech (get h current_word) = PartOfSpeech.PREFIX)
       && negb (bool_decide (normalized_form (get h current_word) = u "御"))
    then
      let new_text := text (get h current_word) ++ text (get h next_word) in
      let '(current_word, h) := copy h next_word in
      let h := set h current_word (with_text new_text) in
      prefixes_loop h new_list current_word rest'
    else
      let new_list := new_list ++ [current_word] in
      let '(current_word, h) := copy h next_word in
      prefixes_loop h new_list current_word rest'
  end.

Definition _combine_prefixes (h : store) (word_infos : list ref) : list ref * store :=
  match word_infos with
  | [] | [_] => (word_infos, h)
  | w0 :: rest =>
    let '(current_word, h) := copy h w0 in
    prefixes_loop h [] current_word rest
  end.

Section amounts.

(** [amount_combinations.COMBINATIONS] is not part of the sources at hand;
    [COMBINATIONS (a, b)] stands for [(a, b) in COMBINATIONS]. *)
Variable COMBINATIONS : str * str -> bool.

Fixpoint amounts_loop (h : store) (new_list : list ref) (current_word : ref)
    (rest : list ref) : list ref * store :=
  match rest with
  | [] => (new_list ++ [current_word], h)
  | next_word :: rest' =>
    let is_amount :=
      has_part_of_speech_section (get h current_word) PartOfSpeechSection.AMOUNT
      || has_part_of_speech_section (get h current_word) PartOfSpeechSection.NUMERAL in
    let is_combination :=
      COMBINATIONS (text (get h current_word), text (get h next_word)) in
    if is_amount && is_combination then
      let t := text (get h current_word) ++ text (get h next_word) in
      let '(current_word, h) := copy h next_word in
      let h := set h current_word (with_text t) in
      let h := set h current_word (with_part_of_speech PartOfSpeech.NOUN) in
      amounts_loop h new_list current_word rest'
    else
      let new_list := new_list ++ [current_word] in
      let '(current_word, h) := copy h next_word in
      amounts_loop h new_list current_word rest'
  end.

Definition _combine_amounts (h : store) (word_infos : list ref)
  : list ref * store :=
  match word_infos with
  | [] | [_] => (word_infos, h)
  | w0 :: rest =>
    let '(current_word, h) := copy h w0 in
    amounts_loop h [] current_word rest
  end.

End amounts.

(** [current_word.text += next_word.text] *)
Definition append_text (h : store) (current_word next_word : ref) : store :=
  set h current_word (with_text (text (get h current_word) ++ text (get h next_word))).

Fixpoint tte_loop (h : store) (new_list : list ref) (current_word : ref)
    (rest : list ref) : list ref * store :=
  match rest with
  | [] => (new_list ++ [current_word], h)
  | next_word :: rest' =>
    if endswith (text (get h current_word)) (u "っ")
       && startswith (text (get h next_word)) (u "て")
    then tte_loop (append_text h current_word next_word) new_list current_word rest'
    else
      let new_list := new_list ++ [current_word] in
      let '(current_word, h) := copy h next_word in
      tte_loop h new_list current_word rest'
  end.

Definition _combine_tte (h : store) (word_infos : list ref) : list ref * store :=
  match word_infos with
  | [] | [_] => (word_infos, h)
  | w0 :: rest =>
    let '(current_word, h) := copy h w0 in
    tte_loop h [] current_word rest
  end.

Fixpoint verb_dependants_loop (h : store) (new_list : list ref) (current_word : ref)
    (rest : list ref) : list ref * store :=
  match rest with
  | [] => (new_list ++ [current_word], h)
  | next_word :: rest' =>
    if has_part_of_speech_section (get h next_word) PartOfSpeechSection.DEPENDANT
       && bool_decide (part_of_speech (get h current_word) = PartOfSpeech.VERB)
    then
      verb_dependants_loop (append_text h current_word next_word) new_list
        current_word rest'
    else
      let new_list := new_list ++ [current_word] in
      let '(current_word, h) := copy h next_word in
      verb_dependants_loop h new_list current_word rest'
  end.

Definition _combine_verb_dependants (h : store) (word_infos : list ref)
  : list ref * store :=
  match word_infos with
  | [] | [_] => (word_infos, h)
  | w0 :: rest =>
    let '(current_word, h) := copy h w0 in
    verb_dependants_loop h [] current_word rest
  end.

Definition possible_dependant_forms : list str :=
  [u "得る"; u "する"; u "しまう"; u "おる"; u "きる"; u "こなす"; u "いく";
   u "貰う"; u "いる"; u "ない"].

Fixpoint verb_possible_dependants_loop (h : store) (new_list : list ref)
    (current_word : ref) (rest : list ref) : list ref * store :=
  match rest with
  | [] => (new_list ++ [current_word], h)
  | next_word :: rest' =>
    let is_possible :=
      has_part_of_speech_section (get h next_word)
        PartOfSpeechSection.POSSIBLE_DEPENDANT
      && bool_decide (part_of_speech (get h current_word) = PartOfSpeech.VERB)
      && isin (dictionary_form (get h next_word)) possible_dependant_forms in
    if is_possible then
      verb_possible_dependants_loop (append_text h current_word next_word) new_list
        current_word rest'
    else
      let new_list := new_list ++ [current_word] in
      let '(current_word, h) := copy h next_word in
      verb_possible_dependants_loop h new_list current_word rest'
  end.

Definition _combine_verb_possible_dependants (h : store) (word_infos : list ref)
  : list ref * store :=
  match word_infos with
  | [] | [_] => (word_infos, h)
  | w0 :: rest =>
    let '(current_word, h) := copy h w0 in
    verb_possible_dependants_loop h [] current_word rest
  end.

(** [while i < len(word_infos)] of [_combine_verb_dependants_suru]; [ws] is
    [word_infos[i:]]. *)
Fixpoint suru_loop (h : store) (new_list : list ref) (ws : list ref)
  : list ref * store :=
  match ws with
  | [] => (new_list, h)
  | current_word :: rest =>
    match rest with
    | next_word :: rest2 =>
      if has_part_of_speech_section (get h current_word)
           PartOfSpeechSection.POSSIBLE_SURU
         && bool_decide (dictionary_form (get h next_word) = u "する")
         && negb (isin (text (get h next_word)) [u "する"; u "しない"])
      then
        let '(combined_word, h) := copy h current_word in
        let h := append_text h combined_word next_word in
        let h := set h combined_word (with_part_of_speech PartOfSpeech.VERB) in
        suru_loop h (new_list ++ [combined_word]) rest2
      else
        let '(c, h) := copy h current_word in
        suru_loop h (new_list ++ [c]) rest
    | [] =>
      let '(c, h) := copy h current_word in
      suru_loop h (new_list ++ [c]) rest
    end
  end.

Definition _combine_verb_dependants_suru (h : store) (word_infos : list ref)
  : list ref * store :=
  match word_infos with
  | [] | [_] => (word_infos, h)
  | _ => suru_loop h [] word_infos
  end.

(** [while i < len(word_infos)] of [_combine_verb_dependants_teiru]. *)
Fixpoint teiru_loop (h : store) (new_list : list ref) (ws : list ref)
  : list ref * store :=
  match ws with
  | [] => (new_list, h)
  | current_word :: rest =>
    match rest with
    | next1 :: next2 :: rest3 =>
      if bool_decide (part_of_speech (get h current_word) = PartOfSpeech.VERB)
         && bool_decide (dictionary_form (get h next1) = u "て")
         && bool_decide (dictionary_form (get h next2) = u "いる")
      then
        let '(combined_word, h) := copy h current_word in
        let h := set h combined_word
                   (with_text (text (get h combined_word)
                                 ++ (text (get h next1) ++ text (get h next2)))) in
        teiru_loop h (new_list ++ [combined_word]) rest3
      else
        let '(c, h) := copy h current_word in
        teiru_loop h (new_list ++ [c]) rest
    | _ =>
      let '(c, h) := copy h current_word in
      teiru_loop h (new_list ++ [c]) rest
    end
  end.

Definition _combine_verb_dependants_teiru (h : store) (word_infos : list ref)
  : list ref * store :=
  match word_infos with
  | [] | [_] | [_; _] => (word_infos, h)
  | _ => teiru_loop h [] word_infos
  end.

Definition _combine_verb_dependant (h : store) (word_infos : list ref)
  : list ref * store :=
  match word_infos with
  | [] | [_] => (word_infos, h)
  | _ =>
    let '(word_infos, h) := _combine_verb_dependants h word_infos in
    let '(word_infos, h) := _combine_verb_possible_dependants h word_infos in
    let '(word_infos, h) := _combine_verb_dependants_suru h word_infos in
    let '(word_infos, h) := _combine_verb_dependants_teiru h word_infos in
    (word_infos, h)
  end.

Fixpoint adverbial_particle_loop (h : store) (new_list : list ref)
    (current_word : ref) (rest : list ref) : list ref * store :=
  match rest with
  | [] => (new_list ++ [current_word], h)
  | next_word :: rest' =>
    let should_combine :=
      has_part_of_speech_section (get h next_word)
        PartOfSpeechSection.ADVERBIAL_PARTICLE
      && isin (dictionary_form (get h next_word)) [u "だり"; u "たり"]
      && bool_decide (part_of_speech (get h current_word) = PartOfSpeech.VERB) in
    if should_combine then
      adverbial_particle_loop (append_text h current_word next_word) new_list
        current_word rest'
    else
      let new_list := new_list ++ [current_word] in
      let '(current_word, h) := copy h next_word in
      adverbial_particle_loop h new_list current_word rest'
  end.

Definition _combine_adverbial_particle (h : store) (word_infos : list ref)
  : list ref * store :=
  match word_infos with
  | [] | [_] => (word_infos, h)
  | w0 :: rest =>
    let '(current_word, h) := copy h w0 in
    adverbial_particle_loop h [] current_word rest
  end.

(** [for i in range(1, len(word_infos))] of [_combine_conjunctive_particle];
    [new_list] holds the units of the input list themselves. *)
Fixpoint conjunctive_particle_loop (h : store) (new_list : list ref)
    (rest : list ref) : list ref * store :=
  match rest with
  | [] => (new_list, h)
  | current_word :: rest' =>
    let previous_word := last_ref new_list in
    let should_combine :=
      has_part_of_speech_section (get h current_word)
        PartOfSpeechSection.CONJUNCTION_PARTICLE
      && isin (text (get h current_word)) [u "て"; u "で"; u "ちゃ"; u "ば"]
      && isin (part_of_speech (get h previous_word))
           [PartOfSpeech.VERB; PartOfSpeech.I_ADJECTIVE; PartOfSpeech.AUXILIARY] in
    if should_combine then
      conjunctive_particle_loop (append_text h previous_word current_word) new_list
        rest'
    else conjunctive_particle_loop h (new_list ++ [current_word]) rest'
  end.

Definition _combine_conjunctive_particle (h : store) (word_infos : list ref)
  : list ref * store :=
  match word_infos with
  | [] | [_] => (word_infos, h)
  | w0 :: rest => conjunctive_particle_loop h [w0] rest
  end.

Fixpoint auxiliary_loop (h : store) (new_list : list ref) (rest : list ref)
  : list ref * store :=
  match rest with
  | [] => (new_list, h)
  | current_word :: rest' =>
    let previous_word := last_ref new_list in
    if negb (bool_decide (part_of_speech (get h current_word) = PartOfSpeech.AUXILIARY))
    then auxiliary_loop h (new_list ++ [current_word]) rest'
    else
      let prev_is_combinable :=
        isin (part_of_speech (get h previous_word))
          [PartOfSpeech.VERB; PartOfSpeech.I_ADJECTIVE; PartOfSpeech.NA_ADJECTIVE;
           PartOfSpeech.AUXILIARY]
        || has_part_of_speech_section (get h previous_word)
             PartOfSpeechSection.ADJECTIVAL in
      let is_desu_exception :=
        bool_decide (dictionary_form (get h current_word) = u "です")
        && negb (bool_decide (part_of_speech (get h previous_word) = PartOfSpeech.VERB)
                 && isin (text (get h current_word)) [u "でし"; u "でした"]) in
      let should_combine :=
        prev_is_combinable
        && negb is_desu_exception
        && negb (isin (text (get h current_word)) [u "な"; u "に"; u "なら"; u "だろう"])
        && negb (isin (dictionary_form (get h current_word))
                   [u "らしい"; u "べし"; u "ようだ"; u "やがる"]) in
      if should_combine then
        auxiliary_loop (append_text h previous_word current_word) new_list rest'
      else auxiliary_loop h (new_list ++ [current_word]) rest'
  end.

Definition _combine_auxiliary (h : store) (word_infos : list ref)
  : list ref * store :=
  match word_infos with
  | [] | [_] => (word_infos, h)
  | w0 :: rest => auxiliary_loop h [w0] rest
  end.

(** The loops below also read [prev_word = word_infos[i-1]]. *)
Fixpoint auxiliary_verb_stem_loop (h : store) (new_list : list ref)
    (current_word prev_word : ref) (rest : list ref) : list ref * store :=
  match rest with
  | [] => (new_list ++ [current_word], h)
  | next_word :: rest' =>
    let should_combine :=
      has_part_of_speech_section (get h next_word)
        PartOfSpeechSection.AUXILIARY_VERB_STEM
      && negb (isin (text (get h next_word)) [u "ように"; u "よう"; u "みたい"])
      && isin (part_of_speech (get h prev_word))
           [PartOfSpeech.VERB; PartOfSpeech.I_ADJECTIVE] in
    if should_combine then
      auxiliary_verb_stem_loop (append_text h current_word next_word) new_list
        current_word next_word rest'
    else
      let new_list := new_list ++ [current_word] in
      let '(current_word, h) := copy h next_word in
      auxiliary_verb_stem_loop h new_list current_word next_word rest'
  end.

Definition _combine_auxiliary_verb_stem (h : store) (word_infos : list ref)
  : list ref * store :=
  match word_infos with
  | [] | [_] => (word_infos, h)
  | w0 :: rest =>
    let '(current_word, h) := copy h w0 in
    auxiliary_verb_stem_loop h [] current_word w0 rest
  end.

Fixpoint suffix_loop (h : store) (new_list : list ref) (current_word prev_word : ref)
    (rest : list ref) : list ref * store :=
  match rest with
  | [] => (new_list ++ [current_word], h)
  | next_word :: rest' =>
    let is_suffix :=
      bool_decide (part_of_speech (get h next_word) = PartOfSpeech.SUFFIX)
      || has_part_of_speech_section (get h next_word) PartOfSpeechSection.SUFFIX in
    let is_combinable :=
      isin (dictionary_form (get h next_word)) [u "っこ"; u "さ"; u "がる"]
      || (bool_decide (dictionary_form (get h next_word) = u "ら")
          && bool_decide (part_of_speech (get h prev_word) = PartOfSpeech.PRONOUN)) in
    if is_suffix && is_combinable then
      suffix_loop (append_text h current_word next_word) new_list current_word
        next_word rest'
    else
      let new_list := new_list ++ [current_word] in
      let '(current_word, h) := copy h next_word in
      suffix_loop h new_list current_word next_word rest'
  end.

Definition _combine_suffix (h : store) (word_infos : list ref) : list ref * store :=
  match word_infos with
  | [] | [_] => (word_infos, h)
  | w0 :: rest =>
    let '(current_word, h) := copy h w0 in
    suffix_loop h [] current_word w0 rest
  end.

(** The [if]/[elif] chain of [_combine_particles]; [[]] is the empty
    [combined_text]. *)
Definition particles_text (t1 t2 : str) : str :=
  if bool_decide ((t1, t2) = (u "に", u "は")) then u "には"
  else if bool_decide ((t1, t2) = (u "と", u "は")) then u "とは"
  else if bool_decide ((t1, t2) = (u "で", u "は")) then u "では"
  else if bool_decide ((t1, t2) = (u "の", u "に")) then u "のに"
  else [].

Fixpoint particles_loop (h : store) (new_list : list ref) (ws : list ref)
  : list ref * store :=
  match ws with
  | [] => (new_list, h)
  | current_word :: rest =>
    match rest with
    | next_word :: rest2 =>
      let combined_text :=
        particles_text (text (get h current_word)) (text (get h next_word)) in
      if negb (is_empty combined_text) then
        let '(combined_word, h) := copy h current_word in
        let h := set h combined_word (with_text combined_text) in
        particles_loop h (new_list ++ [combined_word]) rest2
      else
        let '(c, h) := copy h current_word in
        particles_loop h (new_list ++ [c]) rest
    | [] =>
      let '(c, h) := copy h current_word in
      particles_loop h (new_list ++ [c]) rest
    end
  end.

Definition _combine_particles (h : store) (word_infos : list ref)
  : list ref * store :=
  match word_infos with
  | [] | [_] => (word_infos, h)
  | _ => particles_loop h [] word_infos
  end.

Fixpoint final_loop (h : store) (new_list : list ref) (current_word prev_word : ref)
    (rest : list ref) : list ref * store :=
  match rest with
  | [] => (new_list ++ [current_word], h)
  | next_word :: rest' =>
    if bool_decide (text (get h next_word) = u "ば")
       && bool_decide (part_of_speech (get h prev_word) = PartOfSpeech.VERB)
    then
      final_loop (append_text h current_word next_word) new_list current_word
        next_word rest'
    else
      let new_list := new_list ++ [current_word] in
      let '(current_word, h) := copy h next_word in
      final_loop h new_list current_word next_word rest'
  end.

Definition _combine_final (h : store) (word_infos : list ref) : list ref * store :=
  match word_infos with
  | [] | [_] => (word_infos, h)
  | w0 :: rest =>
    let '(current_word, h) := copy h w0 in
    final_loop h [] current_word w0 rest
  end.

(** [for honorific in self.HONORIFICS_SUFFIXES] of
    [_separate_suffix_honorifics]: the two units to append when an honorific
    is split off [current_word]. *)
Fixpoint honorific_loop (h : store) (current_word : ref) (honorifics : list str)
  : option (list ref * store) :=
  match honorifics with
  | [] => None
  | honorific :: honorifics' =>
    let is_proper_noun :=
      has_part_of_speech_section (get h current_word) PartOfSpeechSection.PERSON_NAME
      || has_part_of_speech_section (get h current_word)
           PartOfSpeechSection.PROPER_NOUN in
    if endswith (text (get h current_word)) honorific
       && bool_decide (length honorific < length (text (get h current_word)))%nat
       && is_proper_noun
    then
      let h := set h current_word
                 (with_text (slice_to_neg (length honorific)
                               (text (get h current_word)))) in
      let h := if endswith (dictionary_form (get h current_word)) honorific
               then set h current_word
                      (with_dictionary_form
                         (slice_to_neg (length honorific)
                            (dictionary_form (get h current_word))))
               else h in
      let '(suffix, h) := alloc h WordInfo_new in
      let h := set h suffix (with_text honorific) in
      let h := set h suffix (with_reading honorific) in
      let h := set h suffix (with_dictionary_form honorific) in
      let h := set h suffix (with_part_of_speech PartOfSpeech.SUFFIX) in
      Some ([current_word; suffix], h)
    else honorific_loop h current_word honorifics'
  end.

(** [for word in word_infos]: builds [new_list]. *)
Fixpoint separate_loop (h : store) (new_list : list ref) (ws : list ref)
  : list ref * store :=
  match ws with
  | [] => (new_list, h)
  | word :: rest =>
    let '(current_word, h) := copy h word in
    match honorific_loop h current_word HONORIFICS_SUFFIXES with
    | Some (items, h) => separate_loop h (new_list ++ items) rest
    | None => separate_loop h (new_list ++ [current_word]) rest
    end
  end.

(** The function ends with [return word_infos]. *)
Definition _separate_suffix_honorifics (h : store) (word_infos : list ref)
  : list ref * store :=
  match word_infos with
  | [] | [_] => (word_infos, h)
  | _ =>
    let '(new_list, h) := separate_loop h [] word_infos in
    (word_infos, h)
  end.

Section filter_misparse.

(** [wanakana.is_kana], an external library function. *)
Variable is_kana : str -> bool.

(** One iteration of the loop of [_filter_misparse] on [word_infos[i]];
    [kept] is [word_infos[i+1:]] after the removals so far. *)
Definition filter_step (word : ref) (st : list ref * store) : list ref * store :=
  let '(kept, h) := st in
  let h := if isin (text (get h word)) [u "なん"; u "フン"; u "ふん"]
           then set h word (with_part_of_speech PartOfSpeech.PREFIX) else h in
  let h := if bool_decide (text (get h word) = u "そう")
           then set h word (with_part_of_speech PartOfSpeech.ADVERB) else h in
  let h := if bool_decide (text (get h word) = u "おい")
           then set h word (with_part_of_speech PartOfSpeech.INTERJECTION) else h in
  let h := if bool_decide (text (get h word) = u "つ")
              && bool_decide (part_of_speech (get h word) = PartOfSpeech.SUFFIX)
           then set h word (with_part_of_speech PartOfSpeech.COUNTER) else h in
  let t := text (get h word) in
  let is_single_kana_char_noun :=
    bool_decide (part_of_speech (get h word) = PartOfSpeech.NOUN)
    && ((bool_decide (length t = 1%nat) && is_kana t)
        || (bool_decide (length t = 2%nat) && is_kana (slice_to 1 t)
            && bool_decide (slice_from 1 t = u "ー"))
        || isin t [u "エナ"; u "えな"]) in
  if isin t [u "そ"; u "ー"; u "る"; u "ま"; u "ふ"; u "ち"; u "ほ"; u "す"; u "じ";
             u "なさ"]
     || is_single_kana_char_noun
  then (kept, h)
  else (word :: kept, h).

(** [for i in range(len(word_infos) - 1, -1, -1)]: from the last unit to
    the first. *)
Definition _filter_misparse (h : store) (word_infos : list ref)
  : list ref * store :=
  foldr filter_step ([], h) word_infos.

End filter_misparse.

(** *** Sentences ([sentence_info.py]) *)

Module SentenceInfo.
Record t := {
  text : str;
  words : list (ref * nat * nat)
}.
End SentenceInfo.

Definition LF : str := [10].
Definition CR : str := [13].

(** The characters kept by the character class of [_preprocess_text]. *)
Definition in_range (lo hi c : N) : bool := (lo <=? c) && (c <=? hi).

Definition allowed_char (c : N) : bool :=
  in_range 0x3040 0x309F c || in_range 0x30A0 0x30FF c || in_range 0x4E00 0x9FAF c
  || in_range 0xFF21 0xFF3A c || in_range 0xFF41 0xFF5A c || in_range 0xFF10 0xFF19 c
  || (c =? 0x3005) || in_range 0x3001 0x3003 c || in_range 0x3008 0x3011 c
  || in_range 0x3014 0x301F c || in_range 0xFF01 0xFF0F c || in_range 0xFF1A 0xFF1F c
  || in_range 0xFF3B 0xFF3F c || in_range 0xFF5B 0xFF60 c || in_range 0xFF62 0xFF65 c
  || (c =? 0xFF0E) || (c =? 10) || (c =? 0x2026) || (c =? 0x3000) || (c =? 0x2015)
  || (c =? 0x2500) || (c =? 40) || (c =? 41) || (c =? 0x3002) || (c =? 0xFF01)
  || (c =? 0xFF1F) || (c =? 0x300C) || (c =? 0x300D) || (c =? 0xFF09).

Definition _preprocess_text (t : str) : str :=
  let t := replace (replace t (u "<") (u " ")) (u ">") (u " ") in
  let t := List.filter allowed_char t in
  let t := replace t (u "「") (LF ++ u "「 ") in
  let t := replace t (u "」") (u " 」" ++ LF) in
  let t := replace t (u "〈") (u " " ++ LF ++ u "〈 ") in
  let t := replace t (u "〉") (u " 〉" ++ LF) in
  let t := replace t (u "《") (u " " ++ LF ++ u "《 ") in
  let t := replace t (u "》") (u " 》" ++ LF) in
  let t := replace t (u "“") (u " " ++ LF ++ u "“ ") in
  let t := replace t (u "”") (u " ”" ++ LF) in
  let t := replace t (u "―") (u " ― ") in
  let t := replace t (u "。") (u " 。" ++ LF) in
  let t := replace t (u "！") (u " ！" ++ LF) in
  let t := replace t (u "？") (u " ？" ++ LF) in
  replace (replace t (u "…" ++ CR) (u "。" ++ CR)) (u "…" ++ LF) (u "。" ++ LF).

(** [for char in text] of [_split_into_sentences]. *)
Fixpoint split_chars (chars : str) (sentences : list str)
    (current_sentence_chars : str) (seen_ender : bool) : list str * str :=
  match chars with
  | [] => (sentences, current_sentence_chars)
  | char :: rest =>
    let current_sentence_chars := current_sentence_chars ++ [char] in
    if isin char _SENTENCE_ENDERS
    then split_chars rest sentences current_sentence_chars true
    else if seen_ender then
      split_chars rest (sentences ++ [removelast current_sentence_chars]) [char] false
    else split_chars rest sentences current_sentence_chars seen_ender
  end.

(** [for i in range(1, len(word.text))]: whether some split of the word has
    its first part at the end of [remaining] and its second part at the
    start of the next sentence. *)
Definition straddles (word_text remaining next_text : str) : bool :=
  existsb (fun i => endswith remaining (slice_to i word_text)
                    && startswith next_text (slice_from i word_text))
    (seq 1 (length word_text - 1)).

Definition add_word (s : SentenceInfo.t) (w : ref * nat * nat) : SentenceInfo.t :=
  {| SentenceInfo.text := SentenceInfo.text s;
     SentenceInfo.words := SentenceInfo.words s ++ [w] |}.

(** [while current_sentence_idx < len(sentences) and not word_assigned]; every
    round that does not place the word moves to the next sentence, so
    [S (length sentences)] rounds are enough. *)
Fixpoint assign_word (fuel : nat) (word : ref) (word_text : str)
    (sentences : list SentenceInfo.t) (current_sentence_idx current_char_idx : nat)
  : list SentenceInfo.t * nat * nat :=
  match fuel with
  | O => (sentences, current_sentence_idx, current_char_idx)
  | S fuel' =>
    match sentences !! current_sentence_idx with
    | None => (sentences, current_sentence_idx, current_char_idx)
    | Some sentence =>
      match find (SentenceInfo.text sentence) word_text current_char_idx with
      | Some word_idx =>
        (<[current_sentence_idx :=
             add_word sentence (word, word_idx, length word_text)]> sentences,
         current_sentence_idx, (word_idx + length word_text)%nat)
      | None =>
        match sentences !! S current_sentence_idx with
        | Some next_sentence =>
          let remaining := slice_from current_char_idx (SentenceInfo.text sentence) in
          if straddles word_text remaining (SentenceInfo.text next_sentence) then
            let merged :=
              {| SentenceInfo.text :=
                   SentenceInfo.text sentence ++ SentenceInfo.text next_sentence;
                 SentenceInfo.words := SentenceInfo.words sentence |} in
            let sentences :=
              delete (S current_sentence_idx)
                (<[current_sentence_idx := merged]> sentences) in
            match find (SentenceInfo.text merged) word_text current_char_idx with
            | Some word_idx =>
              (<[current_sentence_idx :=
                   add_word merged (word, word_idx, length word_text)]> sentences,
               current_sentence_idx, (word_idx + length word_text)%nat)
            | None => assign_word fuel' word word_text sentences
                        (S current_sentence_idx) 0
            end
          else assign_word fuel' word word_text sentences (S current_sentence_idx) 0
        | None => assign_word fuel' word word_text sentences (S current_sentence_idx) 0
        end
      end
    end
  end.

(** [for word in word_infos] *)
Fixpoint assign_words (h : store) (word_infos : list ref)
    (sentences : list SentenceInfo.t) (current_sentence_idx current_char_idx : nat)
  : list SentenceInfo.t :=
  match word_infos with
  | [] => sentences
  | word :: rest =>
    if is_empty (text (get h word))
    then assign_words h rest sentences current_sentence_idx current_char_idx
    else
      let '(sentences, current_sentence_idx, current_char_idx) :=
        assign_word (S (length sentences)) word (text (get h word)) sentences
          current_sentence_idx current_char_idx in
      assign_words h rest sentences current_sentence_idx current_char_idx
  end.

Definition new_sentence (t : str) : SentenceInfo.t :=
  {| SentenceInfo.text := t; SentenceInfo.words := [] |}.

Definition _split_into_sentences (h : store) (t : str) (word_infos : list ref)
  : list SentenceInfo.t :=
  let t := replace (replace t CR []) LF [] in
  let '(sentences, current_sentence_chars) := split_chars t [] [] false in
  let sentences :=
    if is_empty current_sentence_chars then sentences
    else sentences ++ [current_sentence_chars] in
  assign_words h word_infos (map new_sentence sentences) 0 0.

Section parse.

Variable COMBINATIONS : str * str -> bool.
Variable is_kana : str -> bool.
(** The tokenizer: the valid word units built from the output lines of
    [sudachi_interop.process_text] for the preprocessed text, given
    [morphemes_only]. *)
Variable tokenize : bool -> str -> list WordInfo.

(** The passes of [parse], in its order. *)
Definition combine (h : store) (word_infos : list ref) : list ref * store :=
  let '(word_infos, h) := _process_special_cases h word_infos in
  let '(word_infos, h) := _combine_prefixes h word_infos in
  let '(word_infos, h) := _combine_amounts COMBINATIONS h word_infos in
  let '(word_infos, h) := _combine_tte h word_infos in
  let '(word_infos, h) := _combine_auxiliary_verb_stem h word_infos in
  let '(word_infos, h) := _combine_adverbial_particle h word_infos in
  let '(word_infos, h) := _combine_suffix h word_infos in
  let '(word_infos, h) := _combine_auxiliary h word_infos in
  let '(word_infos, h) := _combine_verb_dependant h word_infos in
  let '(word_infos, h) := _combine_conjunctive_particle h word_infos in
  let '(word_infos, h) := _combine_particles h word_infos in
  let '(word_infos, h) := _combine_final h word_infos in
  let '(word_infos, h) := _separate_suffix_honorifics h word_infos in
  _filter_misparse is_kana h word_infos.

(** [parse]: the sentences, with the store their word references point
    into. *)
Definition parse (t : str) (morphemes_only : bool)
  : list SentenceInfo.t * store :=
  let t := _preprocess_text t in
  let h : store := tokenize morphemes_only t in
  let word_infos := seq 0 (length h) in
  if morphemes_only then
    ([{| SentenceInfo.text := [];
         SentenceInfo.words := map (fun w => (w, 0%nat, 0%nat)) word_infos |}], h)
  else
    let '(word_infos, h) := combine h word_infos in
    (_split_into_sentences h t word_infos, h).

End parse.

End Morph.

(** ** The resolved-word cache ([parser.py]) *)

Module Resolver.

Local Open Scope Z_scope.

Abbreviation ref := nat.

(** A [DeckWord] object. Its two list attributes hold references to list
    objects; [origin] is the value of the [WordOrigin] enumeration. *)
Record DeckWord := {
  word_id : Z;
  original_text : str;
  reading_index : Z;
  occurrences : Z;
  conjugations : ref;
  parts_of_speech : ref;
  origin : Z
}.

(** The objects that [_process_word] and its callers share. *)
Inductive obj :=
| ODeckWord (d : DeckWord)
| OStrList (l : list str)
| OPosList (l : list PartOfSpeech.t).

Abbreviation store := (list obj).

Definition alloc (h : store) (o : obj) : ref * store := (length h, h ++ [o]).

(** [DeckWordCacheKey]; an [IntEnum] member hashes and compares as its
    integer value. *)
Definition DeckWordCacheKey : Type := str * N * str.

(** The interpreter state that [_process_word] reads and writes: the objects
    and [_deck_word_cache_store]. *)
Record state := {
  objects : store;
  _deck_word_cache_store : gmap DeckWordCacheKey ref
}.

(** [_DeckWordCache.get] and [_DeckWordCache.set] *)
Definition cache_get (s : state) (key : DeckWordCacheKey) : option ref :=
  _deck_word_cache_store s !! key.

Definition cache_set (s : state) (key : DeckWordCacheKey) (word : ref) : state :=
  {| objects := objects s;
     _deck_word_cache_store := <[key := word]> (_deck_word_cache_store s) |}.

(** The [DeckWord] built from the attribute dictionary of [cached_word] on a
    cache hit: a new [DeckWord] object whose attributes are bound to the
    attribute values of [cached_word]. *)
Definition copy_DeckWord (s : state) (cached_word : ref) : option ref * state :=
  match objects s !! cached_word with
  | Some (ODeckWord d) =>
    let '(r, h) := alloc (objects s) (ODeckWord d) in
    (Some r, {| objects := h; _deck_word_cache_store := _deck_word_cache_store s |})
  | _ => (None, s)
  end.

Section process_word.

Variable USE_CACHE : bool.
(** The two lookups defined above [_process_word] in [parser.py]; they
    consult the dictionary and the kana library and build the [DeckWord]. *)
Variable _deconjugate_verb_or_adjective :
  Morph.WordInfo -> state -> (bool * option ref) * state.
Variable _deconjugate_word :
  Morph.WordInfo -> state -> (bool * option ref) * state.

(** [for new_pos in [VERB, I_ADJECTIVE, NA_ADJECTIVE]]: the last [word]. *)
Fixpoint retry_pos (s : state) (current_word_info : Morph.WordInfo)
    (poss : list PartOfSpeech.t) (word : option ref) : option ref * state :=
  match poss with
  | [] => (word, s)
  | new_pos :: poss' =>
    let '((_, word), s) :=
      _deconjugate_verb_or_adjective
        (Morph.with_part_of_speech new_pos current_word_info) s in
    match word with
    | Some _ => (word, s)
    | None => retry_pos s current_word_info poss' word
    end
  end.

(** The text-stripping ladder at the end of an attempt: the next text, or
    [None] for [break]. *)
Definition strip_text (t : str) : option str :=
  if bool_decide (2 < length t)%nat
     && (endswith t (u "っ") || endswith t (u "ー")
         || bool_decide (t !! (length t - 1)%nat = t !! (length t - 2)%nat))
  then Some (slice_to_neg 1 t)
  else if startswith t (u "お") then Some (slice_from 1 t)
  else if contains t (u "ー") then Some (replace t (u "ー") [])
  else None.

Definition is_none {A} (o : option A) : bool :=
  match o with None => true | Some _ => false end.

(** [for attempt in range(3)], with [n] attempts left. *)
Fixpoint attempts (n : nat) (s : state) (current_word_info : Morph.WordInfo)
  : option ref * state :=
  match n with
  | O => (None, s)
  | S n' =>
    let pos := Morph.part_of_speech current_word_info in
    let pos_sec1 := Morph.part_of_speech_section1 current_word_info in
    let '(processed_word, s) :=
      if Morph.isin pos [PartOfSpeech.VERB; PartOfSpeech.I_ADJECTIVE;
                         PartOfSpeech.AUXILIARY; PartOfSpeech.NA_ADJECTIVE]
         || bool_decide (pos_sec1 = PartOfSpeechSection.ADJECTIVAL)
      then
        let '((success, word), s) :=
          _deconjugate_verb_or_adjective current_word_info s in
        if negb success || is_none word
        then let '((_, word), s) := _deconjugate_word current_word_info s in (word, s)
        else (word, s)
      else
        let '((success, word), s) := _deconjugate_word current_word_info s in
        if negb success || is_none word
        then retry_pos s current_word_info
               [PartOfSpeech.VERB; PartOfSpeech.I_ADJECTIVE;
                PartOfSpeech.NA_ADJECTIVE] word
        else (word, s) in
    match processed_word with
    | Some _ => (processed_word, s)
    | None =>
      match strip_text (Morph.text current_word_info) with
      | Some t => attempts n' s (Morph.with_text t current_word_info)
      | None => (None, s)
      end
    end
  end.

Definition _process_word (word_info : Morph.WordInfo) (s : state)
  : option ref * state :=
  let cache_key : DeckWordCacheKey :=
    (Morph.text word_info, PartOfSpeech.value (Morph.part_of_speech word_info),
     Morph.dictionary_form word_info) in
  match (if USE_CACHE then cache_get s cache_key else None) with
  | Some cached_word => copy_DeckWord s cached_word
  | None =>
    let '(processed_word, s) := attempts 3 s word_info in
    match processed_word with
    | Some w => if USE_CACHE then (processed_word, cache_set s cache_key w)
                else (processed_word, s)
    | None => (processed_word, s)
    end
  end.

End process_word.

(** What a caller reads through a [DeckWord] reference: the attribute values,
    with the contents of the two lists. *)
Record DeckWordValue := {
  v_word_id : Z;
  v_original_text : str;
  v_reading_index : Z;
  v_occurrences : Z;
  v_conjugations : list str;
  v_parts_of_speech : list PartOfSpeech.t;
  v_origin : Z
}.

Definition read (h : store) (r : ref) : option DeckWordValue :=
  match h !! r with
  | Some (ODeckWord d) =>
    match h !! conjugations d, h !! parts_of_speech d with
    | Some (OStrList cs), Some (OPosList ps) =>
      Some {| v_word_id := word_id d; v_original_text := original_text d;
              v_reading_index := reading_index d; v_occurrences := occurrences d;
              v_conjugations := cs; v_parts_of_speech := ps; v_origin := origin d |}
    | _, _ => None
    end
  | _ => None
  end.

(** Mutations a caller can make through a returned word [r]:
    [r.occurrences = n], [r.conjugations.append(c)] and
    [r.parts_of_speech.append(p)]. *)
Definition set_occurrences (h : store) (r : ref) (n : Z) : store :=
  match h !! r with
  | Some (ODeckWord d) =>
    <[r := ODeckWord {| word_id := word_id d; original_text := original_text d;
                        reading_index := reading_index d; occurrences := n;
                        conjugations := conjugations d;
                        parts_of_speech := parts_of_speech d;
                        origin := origin d |}]> h
  | _ => h
  end.

Definition conjugations_append (h : store) (r : ref) (c : str) : store :=
  match h !! r with
  | Some (ODeckWord d) =>
    match h !! conjugations d with
    | Some (OStrList cs) => <[conjugations d := OStrList (cs ++ [c])]> h
    | _ => h
    end
  | _ => h
  end.

Definition parts_of_speech_append (h : store) (r : ref) (p : PartOfSpeech.t) : store :=
  match h !! r with
  | Some (ODeckWord d) =>
    match h !! parts_of_speech d with
    | Some (OPosList ps) => <[parts_of_speech d := OPosList (ps ++ [p])]> h
    | _ => h
    end
  | _ => h
  end.

End Resolver.

(** ** Digit widths and letters ([string_helpers.py]) *)

Module StringHelpers.

(** A one-character literal, as its code point. *)
Definition ch (s : string) : N := hd 0 (u s).

Definition HALF_WIDTH_TO_FULL_WIDTH : gmap N N :=
  list_to_map
    [ (ch "0", ch "０"); (ch "1", ch "１"); (ch "2", ch "２"); (ch "3", ch "３");
      (ch "4", ch "４"); (ch "5", ch "５"); (ch "6", ch "６"); (ch "7", ch "７");
      (ch "8", ch "８"); (ch "9", ch "９") ].

Definition FULL_WIDTH_TO_HALF_WIDTH : gmap N N :=
  list_to_map
    [ (ch "０", ch "0"); (ch "１", ch "1"); (ch "２", ch "2"); (ch "３", ch "3");
      (ch "４", ch "4"); (ch "５", ch "5"); (ch "６", ch "6"); (ch "７", ch "7");
      (ch "８", ch "8"); (ch "９", ch "9") ].

(** [d.get(char, char)] *)
Definition get_or_self (d : gmap N N) (char : N) : N := default char (d !! char).

Definition to_full_width_digits (input_str : str) : str :=
  map (get_or_self HALF_WIDTH_TO_FULL_WIDTH) input_str.

Definition to_half_width_digits (input_str : str) : str :=
  map (get_or_self FULL_WIDTH_TO_HALF_WIDTH) input_str.

(** ['a' <= c <= 'z'] on one-character strings compares code points. *)
Definition between (lo hi : string) (c : N) : bool :=
  (ch lo <=? c) && (c <=? ch hi).

Definition is_ascii_or_full_width_letter (input_str : str) : bool :=
  match input_str with
  | [] => false
  | c :: _ =>
    between "a" "z" c || between "A" "Z" c || between "ａ" "ｚ" c
    || between "Ａ" "Ｚ" c
  end.

End StringHelpers.

(** ** Tokenizer lines ([part_of_speech.py], [word_info.py] and the loop of
       [MorphologicalAnalyser.parse] over the tokenizer output) *)

Module TokenLines.

Import Morph.

(** [match pos_str: case ... ] takes the first case that applies. *)
Definition to_part_of_speech (pos_str : str) : PartOfSpeech.t :=
  if isin pos_str [u "名詞"; u "n"] then PartOfSpeech.NOUN
  else if isin pos_str [u "動詞"] then PartOfSpeech.VERB
  else if startswith pos_str (u "v") then PartOfSpeech.VERB
  else if isin pos_str [u "形容詞"; u "adj-i"; u "adj-ix"] then PartOfSpeech.I_ADJECTIVE
  else if isin pos_str [u "形状詞"; u "adj-na"] then PartOfSpeech.NA_ADJECTIVE
  else if isin pos_str [u "副詞"; u "adv"] then PartOfSpeech.ADVERB
  else if isin pos_str [u "助詞"; u "prt"] then PartOfSpeech.PARTICLE
  else if isin pos_str [u "接続詞"; u "conj"] then PartOfSpeech.CONJUNCTION
  else if isin pos_str [u "助動詞"; u "aux"; u "aux-v"] then PartOfSpeech.AUXILIARY
  else if isin pos_str [u "感動詞"; u "int"] then PartOfSpeech.INTERJECTION
  else if isin pos_str [u "記号"] then PartOfSpeech.SYMBOL
  else if isin pos_str [u "接頭詞"; u "接頭辞"; u "pref"] then PartOfSpeech.PREFIX
  else if isin pos_str [u "フィラー"] then PartOfSpeech.FILLER
  else if isin pos_str [u "名"; u "company"; u "given"; u "place"; u "person";
       u "product"; u "ship"; u "surname"; u "unclass"; u "name-fem"; u "name-masc";
       u "station"; u "group"; u "char"; u "creat"; u "dei"; u "doc"; u "ev";
       u "fem"; u "fict"; u "leg"; u "masc"; u "myth"; u "obj"; u "organization";
       u "oth"; u "relig"; u "serv"; u "work"; u "unc"]
    then PartOfSpeech.NAME
  else if isin pos_str [u "代名詞"; u "pn"] then PartOfSpeech.PRONOUN
  else if isin pos_str [u "接尾辞"; u "suf"] then PartOfSpeech.SUFFIX
  else if isin pos_str [u "普通名詞"] then PartOfSpeech.COMMON_NOUN
  else if isin pos_str [u "補助記号"] then PartOfSpeech.SUPPLEMENTARY_SYMBOL
  else if isin pos_str [u "空白"] then PartOfSpeech.BLANK_SPACE
  else if isin pos_str [u "表現"; u "exp"] then PartOfSpeech.EXPRESSION
  else if isin pos_str [u "形動"; u "adj-no"; u "adj-t"; u "adj-f"]
    then PartOfSpeech.NOMINAL_ADJECTIVE
  else if isin pos_str [u "連体詞"; u "adj-pn"] then PartOfSpeech.PRENOUN_ADJECTIVAL
  else if isin pos_str [u "数詞"; u "num"] then PartOfSpeech.NUMERAL
  else if isin pos_str [u "助数詞"; u "ctr"] then PartOfSpeech.COUNTER
  else if isin pos_str [u "副詞的と"; u "adv-to"] then PartOfSpeech.ADVERB_TO
  else if isin pos_str [u "名詞接尾辞"; u "n-suf"] then PartOfSpeech.NOUN_SUFFIX
  else PartOfSpeech.UNKNOWN.

Definition to_part_of_speech_section (pos_str : str) : PartOfSpeechSection.t :=
  if isin pos_str [u "*"] then PartOfSpeechSection.NONE
  else if isin pos_str [u "数"] then PartOfSpeechSection.AMOUNT
  else if isin pos_str [u "アルファベット"] then PartOfSpeechSection.ALPHABET
  else if isin pos_str [u "句点"] then PartOfSpeechSection.FULL_STOP
  else if isin pos_str [u "空白"] then PartOfSpeechSection.BLANK_SPACE
  else if isin pos_str [u "接尾"; u "suf"] then PartOfSpeechSection.SUFFIX
  else if isin pos_str [u "代名詞"; u "pn"] then PartOfSpeechSection.PRONOUN
  else if isin pos_str [u "自立"] then PartOfSpeechSection.INDEPENDANT
  else if isin pos_str [u "フィラー"] then PartOfSpeechSection.FILLER
  else if isin pos_str [u "一般"] then PartOfSpeechSection.COMMON
  else if isin pos_str [u "非自立"] then PartOfSpeechSection.DEPENDANT
  else if isin pos_str [u "終助詞"] then PartOfSpeechSection.SENTENCE_ENDING_PARTICLE
  else if isin pos_str [u "助数詞"; u "ctr"] then PartOfSpeechSection.COUNTER
  else if isin pos_str [u "並立助詞"] then PartOfSpeechSection.PARALLEL_MARKER
  else if isin pos_str [u "係助詞"] then PartOfSpeechSection.BINDING_PARTICLE
  else if isin pos_str [u "副詞可能"] then PartOfSpeechSection.POTENTIAL_ADVERB
  else if isin pos_str [u "格助詞"] then PartOfSpeechSection.CASE_MARKING_PARTICLE
  else if isin pos_str [u "サ変接続"] then PartOfSpeechSection.IRREGULAR_CONJUNCTION
  else if isin pos_str [u "接続助詞"] then PartOfSpeechSection.CONJUNCTION_PARTICLE
  else if isin pos_str [u "助動詞語幹"] then PartOfSpeechSection.AUXILIARY_VERB_STEM
  else if isin pos_str [u "形容動詞語幹"] then PartOfSpeechSection.ADJECTIVAL_STEM
  else if isin pos_str [u "連語"] then PartOfSpeechSection.COMPOUND_WORD
  else if isin pos_str [u "引用"] then PartOfSpeechSection.QUOTATION
  else if isin pos_str [u "名詞接続"] then PartOfSpeechSection.NOUN_CONJUNCTION
  else if isin pos_str [u "副助詞"] then PartOfSpeechSection.ADVERBIAL_PARTICLE
  else if isin pos_str [u "助詞類接続"] then PartOfSpeechSection.CONJUNCTIVE_PARTICLE_CLASS
  else if isin pos_str [u "副詞化"] then PartOfSpeechSection.ADVERBIALIZATION
  else if isin pos_str [u "副助詞／並立助詞／終助詞"]
    then PartOfSpeechSection.ADVERBIAL_PARTICLE_OR_PARALLEL_MARKER_OR_SENTENCE_ENDING_PARTICLE
  else if isin pos_str [u "連体化"] then PartOfSpeechSection.ADNOMINAL_ADJECTIVE
  else if isin pos_str [u "固有名詞"] then PartOfSpeechSection.PROPER_NOUN
  else if isin pos_str [u "特殊"] then PartOfSpeechSection.SPECIAL
  else if isin pos_str [u "動詞接続"] then PartOfSpeechSection.VERB_CONJUNCTION
  else if isin pos_str [u "人名"] then PartOfSpeechSection.PERSON_NAME
  else if isin pos_str [u "姓"] then PartOfSpeechSection.FAMILY_NAME
  else if isin pos_str [u "組織"] then PartOfSpeechSection.ORGANIZATION
  else if isin pos_str [u "ナイ形容詞語幹"] then PartOfSpeechSection.NOT_ADJECTIVE_STEM
  else if isin pos_str [u "読点"] then PartOfSpeechSection.COMMA
  else if isin pos_str [u "括弧開"] then PartOfSpeechSection.OPENING_BRACKET
  else if isin pos_str [u "括弧閉"] then PartOfSpeechSection.CLOSING_BRACKET
  else if isin pos_str [u "地域"] then PartOfSpeechSection.REGION
  else if isin pos_str [u "国"] then PartOfSpeechSection.COUNTRY
  else if isin pos_str [u "数詞"; u "num"] then PartOfSpeechSection.NUMERAL
  else if isin pos_str [u "非自立可能"] then PartOfSpeechSection.POSSIBLE_DEPENDANT
  else if isin pos_str [u "普通名詞"] then PartOfSpeechSection.COMMON_NOUN
  else if isin pos_str [u "名詞的"] then PartOfSpeechSection.SUBSTANTIVE_ADJECTIVE
  else if isin pos_str [u "助数詞可能"] then PartOfSpeechSection.POSSIBLE_COUNTER_WORD
  else if isin pos_str [u "サ変可能"] then PartOfSpeechSection.POSSIBLE_SURU
  else if isin pos_str [u "準体助詞"] then PartOfSpeechSection.JUNTAIJOUSHI
  else if isin pos_str [u "形状詞可能"] then PartOfSpeechSection.POSSIBLE_NA_ADJECTIVE
  else if isin pos_str [u "動詞的"] then PartOfSpeechSection.VERB_LIKE
  else if isin pos_str [u "サ変形状詞可能"] then PartOfSpeechSection.POSSIBLE_VERB_SURU_NOUN
  else if isin pos_str [u "形容詞的"] then PartOfSpeechSection.ADJECTIVAL
  else if isin pos_str [u "名"; u "company"; u "given"; u "place"; u "person";
       u "product"; u "ship"; u "surname"; u "unclass"; u "name-fem"; u "name-masc";
       u "station"; u "group"; u "char"; u "creat"; u "dei"; u "doc"; u "ev";
       u "fem"; u "fict"; u "leg"; u "masc"; u "myth"; u "obj"; u "organization";
       u "oth"; u "relig"; u "serv"; u "work"; u "unc"]
    then PartOfSpeechSection.NAME
  else if isin pos_str [u "文字"] then PartOfSpeechSection.LETTER
  else if isin pos_str [u "形状詞的"] then PartOfSpeechSection.NA_ADJECTIVE_LIKE
  else if isin pos_str [u "地名"] then PartOfSpeechSection.PLACE_NAME
  else if isin pos_str [u "タリ"] then PartOfSpeechSection.TARU_ADJECTIVE
  else PartOfSpeechSection.NONE.

Definition strings_to_parts_of_speech (pos_list : list str) : list PartOfSpeech.t :=
  map to_part_of_speech pos_list.

Definition strings_to_part_of_speech_sections (pos_list : list str)
  : list PartOfSpeechSection.t :=
  map to_part_of_speech_section pos_list.

Definition TAB : N := 9.
Definition COMMA : N := 44.

(** [s.split(sep)] for a one-character [sep] (and [re.split] on that
    character): the pieces between the separators, at least one. *)
Fixpoint split (sep : N) (s : str) : list str :=
  match s with
  | [] => [[]]
  | c :: s' =>
    if decide (c = sep) then [] :: split sep s'
    else match split sep s' with
         | piece :: pieces => (c :: piece) :: pieces
         | [] => [[c]]
         end
  end.

(** [parts[i]] where the length of [parts] has been checked. *)
Definition part (parts : list str) (i : nat) : str := nth i parts [].

Definition with_is_invalid (b : bool) (w : WordInfo) : WordInfo :=
  {| text := text w; part_of_speech := part_of_speech w;
     part_of_speech_section1 := part_of_speech_section1 w;
     part_of_speech_section2 := part_of_speech_section2 w;
     part_of_speech_section3 := part_of_speech_section3 w;
     normalized_form := normalized_form w; dictionary_form := dictionary_form w;
     reading := reading w; is_invalid := b |}.

Definition _init_from_sudachi_line (self : WordInfo) (sudachi_line : str) : WordInfo :=
  let parts := split TAB sudachi_line in
  if decide (length parts < 6)%nat then with_is_invalid true self
  else
    let pos_parts := split COMMA (part parts 1) in
    if decide (length pos_parts < 4)%nat then with_is_invalid true self
    else
      {| text := part parts 0;
         part_of_speech := to_part_of_speech (part pos_parts 0);
         part_of_speech_section1 := to_part_of_speech_section (part pos_parts 1);
         part_of_speech_section2 := to_part_of_speech_section (part pos_parts 2);
         part_of_speech_section3 := to_part_of_speech_section (part pos_parts 3);
         normalized_form := part parts 2;
         dictionary_form := part parts 3;
         reading := part parts 5;
         is_invalid := is_invalid self |}.

(** [WordInfo(line)] for a string. *)
Definition WordInfo_of_line (line : str) : WordInfo :=
  _init_from_sudachi_line WordInfo_new line.

(** [for line in output] of [parse]. *)
Fixpoint lines_loop (output : list str) (word_infos : list WordInfo) : list WordInfo :=
  match output with
  | [] => word_infos
  | line :: rest =>
    if bool_decide (line = u "EOS") then lines_loop rest word_infos
    else
      let wi := WordInfo_of_line line in
      if negb (is_invalid wi) then lines_loop rest (word_infos ++ [wi])
      else lines_loop rest word_infos
  end.

(** The units that [parse] builds from the text that
    [sudachi_interop.process_text] returns. *)
Definition word_infos_of_output (process_text_result : str) : list WordInfo :=
  lines_loop (split 10 process_text_result) [].

End TokenLines.

(** ** The direct dictionary lookup ([parser.py], [_deconjugate_word]) *)

Module DirectLookup.

Import Resolver StringHelpers TokenLines.
Local Open Scope Z_scope.

(** A [JmDictWord] as [_deconjugate_word] reads it: the fields of
    [Score.JmDictWord], and [origin]. *)
Record JmDictEntry := {
  entry_word : Score.JmDictWord;
  entry_origin : Z
}.

Definition entry_id (e : JmDictEntry) : Z := Score.word_id (entry_word e).
Definition entry_readings (e : JmDictEntry) : list str := Score.readings (entry_word e).
Definition entry_parts_of_speech (e : JmDictEntry) : list str :=
  Score.parts_of_speech (entry_word e).

(** [[cand for cand in candidates if cand.word_id not in seen_ids and not
    seen_ids.add(cand.word_id)]] *)
Fixpoint unique_loop (candidates : list JmDictEntry) (seen_ids : gset Z)
  : list JmDictEntry :=
  match candidates with
  | [] => []
  | cand :: rest =>
    if decide (entry_id cand ∈ seen_ids) then unique_loop rest seen_ids
    else cand :: unique_loop rest ({[entry_id cand]} ∪ seen_ids)
  end.

(** [max(matches, key=...)] once the keys are known: the first item with the
    greatest key. *)
Fixpoint max_loop {A} (keyed : list (A * Z)) (best : A * Z) : A :=
  match keyed with
  | [] => best.1
  | item :: rest =>
    if best.2 <? item.2 then max_loop rest item else max_loop rest best
  end.

(** [l.index(x)], for an [x] that is in [l]; [None] stands for the
    [ValueError] otherwise. *)
Fixpoint list_index (l : list str) (x : str) : option nat :=
  match l with
  | [] => None
  | y :: l' => if decide (y = x) then Some 0%nat else S <$> list_index l' x
  end.

Section deconjugate_word.

(** [Parser._jmdict.lookup], the functions of the kana library, and the
    built-ins, taken as given. *)
Variable lookup : str -> list JmDictEntry.
Variable to_hiragana : str -> str.
Variable is_japanese : str -> bool.
Variable is_kana : str -> bool.
Variable isdigit : str -> bool.
Variable py_int : str -> result Z.
Variable py_round_div10 : Z -> result Z.

(** The candidates of [_deconjugate_word], without repeated ids. *)
Definition unique_candidates (t : str) : list JmDictEntry :=
  let candidates := lookup t in
  let text_in_hiragana := to_hiragana t in
  let candidates :=
    if negb (is_japanese t) || negb (bool_decide (t = text_in_hiragana))
    then candidates ++ lookup text_in_hiragana
    else candidates in
  unique_loop candidates ∅.

(** [[w for w in unique_candidates if word_info.part_of_speech in
    strings_to_parts_of_speech(w.parts_of_speech)]] *)
Definition matches_of (word_info : Morph.WordInfo) (unique : list JmDictEntry)
  : list JmDictEntry :=
  List.filter
    (fun w => Morph.isin (Morph.part_of_speech word_info)
                (strings_to_parts_of_speech (entry_parts_of_speech w)))
    unique.

Definition score (word_info : Morph.WordInfo) (m : JmDictEntry) : result Z :=
  Score.get_priority_score py_int py_round_div10 (entry_word m)
    (is_kana (Morph.text word_info)).

(** The choice of [best_match]. *)
Definition best_match_of (word_info : Morph.WordInfo) (unique : list JmDictEntry)
  : result JmDictEntry :=
  match matches_of word_info unique with
  | [] => index unique 0
  | [m] => Ok m
  | m :: rest =>
    k ← score word_info m;
    keyed ← Deconj.mapM (fun x => k' ← score word_info x; Ok (x, k')) rest;
    Ok (max_loop keyed (m, k))
  end.

(** [not best_match]: [JmDictWord] is a dataclass that defines neither
    [__bool__] nor [__len__], so an instance is true. *)
Definition is_false (best_match : JmDictEntry) : bool := false.

(** The two searches for [reading_index]; [None] is -1. *)
Definition reading_index_of (t : str) (best_match : JmDictEntry) : option nat :=
  match (if Score.mem t (entry_readings best_match)
         then list_index (entry_readings best_match) t else None) with
  | Some i => Some i
  | None =>
    let hiragana_readings := map to_hiragana (entry_readings best_match) in
    if Score.mem (to_hiragana t) hiragana_readings
    then list_index hiragana_readings (to_hiragana t) else None
  end.

(** [DeckWord(word_id=..., original_text=..., reading_index=...,
    parts_of_speech=..., origin=...)]: the two lists are new objects. *)
Definition new_DeckWord (s : state) (word_id : Z) (original_text : str)
    (reading_index : Z) (parts_of_speech : list PartOfSpeech.t) (origin : Z)
  : ref * state :=
  let '(ps, h) := alloc (objects s) (OPosList parts_of_speech) in
  let '(cs, h) := alloc h (OStrList []) in
  let '(word, h) :=
    alloc h (ODeckWord {| word_id := word_id; original_text := original_text;
                          reading_index := reading_index; occurrences := 0;
                          conjugations := cs; parts_of_speech := ps;
                          origin := origin |}) in
  (word, {| objects := h; _deck_word_cache_store := _deck_word_cache_store s |}).

Definition _deconjugate_word (word_info : Morph.WordInfo) (s : state)
  : result ((bool * option ref) * state) :=
  let t := Morph.text word_info in
  if isdigit (to_half_width_digits t)
     || (bool_decide (length t = 1%nat) && is_ascii_or_full_width_letter t)
  then Ok ((false, None), s)
  else
    let unique := unique_candidates t in
    if is_empty unique then Ok ((false, None), s)
    else
      best_match ← best_match_of word_info unique;
      if is_false best_match then Ok ((true, None), s)
      else
        match reading_index_of t best_match with
        | None => Ok ((false, None), s)
        | Some reading_index =>
          let '(word, s) :=
            new_DeckWord s (entry_id best_match) t (Z.of_nat reading_index)
              (strings_to_parts_of_speech (entry_parts_of_speech best_match))
              (entry_origin best_match) in
          Ok ((true, Some word), s)
        end.

End deconjugate_word.

End DirectLookup.

(** * Properties *)

(** ** Priority scores *)

Module ScoreProps.

Import Score.
Local Open Scope Z_scope.

Definition result_map {A B} (f : A -> B) (r : result A) : result B :=
  match r with
  | Ok a => Ok (f a)
  | Raise e => Raise e
  end.

(** A frequent word usually written in kana: its only priority tag is
    [ichi1], and it carries [uk] among its part-of-speech codes. *)
Definition ichi1_uk_entry : JmDictWord :=
  {| word_id := 1; readings := [u "これ"]; parts_of_speech := [u "pn"; u "uk"];
     priorities := Some [u "ichi1"] |}.

(** The same kind of entry with no priority tag at all. *)
Definition untagged_uk_entry : JmDictWord :=
  {| word_id := 2; readings := [u "それ"]; parts_of_speech := [u "pn"; u "uk"];
     priorities := Some [] |}.

Definition ichi1_entry : JmDictWord :=
  {| word_id := 3; readings := [u "秋"]; parts_of_speech := [u "n"];
     priorities := Some [u "ichi1"] |}.

Definition nf_entry : JmDictWord :=
  {| word_id := 4; readings := [u "秋"]; parts_of_speech := [u "n"];
     priorities := Some [u "nf15"; u "news2"] |}.

Example nf_entry_score :
  get_priority_score int_of_digits round_half_even_div10 nf_entry false = Ok 13.
Proof. reflexivity. Qed.

Section with_builtins.

Variable py_int : str -> result Z.
Variable py_round_div10 : Z -> result Z.

Abbreviation score := (get_priority_score py_int py_round_div10).

(** The score is a base computed from the priority tags alone, then moved
    by the [uk] adjustment. *)
Lemma score_uk_split (w : JmDictWord) (p : str) (ps : list str) :
  priorities w = Some (p :: ps) ->
  mem s_uk (parts_of_speech w) = true ->
  exists base : result Z,
    score w true = result_map (fun s => s + 10) base
    /\ score w false = result_map (fun s => s - 10) base.
Proof.
  intros Hp Huk. unfold get_priority_score. rewrite Hp, Huk.
  match goal with
  | |- context [mbind _ ?m] => destruct m as [s|e]
  end.
  - eexists (Ok _). split; reflexivity.
  - exists (Raise e). split; reflexivity.
Qed.

Lemma score_no_uk (w : JmDictWord) (k : bool) (t : str) :
  priorities w = Some [t] ->
  mem s_uk (parts_of_speech w) = false ->
  startswith t s_nf = false ->
  score w k =
    Ok (let s := (if mem s_jiten [t] then 100 else 0)
                 + (if mem s_ichi1 [t] then 20 else 0)
                 + (if mem s_ichi2 [t] then 10 else 0)
                 + (if mem s_news1 [t] then 15 else 0)
                 + (if mem s_news2 [t] then 10 else 0)
                 + (if mem s_gai1 [t] || mem s_gai2 [t] then 5 else 0) in
        if s =? 0
        then (if mem s_spec1 [t] then 15 else 0) + (if mem s_spec2 [t] then 5 else 0)
        else s).
Proof.
  intros Hp Huk Hnf. unfold get_priority_score. rewrite Hp, Huk. simpl first_nf.
  rewrite Hnf. cbn [mbind result_bind].
  repeat match goal with
         | |- context [mem ?a ?b] => destruct (mem a b)
         end; reflexivity.
Qed.

End with_builtins.

(** C10: an entry whose priority-tag list is empty (or absent) scores 0 for a
    phonetic and for a graphemic query surface, whatever its part-of-speech
    codes are, [uk] included: the function returns before the kana
    adjustment. *)
Theorem empty_priorities_score_zero (py_int : str -> result Z)
    (py_round_div10 : Z -> result Z) (w : JmDictWord) :
  priorities w = None \/ priorities w = Some [] ->
  get_priority_score py_int py_round_div10 w true = Ok 0
  /\ get_priority_score py_int py_round_div10 w false = Ok 0.
Proof.
  intros [H | H]; unfold get_priority_score; rewrite H; split; reflexivity.
Qed.

Lemma empty_priorities_score_zero_witness :
  mem s_uk (parts_of_speech untagged_uk_entry) = true
  /\ get_priority_score int_of_digits round_half_even_div10 untagged_uk_entry true = Ok 0
  /\ get_priority_score int_of_digits round_half_even_div10 untagged_uk_entry false = Ok 0.
Proof.
  split; [reflexivity |].
  apply (empty_priorities_score_zero int_of_digits round_half_even_div10
           untagged_uk_entry).
  right. reflexivity.
Defined.

(** C4, as stated, fails: for the [uk]-tagged entry whose only priority tag
    is [ichi1] the phonetic score is 30 and the graphemic score is 10, which
    are 20 apart, and neither is 20. *)
Lemma uk_gap_is_not_10 :
  mem s_uk (parts_of_speech ichi1_uk_entry) = true
  /\ priorities ichi1_uk_entry = Some [s_ichi1]
  /\ get_priority_score int_of_digits round_half_even_div10 ichi1_uk_entry true = Ok 30
  /\ get_priority_score int_of_digits round_half_even_div10 ichi1_uk_entry false = Ok 10
  /\ 30 <> 10 + 10.
Proof. repeat split. lia. Qed.

(** C4, amended: for an entry tagged [uk] with at least one priority tag, the
    score for a phonetic query surface is exactly 20 above the score for a
    graphemic one (+10 against -10), and one raises exactly when the other
    does; an entry not tagged [uk] whose only priority tag is [ichi1] scores
    20, and one whose only priority tag is [news2] scores 10. *)
Theorem uk_gap_is_20 (py_int : str -> result Z) (py_round_div10 : Z -> result Z) :
  (forall (w : JmDictWord) (p : str) (ps : list str),
      priorities w = Some (p :: ps) ->
      mem s_uk (parts_of_speech w) = true ->
      get_priority_score py_int py_round_div10 w true
      = result_map (fun s => s + 20) (get_priority_score py_int py_round_div10 w false))
  /\ (forall (w : JmDictWord) (k : bool),
        mem s_uk (parts_of_speech w) = false ->
        (priorities w = Some [s_ichi1] ->
         get_priority_score py_int py_round_div10 w k = Ok 20)
        /\ (priorities w = Some [s_news2] ->
            get_priority_score py_int py_round_div10 w k = Ok 10)).
Proof.
  split.
  - intros w p ps Hp Huk.
    destruct (score_uk_split py_int py_round_div10 w p ps Hp Huk)
      as [[s|e] [Ht Hf]]; rewrite Ht, Hf; simpl; [f_equal; lia | reflexivity].
  - intros w k Huk. split; intros Hp.
    + rewrite (score_no_uk py_int py_round_div10 w k s_ichi1 Hp Huk); reflexivity.
    + rewrite (score_no_uk py_int py_round_div10 w k s_news2 Hp Huk); reflexivity.
Qed.

Lemma uk_gap_is_20_witness :
  get_priority_score int_of_digits round_half_even_div10 ichi1_uk_entry true
  = result_map (fun s => s + 20)
      (get_priority_score int_of_digits round_half_even_div10 ichi1_uk_entry false)
  /\ get_priority_score int_of_digits round_half_even_div10 ichi1_entry true = Ok 20.
Proof.
  destruct (uk_gap_is_20 int_of_digits round_half_even_div10) as [Hgap Hplain].
  split.
  - apply (Hgap ichi1_uk_entry s_ichi1 []); reflexivity.
  - apply (Hplain ichi1_entry true); reflexivity.
Defined.

End ScoreProps.

(** ** The deconjugation engine *)

Module DeconjProps.

Import Deconj.

(** What every form handled by one [deconjugate t] call satisfies: it is the
    initial form, or it descends from it and has both [t] and its own text
    among the texts seen. *)
Definition form_ok (t : str) (f : DeconjugationForm) : Prop :=
  f = _create_initial_form t
  \/ (original_text f = t /\ t ∈ seen_text f /\ text f ∈ seen_text f).

Definition forms_ok (t : str) (s : gset DeconjugationForm) : Prop :=
  forall f, f ∈ s -> form_ok t f.

Lemma form_ok_original t f : form_ok t f -> original_text f = t.
Proof. intros [-> | [H _]]; [reflexivity | exact H]. Qed.

Lemma create_new_form_ok t form new_text ct dt d :
  form_ok t form -> form_ok t (_create_new_form form new_text ct dt d).
Proof.
  intros H. right. unfold _create_new_form; simpl.
  split; [by apply form_ok_original |].
  destruct H as [-> | (Ho & Ht & Hs)]; simpl.
  - rewrite decide_True by reflexivity. set_solver.
  - case_decide; set_solver.
Qed.

Lemma create_substitution_form_ok t form new_text d :
  form_ok t form -> form_ok t (_create_substitution_form form new_text d).
Proof.
  intros H. right. unfold _create_substitution_form; simpl.
  split; [by apply form_ok_original |].
  destruct H as [-> | (Ho & Ht & Hs)]; simpl.
  - rewrite decide_True by reflexivity. set_solver.
  - case_decide; set_solver.
Qed.

(** A hit of the core standard step is a new form over a text that differs
    from the original input text. *)
Lemma std_inner_hit form vr f' :
  _std_rule_deconjugate_inner form vr = Some f' ->
  exists new_text,
    new_text <> original_text form
    /\ f' = _create_new_form form new_text (v_con_tag vr) (v_dec_tag vr) (v_detail vr).
Proof.
  unfold _std_rule_deconjugate_inner. intros H.
  repeat case_match; simplify_eq. eauto.
Qed.

Lemma std_inner_text form vr f' :
  _std_rule_deconjugate_inner form vr = Some f' -> text f' <> original_text form.
Proof. intros (nt & Hne & ->)%std_inner_hit. exact Hne. Qed.

Lemma std_inner_ok t form vr f' :
  form_ok t form -> _std_rule_deconjugate_inner form vr = Some f' -> form_ok t f'.
Proof. intros Hok (nt & _ & ->)%std_inner_hit. by apply create_new_form_ok. Qed.

Lemma collect_hits_elem form vrs f' :
  f' ∈ collect_hits form vrs ->
  exists vr, vr ∈ vrs /\ _std_rule_deconjugate_inner form vr = Some f'.
Proof.
  unfold collect_hits.
  assert (Hgen : forall acc : gset DeconjugationForm,
    f' ∈ foldl (fun collection virtual_rule =>
                  match _std_rule_deconjugate_inner form virtual_rule with
                  | Some hit => {[hit]} ∪ collection
                  | None => collection
                  end) acc vrs ->
    f' ∈ acc \/ exists vr, vr ∈ vrs /\ _std_rule_deconjugate_inner form vr = Some f').
  { induction vrs as [|vr vrs IH]; intros acc; simpl; [by left |].
    intros [Hacc | (vr' & Hin & Hhit)]%IH.
    - destruct (_std_rule_deconjugate_inner form vr) as [hit|] eqn:E.
      + apply elem_of_union in Hacc as [->%elem_of_singleton | Hacc].
        * right. exists vr. split; [left | exact E].
        * by left.
      + by left.
    - right. exists vr'. split; [by right | exact Hhit]. }
  intros [Hempty | H]%Hgen; [set_solver | exact H].
Qed.

(** Every form produced by [_std_rule_deconjugate] is a hit of the core
    step for some virtual rule. *)
Lemma std_rule_elem self form rule i s f' :
  _std_rule_deconjugate self form rule i = Ok (Some s) -> f' ∈ s ->
  exists vr, _std_rule_deconjugate_inner form vr = Some f'.
Proof.
  unfold _std_rule_deconjugate. intros H Hin.
  destruct (is_empty (detail rule) && is_empty (tags form)); [discriminate |].
  case_decide.
  - destruct (index (dec_end rule) 0) as [de|]; [|discriminate].
    destruct (index (con_end rule) 0) as [ce|]; [|discriminate].
    simpl in H.
    match type of H with
    | context [_std_rule_deconjugate_inner form ?v] =>
      destruct (_std_rule_deconjugate_inner form v) as [hit|] eqn:E
    end; simplify_eq.
    apply elem_of_singleton in Hin as ->. eauto.
  - destruct (_virtual_rules_cache self !! i) as [[|vr vrs]|]; simplify_eq.
    unfold nonempty_or_none in H. case_decide; simplify_eq.
    apply collect_hits_elem in Hin as (vr' & _ & Hhit). eauto.
Qed.

Lemma substitution_inner_ok t form ce de d f' :
  form_ok t form -> _substitution_inner form ce de d = Some f' -> form_ok t f'.
Proof.
  unfold _substitution_inner. intros Hok H. case_match; simplify_eq.
  by apply create_substitution_form_ok.
Qed.

Lemma substitution_loop_ok t form rule idx acc s :
  form_ok t form -> forms_ok t acc ->
  substitution_loop form rule idx acc = Ok s -> forms_ok t s.
Proof.
  intros Hok. revert acc. induction idx as [|i idx IH]; intros acc Hacc; simpl.
  - intros [= <-]. exact Hacc.
  - destruct (index_or_first (dec_end rule) i) as [de|]; [|discriminate].
    destruct (index_or_first (con_end rule) i) as [ce|]; [|discriminate].
    simpl. apply IH.
    destruct (_substitution_inner form ce de (detail rule)) as [ret|] eqn:E;
      [|exact Hacc].
    intros f [->%elem_of_singleton | Hf]%elem_of_union; [|by apply Hacc].
    eapply substitution_inner_ok; eauto.
Qed.

Lemma substitution_ok t form rule s :
  form_ok t form -> _substitution_deconjugate form rule = Ok (Some s) -> forms_ok t s.
Proof.
  unfold _substitution_deconjugate. intros Hok H.
  destruct (negb (is_empty (process form)) || is_empty (text form)); [discriminate |].
  case_decide.
  - destruct (index (con_end rule) 0) as [ce|]; [|discriminate].
    destruct (index (dec_end rule) 0) as [de|]; [|discriminate].
    simpl in H.
    destruct (_substitution_inner form ce de (detail rule)) as [hit|] eqn:E;
      simplify_eq.
    intros f ->%elem_of_singleton. eapply substitution_inner_ok; eauto.
  - destruct (substitution_loop form rule _ ∅) as [c|] eqn:E; [|discriminate].
    simpl in H. unfold nonempty_or_none in H. case_decide; simplify_eq.
    eapply substitution_loop_ok; eauto. intros f Hf. set_solver.
Qed.

(** The five rule kinds that go through [_std_rule_deconjugate]. *)
Lemma apply_rule_std_or_substitution self form rule i s :
  _apply_rule self form rule i = Ok (Some s) ->
  (type rule <> s_substitution
   /\ _std_rule_deconjugate self form rule i = Ok (Some s))
  \/ (type rule = s_substitution
      /\ _substitution_deconjugate form rule = Ok (Some s)).
Proof.
  unfold _apply_rule. intros H.
  repeat case_decide;
    try (left; split;
         [unfold s_stdrule, s_rewriterule, s_onlyfinalrule, s_neverfinalrule,
            s_contextrule, s_substitution in *; congruence |]).
  - exact H.
  - unfold _rewrite_rule_deconjugate in H.
    destruct (index (con_end rule) 0); [|discriminate]. simpl in H.
    case_decide; [exact H | discriminate].
  - unfold _only_final_rule_deconjugate in H.
    destruct (is_empty (tags form)); [exact H | discriminate].
  - unfold _never_final_rule_deconjugate in H.
    destruct (negb (is_empty (tags form))); [exact H | discriminate].
  - unfold _context_rule_deconjugate in H.
    destruct (bool_decide (context_rule rule = Some s_v1inftrap)
              && negb (_v1_inf_trap_check form)); [discriminate |].
    match type of H with
    | mbind _ ?m = _ => destruct m as [[|]|]
    end; simpl in H; simplify_eq. exact H.
  - right. split; [assumption | exact H].
  - discriminate.
Qed.

Lemma apply_rule_ok t self form rule i s :
  form_ok t form -> _apply_rule self form rule i = Ok (Some s) -> forms_ok t s.
Proof.
  intros Hok [[_ H] | [_ H]]%apply_rule_std_or_substitution.
  - intros f Hf. destruct (std_rule_elem _ _ _ _ _ _ H Hf) as [vr Hhit].
    eapply std_inner_ok; eauto.
  - eapply substitution_ok; eauto.
Qed.

Lemma add_if_new_ok t processed novel new_novel f :
  forms_ok t new_novel -> form_ok t f ->
  forms_ok t (add_if_new processed novel new_novel f).
Proof.
  intros Hnn Hf. unfold add_if_new. case_match; [|exact Hnn].
  intros g [->%elem_of_singleton | Hg]%elem_of_union; [exact Hf | by apply Hnn].
Qed.

Lemma foldl_add_if_new_ok t processed novel fs new_novel :
  forms_ok t new_novel -> Forall (form_ok t) fs ->
  forms_ok t (foldl (add_if_new processed novel) new_novel fs).
Proof.
  intros Hnn Hfs. revert new_novel Hnn.
  induction Hfs as [|f fs Hf _ IH]; intros nn Hnn; simpl; [exact Hnn |].
  apply IH. by apply add_if_new_ok.
Qed.

Lemma rules_loop_ok t self processed novel form rs i new_novel r :
  form_ok t form -> forms_ok t new_novel ->
  rules_loop self processed novel form rs i new_novel = Ok r -> forms_ok t r.
Proof.
  intros Hform. revert i new_novel.
  induction rs as [|rule rs IH]; intros i nn Hnn; simpl.
  - intros [= <-]. exact Hnn.
  - destruct (_apply_rule self form rule i) as [new_forms|] eqn:E; [|discriminate].
    simpl. apply IH. destruct new_forms as [fs|]; [|exact Hnn].
    apply foldl_add_if_new_ok; [exact Hnn |].
    apply Forall_forall. intros f Hf%elem_of_elements.
    eapply apply_rule_ok; eauto.
Qed.

Lemma forms_loop_ok t self processed novel fs new_novel r :
  Forall (form_ok t) fs -> forms_ok t new_novel ->
  forms_loop self processed novel fs new_novel = Ok r -> forms_ok t r.
Proof.
  intros Hfs. revert new_novel.
  induction Hfs as [|form fs Hform _ IH]; intros nn Hnn; simpl.
  - intros [= <-]. exact Hnn.
  - destruct (_should_skip_form form); [by apply IH |].
    destruct (rules_loop self processed novel form (rules self) 0 nn) as [nn'|] eqn:E;
      [|discriminate].
    simpl. apply IH. eapply rules_loop_ok; eauto.
Qed.

Lemma forms_ok_union t a b : forms_ok t a -> forms_ok t b -> forms_ok t (a ∪ b).
Proof. intros Ha Hb f [?|?]%elem_of_union; auto. Qed.

(** The loop keeps [form_ok], and nothing leaves [processed] or the
    frontier: both end up in the returned set. *)
Lemma while_novel_ok t fuel self processed novel r :
  forms_ok t processed -> forms_ok t novel ->
  while_novel fuel self processed novel = Some (Ok r) ->
  forms_ok t r /\ processed ∪ novel ⊆ r.
Proof.
  revert processed novel.
  induction fuel as [|fuel IH]; intros processed novel Hp Hn; simpl.
  - case_decide; [|discriminate]. intros [= <-]. split; [exact Hp | set_solver].
  - case_decide; [intros [= <-]; split; [exact Hp | set_solver] |].
    destruct (forms_loop self processed novel (elements novel) ∅) as [nn|] eqn:E;
      [|discriminate].
    intros Hw. apply IH in Hw as [Hr Hsub].
    + split; [exact Hr | set_solver].
    + by apply forms_ok_union.
    + eapply forms_loop_ok; [| |exact E].
      * apply Forall_forall. intros f Hf%elem_of_elements. by apply Hn.
      * intros f Hf. set_solver.
Qed.

(** The class-level memo as calls leave it: it starts empty, and every call
    (of any instance, with any setting of [USE_CACHE]) hands on the memo it
    returns. *)
Inductive cache_reachable : gmap str (gset DeconjugationForm) -> Prop :=
| cache_initial : cache_reachable empty_cache
| cache_after_call fuel USE_CACHE self cache t r cache' :
    cache_reachable cache ->
    deconjugate fuel USE_CACHE self cache t = Some (Ok (r, cache')) ->
    cache_reachable cache'.

Definition cache_ok (cache : gmap str (gset DeconjugationForm)) : Prop :=
  cache !! ([] : str) = None
  /\ forall t s, cache !! t = Some s ->
       forms_ok t s /\ _create_initial_form t ∈ s.

Lemma cache_ok_insert cache (t : str) s :
  cache_ok cache -> t <> [] -> forms_ok t s -> _create_initial_form t ∈ s ->
  cache_ok (<[t := s]> cache).
Proof.
  intros [Hnil Hc] Ht Hs Hinit. split.
  - by rewrite lookup_insert_ne.
  - intros t2 s2. destruct (decide (t = t2)) as [<- | Hne].
    + rewrite lookup_insert_eq. intros [= <-]. by split.
    + rewrite lookup_insert_ne by exact Hne. apply Hc.
Qed.

Lemma deconjugate_ok fuel USE_CACHE self cache t r cache' :
  cache_ok cache ->
  deconjugate fuel USE_CACHE self cache t = Some (Ok (r, cache')) ->
  cache_ok cache'
  /\ forms_ok t r
  /\ (t <> [] -> _create_initial_form t ∈ r)
  /\ (t = [] -> r = ∅ /\ cache' = cache).
Proof.
  intros Hcache. pose proof Hcache as [Hnil Hc]. unfold deconjugate.
  destruct (if USE_CACHE then cache !! t else None) as [cached|] eqn:Hhit.
  - intros [= <- <-]. destruct USE_CACHE; [|discriminate].
    destruct (Hc _ _ Hhit) as [Hok Hinit].
    split_and!; [exact Hcache | exact Hok | by intros _ | intros ->; congruence].
  - destruct t as [|c t']; simpl.
    + intros [= <- <-].
      split_and!; [exact Hcache | intros f Hf; set_solver | done | done].
    + destruct (while_novel fuel self ∅ {[_create_initial_form (c :: t')]})
        as [[processed|]|] eqn:E; try discriminate.
      intros [= <- <-].
      apply (while_novel_ok (c :: t')) in E as [Hr Hsub];
        [| intros f Hf; set_solver | intros f ->%elem_of_singleton; by left].
      assert (Hinit : _create_initial_form (c :: t') ∈ processed) by set_solver.
      split_and!; [| exact Hr | by intros _ | discriminate].
      match goal with
      | |- context [if ?b then _ else _] => destruct b
      end; [|exact Hcache].
      by apply cache_ok_insert.
Qed.

Lemma cache_reachable_ok cache : cache_reachable cache -> cache_ok cache.
Proof.
  induction 1 as [|fuel uc self cache t r cache' _ IH Hcall].
  - unfold empty_cache. split; [apply lookup_empty |].
    intros t s. by rewrite lookup_empty.
  - by destruct (deconjugate_ok _ _ _ _ _ _ _ IH Hcall) as [? _].
Qed.

(** *** Example rule tables *)

Definition std_rule (con dec : str) (ct dt : option (list str)) (d : str)
  : DeconjugationRule :=
  {| type := s_stdrule; detail := d; dec_end := [dec]; con_end := [con];
     context_rule := None; dec_tag := dt; con_tag := ct |}.

(** Undoes the past ending, leaving a stem. *)
Definition rule_past : DeconjugationRule :=
  std_rule (u "た") [] None (Some [u "stem-ren-less"]) (u "past").

(** Re-tags a stem without touching its text; the blank detail keeps it from
    being the first rule applied. *)
Definition rule_retag : DeconjugationRule :=
  std_rule [] [] (Some [u "stem-ren-less"]) (Some [u "stem-ren"]) [].

(** Puts the dictionary ending back on a stem. *)
Definition rule_ichidan : DeconjugationRule :=
  std_rule [] (u "る") (Some [u "stem-ren"]) (Some [u "v1"]) (u "(infinitive)").

(** A substitution whose two sides are the same text. *)
Definition rule_identity_substitution : DeconjugationRule :=
  {| type := s_substitution; detail := u "same"; dec_end := [u "ー"];
     con_end := [u "ー"]; context_rule := None; dec_tag := None; con_tag := None |}.

Definition no_rules : Deconjugator := {| rules := []; _virtual_rules_cache := ∅ |}.

Definition retagging : Deconjugator :=
  {| rules := [rule_past; rule_retag]; _virtual_rules_cache := ∅ |}.

Definition ichidan : Deconjugator :=
  {| rules := [rule_past; rule_retag; rule_ichidan]; _virtual_rules_cache := ∅ |}.

Definition identity_substitution : Deconjugator :=
  {| rules := [rule_identity_substitution]; _virtual_rules_cache := ∅ |}.

Example init_retagging : __init__ [rule_past; rule_retag] = Ok retagging.
Proof. reflexivity. Qed.

(** The forms reached from 食べた by [retagging]. *)
Definition tabeta_0 : DeconjugationForm := _create_initial_form (u "食べた").
Definition tabeta_1 : DeconjugationForm :=
  _create_new_form tabeta_0 (u "食べ") None (Some (u "stem-ren-less")) (u "past").
Definition tabeta_2 : DeconjugationForm :=
  _create_new_form tabeta_1 (u "食べ") (Some (u "stem-ren-less"))
    (Some (u "stem-ren")) [].

(** The form from which 食べる is read off, reached with [ichidan]. *)
Definition tabeta_3 : DeconjugationForm :=
  _create_new_form tabeta_2 (u "食べる") (Some (u "stem-ren")) (Some (u "v1"))
    (u "(infinitive)").

Definition tabeta_result : gset DeconjugationForm :=
  match deconjugate 4 false ichidan empty_cache (u "食べた") with
  | Some (Ok (r, _)) => r
  | _ => ∅
  end.

Example deconjugate_tabeta_ichidan :
  tabeta_3 ∈ tabeta_result /\ text tabeta_3 = u "食べる".
Proof. split; [compute_done | reflexivity]. Qed.

(** C1, as stated, fails. In the run of [deconjugate] on 食べた with the
    rules [rule_past] and [rule_retag], the form [tabeta_1] (text 食べ) is
    processed and [rule_retag] fires on it, yielding [tabeta_2], whose text
    is again 食べ. And on the initial form of ー the substitution of ー by ー
    fires and yields a form with the text ー. *)
Lemma rule_firing_keeps_text :
  (deconjugate 3 false retagging empty_cache (u "食べた")
   = Some (Ok ({[tabeta_0; tabeta_1; tabeta_2]}, empty_cache))
   /\ _apply_rule retagging tabeta_1 rule_retag 1 = Ok (Some {[tabeta_2]})
   /\ text tabeta_2 = text tabeta_1)
  /\ (let f0 := _create_initial_form (u "ー") in
      let f1 := _create_substitution_form f0 (u "ー") (u "same") in
      deconjugate 2 false identity_substitution empty_cache (u "ー")
      = Some (Ok ({[f0; f1]}, empty_cache))
      /\ _apply_rule identity_substitution f0 rule_identity_substitution 0
         = Ok (Some {[f1]})
      /\ text f1 = text f0).
Proof.
  split; (split; [compute_done | split; [compute_done | reflexivity]]).
Qed.

(** *** Which firings change the text *)

Section firing_text.

Local Open Scope nat_scope.

Lemma startswith_split (p : str) : forall s,
  startswith s p = true -> s = p ++ drop (length p) s.
Proof.
  induction p as [|c p IH]; intros s; [reflexivity |].
  destruct s as [|d s]; cbn [startswith]; [discriminate |].
  destruct (decide (c = d)) as [<- |]; [|discriminate].
  intros H. cbn. f_equal. by apply IH.
Qed.

Lemma endswith_split (s p : str) :
  endswith s p = true -> s = take (length s - length p) s ++ p.
Proof.
  unfold endswith. intros H%startswith_split.
  assert (Hs : s = rev (drop (length (rev p)) (rev s)) ++ p).
  { rewrite <- (rev_involutive s) at 1. rewrite H at 1.
    by rewrite rev_app_distr, rev_involutive. }
  revert Hs. generalize (rev (drop (length (rev p)) (rev s))). intros a ->.
  by rewrite length_app, Nat.add_sub, take_app_length.
Qed.

(** The core standard step keeps the text exactly when the two endings of the
    virtual rule are equal. *)
Lemma std_inner_changes_text form vr f' :
  _std_rule_deconjugate_inner form vr = Some f' ->
  text f' = text form <-> v_dec_end vr = v_con_end vr.
Proof.
  unfold _std_rule_deconjugate_inner. intros H.
  destruct (endswith (text form) (v_con_end vr)) eqn:Hend; [|discriminate].
  cbn [negb] in H. repeat case_match; simplify_eq.
  cbn [_create_new_form text]. unfold slice_to.
  apply endswith_split in Hend. split.
  - intros Heq. rewrite Hend in Heq at 3. by apply app_inv_head in Heq.
  - intros ->. by rewrite <- Hend.
Qed.

Lemma replace_empty_length (new : str) : forall s,
  length (replace_empty s new) = length s + (length s + 1) * length new.
Proof.
  induction s as [|c s IH]; cbn [replace_empty length]; [lia |].
  rewrite length_app. cbn [length]. rewrite IH. lia.
Qed.

Lemma replace_ne_same (old : str) fuel : forall s,
  replace_ne fuel s old old = s.
Proof.
  induction fuel as [|fuel IH]; intros s; cbn [replace_ne]; [reflexivity |].
  destruct s as [|c s']; [reflexivity |].
  destruct (startswith (c :: s') old) eqn:E.
  - rewrite IH. symmetry. by apply startswith_split.
  - by rewrite IH.
Qed.

Lemma replace_ne_grows (old new : str) fuel : forall s,
  length old <= length new -> length s <= length (replace_ne fuel s old new).
Proof.
  induction fuel as [|fuel IH]; intros s Hlen; cbn [replace_ne]; [done |].
  destruct s as [|c s']; [done |].
  destruct (startswith (c :: s') old) eqn:E.
  - rewrite length_app. specialize (IH (drop (length old) (c :: s')) Hlen).
    rewrite length_drop in IH. lia.
  - cbn [length]. specialize (IH s' Hlen). lia.
Qed.

Lemma replace_ne_shrinks (old new : str) fuel : forall s,
  length new <= length old -> length (replace_ne fuel s old new) <= length s.
Proof.
  induction fuel as [|fuel IH]; intros s Hlen; cbn [replace_ne]; [done |].
  destruct s as [|c s']; [done |].
  destruct (startswith (c :: s') old) eqn:E.
  - rewrite length_app. specialize (IH (drop (length old) (c :: s')) Hlen).
    rewrite length_drop in IH.
    apply startswith_split in E. apply (f_equal length) in E.
    rewrite length_app, length_drop in E. lia.
  - cbn [length]. specialize (IH s' Hlen). lia.
Qed.

Lemma find_from_nil (old : str) pos : old <> [] -> find_from [] old pos = None.
Proof. by destruct old. Qed.

(** Replacing a text that occurs by another text changes the string. *)
Lemma replace_ne_fixed (old new : str) fuel : forall s pos i,
  old <> [] -> length s <= fuel -> find_from s old pos = Some i ->
  replace_ne fuel s old new = s -> new = old.
Proof.
  induction fuel as [|fuel IH]; intros s pos i Hold Hfuel Hfind Hrep.
  - destruct s; [|cbn in Hfuel; lia]. by rewrite find_from_nil in Hfind.
  - destruct s as [|c s']; [by rewrite find_from_nil in Hfind |].
    cbn [replace_ne] in Hrep. cbn [find_from] in Hfind.
    destruct (startswith (c :: s') old) eqn:E.
    + apply startswith_split in E.
      pose proof (replace_ne_grows old new fuel (drop (length old) (c :: s'))) as Hg.
      pose proof (replace_ne_shrinks old new fuel (drop (length old) (c :: s'))) as Hs.
      rewrite E in Hrep at 2.
      destruct (decide (length new = length old)) as [Hl | Hl].
      * by apply app_inj_1 in Hrep as [-> _].
      * apply (f_equal length) in Hrep. rewrite !length_app in Hrep. lia.
    + injection Hrep as Hrep. cbn [length] in Hfuel.
      eapply (IH s'); [exact Hold | lia | exact Hfind | exact Hrep].
Qed.

(** [s.replace(old, new)], for an [old] that occurs in [s], gives back [s]
    exactly when [new] is [old]. *)
Lemma replace_same_iff (s old new : str) :
  contains s old = true -> replace s old new = s <-> new = old.
Proof.
  unfold contains, replace. intros Hc.
  destruct (find_from s old 0) as [i|] eqn:Hfind; [|discriminate].
  destruct old as [|o old'].
  - split.
    + intros H. apply (f_equal length) in H. rewrite replace_empty_length in H.
      destruct new; [reflexivity | cbn [length] in H; lia].
    + intros ->. induction s as [|c s IH]; cbn [replace_empty app]; [reflexivity |].
      f_equal. apply IH. by destruct s.
  - split.
    + by eapply replace_ne_fixed.
    + intros ->. apply replace_ne_same.
Qed.

Lemma substitution_inner_changes_text form ce de d f' :
  _substitution_inner form ce de d = Some f' ->
  text f' = text form <-> de = ce.
Proof.
  unfold _substitution_inner.
  destruct (contains (text form) ce) eqn:Hc; [|discriminate].
  cbn [negb]. intros [= <-]. cbn [_create_substitution_form text].
  by apply replace_same_iff.
Qed.

(** The virtual rule behind a hit of [_std_rule_deconjugate]: built from the
    first endings when the rule has one [dec_end], read from the instance's
    table of virtual rules otherwise. *)
Lemma std_rule_hit self form rule i s f' :
  _std_rule_deconjugate self form rule i = Ok (Some s) -> f' ∈ s ->
  exists vr,
    (dec_end rule = [v_dec_end vr] /\ con_end rule !! 0 = Some (v_con_end vr)
     \/ length (dec_end rule) <> 1
        /\ exists vrs, _virtual_rules_cache self !! i = Some vrs /\ vr ∈ vrs)
    /\ _std_rule_deconjugate_inner form vr = Some f'.
Proof.
  unfold _std_rule_deconjugate, index. intros H Hin.
  destruct (is_empty (detail rule) && is_empty (tags form)); [discriminate |].
  case_decide as Hlen.
  - destruct (dec_end rule) as [|de [|? ?]] eqn:Hde; [done | | done].
    cbn [lookup list_lookup mbind result_bind] in H.
    destruct (con_end rule !! 0) as [ce|] eqn:Hce; [|discriminate].
    cbn [mbind result_bind] in H.
    match type of H with
    | context [_std_rule_deconjugate_inner form ?v] =>
      destruct (_std_rule_deconjugate_inner form v) as [hit|] eqn:E; [|discriminate];
      exists v
    end.
    injection H as <-. apply elem_of_singleton in Hin as ->.
    split; [by left | exact E].
  - destruct (_virtual_rules_cache self !! i) as [[|vr0 vrs]|] eqn:Hc; simplify_eq.
    unfold nonempty_or_none in H. case_decide; simplify_eq.
    apply collect_hits_elem in Hin as (vr & Hvr & Hhit).
    exists vr. split; [right; split; [exact Hlen | by eexists] | exact Hhit].
Qed.

Lemma index_or_first_lookup {A} (l : list A) i a :
  index_or_first l i = Ok a ->
  l !! (if decide (i < length l) then i else 0) = Some a.
Proof.
  unfold index_or_first, index. case_decide; destruct (l !! _); by intros [= ->].
Qed.

Lemma substitution_loop_hit form rule idx : forall acc s f',
  substitution_loop form rule idx acc = Ok s -> f' ∈ s ->
  f' ∈ acc
  \/ exists i ce de,
       i ∈ idx
       /\ index_or_first (dec_end rule) i = Ok de
       /\ index_or_first (con_end rule) i = Ok ce
       /\ _substitution_inner form ce de (detail rule) = Some f'.
Proof.
  induction idx as [|i idx IH]; intros acc s f'; cbn [substitution_loop].
  - intros [= <-]. by left.
  - destruct (index_or_first (dec_end rule) i) as [de|] eqn:Hde; [|discriminate].
    destruct (index_or_first (con_end rule) i) as [ce|] eqn:Hce; [|discriminate].
    cbn [mbind result_bind]. intros Hs Hin.
    destruct (IH _ _ _ Hs Hin) as [Hacc | (j & ce' & de' & Hj & H)].
    + destruct (_substitution_inner form ce de (detail rule)) as [ret|] eqn:E;
        [|by left].
      apply elem_of_union in Hacc as [->%elem_of_singleton | Hacc]; [|by left].
      right. exists i, ce, de. split; [by left | done].
    + right. exists j, ce', de'. split; [by right | exact H].
Qed.

(** The pair of endings behind a hit of [_substitution_deconjugate]. *)
Lemma substitution_hit form rule s f' :
  _substitution_deconjugate form rule = Ok (Some s) -> f' ∈ s ->
  exists i ce de,
    dec_end rule !! i = Some de
    /\ con_end rule !! (if decide (i < length (con_end rule)) then i else 0) = Some ce
    /\ _substitution_inner form ce de (detail rule) = Some f'.
Proof.
  unfold _substitution_deconjugate. intros H Hin.
  destruct (negb (is_empty (process form)) || is_empty (text form)); [discriminate |].
  case_decide as Hlen.
  - unfold index in H.
    destruct (con_end rule !! 0) as [ce|] eqn:Hce; [|discriminate].
    destruct (dec_end rule !! 0) as [de|] eqn:Hde; [|discriminate].
    cbn [mbind result_bind] in H.
    destruct (_substitution_inner form ce de (detail rule)) as [hit|] eqn:E;
      simplify_eq.
    apply elem_of_singleton in Hin as ->. exists 0, ce, de.
    split_and!; [exact Hde | by case_decide | exact E].
  - destruct (substitution_loop form rule _ ∅) as [c|] eqn:E; [|discriminate].
    cbn [mbind result_bind] in H. unfold nonempty_or_none in H.
    case_decide; simplify_eq.
    destruct (substitution_loop_hit _ _ _ _ _ _ E Hin)
      as [Hacc | (i & ce & de & Hi & Hde & Hce & Hhit)]; [set_solver |].
    exists i, ce, de. split_and!; [| by apply index_or_first_lookup | exact Hhit].
    apply elem_of_seq in Hi. apply index_or_first_lookup in Hde.
    by rewrite decide_True in Hde by lia.
Qed.

(** C1, amended. A firing yields a form whose text differs from the text of
    the form it was derived from exactly when the two endings it uses differ.
    For a standard, rewrite, only-final, never-final or context rule these
    are the endings of the virtual rule that hits (built from the rule's
    first endings when it has one [dec_end], taken from the instance's table
    of virtual rules otherwise); for a substitution they are the replaced
    text and its replacement. So only a firing with equal endings keeps the
    text. Besides, a form produced by a rule that is not a substitution has a
    text different from the original input text of the call, and every
    produced form keeps the original text of the form it was derived from. *)
Theorem rule_firing_changes_text (self : Deconjugator)
    (form : DeconjugationForm) (rule : DeconjugationRule) (rule_index : nat)
    (s : gset DeconjugationForm) (f' : DeconjugationForm) :
  _apply_rule self form rule rule_index = Ok (Some s) ->
  f' ∈ s ->
  original_text f' = original_text form
  /\ ((type rule <> s_substitution
       /\ text f' <> original_text form
       /\ (text form = original_text form -> text f' <> text form)
       /\ exists vr,
            (dec_end rule = [v_dec_end vr] /\ con_end rule !! 0 = Some (v_con_end vr)
             \/ length (dec_end rule) <> 1
                /\ exists vrs,
                     _virtual_rules_cache self !! rule_index = Some vrs /\ vr ∈ vrs)
            /\ _std_rule_deconjugate_inner form vr = Some f'
            /\ (text f' = text form <-> v_dec_end vr = v_con_end vr))
      \/ (type rule = s_substitution
          /\ exists i ce de,
               dec_end rule !! i = Some de
               /\ con_end rule !! (if decide (i < length (con_end rule)) then i else 0)
                  = Some ce
               /\ _substitution_inner form ce de (detail rule) = Some f'
               /\ (text f' = text form <-> de = ce))).
Proof.
  intros [[Hty H] | [Hty H]]%apply_rule_std_or_substitution Hin.
  - destruct (std_rule_hit _ _ _ _ _ _ H Hin) as (vr & Hvr & Hhit).
    pose proof (std_inner_text _ _ _ Hhit) as Hne.
    pose proof (std_inner_changes_text _ _ _ Hhit) as Hiff.
    split.
    + apply std_inner_hit in Hhit as (nt & _ & ->). reflexivity.
    + left. split_and!; [exact Hty | exact Hne | by intros -> |].
      exists vr. by split_and!.
  - destruct (substitution_hit _ _ _ _ H Hin) as (i & ce & de & Hde & Hce & Hhit).
    pose proof (substitution_inner_changes_text _ _ _ _ _ Hhit) as Hiff.
    split.
    + unfold _substitution_inner in Hhit. case_match; simplify_eq. reflexivity.
    + right. split; [exact Hty |]. exists i, ce, de. by split_and!.
Qed.

Lemma rule_firing_changes_text_witness :
  original_text tabeta_1 = original_text tabeta_0
  /\ ((type rule_past <> s_substitution
       /\ text tabeta_1 <> original_text tabeta_0
       /\ (text tabeta_0 = original_text tabeta_0 -> text tabeta_1 <> text tabeta_0)
       /\ exists vr,
            (dec_end rule_past = [v_dec_end vr]
             /\ con_end rule_past !! 0 = Some (v_con_end vr)
             \/ length (dec_end rule_past) <> 1
                /\ exists vrs,
                     _virtual_rules_cache retagging !! 0 = Some vrs /\ vr ∈ vrs)
            /\ _std_rule_deconjugate_inner tabeta_0 vr = Some tabeta_1
            /\ (text tabeta_1 = text tabeta_0 <-> v_dec_end vr = v_con_end vr))
      \/ (type rule_past = s_substitution
          /\ exists i ce de,
               dec_end rule_past !! i = Some de
               /\ con_end rule_past
                    !! (if decide (i < length (con_end rule_past)) then i else 0)
                  = Some ce
               /\ _substitution_inner tabeta_0 ce de (detail rule_past) = Some tabeta_1
               /\ (text tabeta_1 = text tabeta_0 <-> de = ce))).
Proof.
  apply (rule_firing_changes_text retagging tabeta_0 rule_past 0 {[tabeta_1]}).
  - compute_done.
  - apply elem_of_singleton. reflexivity.
Defined.

End firing_text.

(** C5, as stated, fails: with no rule at all, [deconjugate] on た returns
    the set holding just the initial form, whose [seen_text] is empty and so
    holds neither the input text nor the form's text. *)
Lemma initial_form_sees_nothing :
  (deconjugate 1 false no_rules empty_cache (u "た")
   = Some (Ok ({[_create_initial_form (u "た")]}, empty_cache)))
  /\ (u "た" ∉ seen_text (_create_initial_form (u "た")))
  /\ (text (_create_initial_form (u "た")) ∉ seen_text (_create_initial_form (u "た"))).
Proof. split; [compute_done |]. split; apply not_elem_of_empty. Qed.

(** C5, amended: every form in the set returned by [deconjugate t] other
    than the initial form has a [seen_text] that contains both [t] and the
    form's own text, and every form has [t] as its original text; the initial
    form, whose [seen_text] is empty, is in the set whenever [t] is not
    empty. *)
Theorem deconjugate_seen_text (fuel : nat) (USE_CACHE : bool) (self : Deconjugator)
    (cache cache' : gmap str (gset DeconjugationForm)) (t : str)
    (r : gset DeconjugationForm) :
  cache_reachable cache ->
  deconjugate fuel USE_CACHE self cache t = Some (Ok (r, cache')) ->
  (forall f, f ∈ r ->
     original_text f = t
     /\ (f = _create_initial_form t \/ (t ∈ seen_text f /\ text f ∈ seen_text f)))
  /\ (t <> [] -> _create_initial_form t ∈ r
                 /\ seen_text (_create_initial_form t) = ∅).
Proof.
  intros Hc%cache_reachable_ok Hcall.
  destruct (deconjugate_ok _ _ _ _ _ _ _ Hc Hcall) as (_ & Hok & Hinit & _).
  split.
  - intros f Hf. split; [by apply form_ok_original, Hok |].
    destruct (Hok f Hf) as [-> | (_ & ? & ?)]; [by left | by right].
  - intros Ht. split; [by apply Hinit | reflexivity].
Qed.

Lemma deconjugate_seen_text_witness :
  (forall f, f ∈ ({[tabeta_0; tabeta_1; tabeta_2]} : gset DeconjugationForm) ->
     original_text f = u "食べた"
     /\ (f = _create_initial_form (u "食べた")
         \/ (u "食べた" ∈ seen_text f /\ text f ∈ seen_text f)))
  /\ (u "食べた" <> [] ->
      _create_initial_form (u "食べた") ∈
        ({[tabeta_0; tabeta_1; tabeta_2]} : gset DeconjugationForm)
      /\ seen_text (_create_initial_form (u "食べた")) = ∅).
Proof.
  apply (deconjugate_seen_text 3 false retagging empty_cache empty_cache).
  - apply cache_initial.
  - compute_done.
Defined.

(** C9: on the empty string [deconjugate] returns the empty set, without an
    exception and without entering the loop (no fuel is needed), and leaves
    the memo as it was; this holds for every instance, either setting of
    [USE_CACHE], and every memo that calls can have left behind. *)
Theorem deconjugate_empty_text (fuel : nat) (USE_CACHE : bool) (self : Deconjugator)
    (cache : gmap str (gset DeconjugationForm)) :
  cache_reachable cache ->
  deconjugate fuel USE_CACHE self cache [] = Some (Ok (∅, cache)).
Proof.
  intros [Hnil _]%cache_reachable_ok. unfold deconjugate.
  destruct USE_CACHE; [rewrite Hnil |]; reflexivity.
Qed.

(** The memo left by a caching call on 食べた. *)
Definition tabeta_cache : gmap str (gset DeconjugationForm) :=
  <[u "食べた" := {[tabeta_0; tabeta_1; tabeta_2]}]> empty_cache.

Lemma deconjugate_empty_text_witness :
  deconjugate 0 true retagging tabeta_cache [] = Some (Ok (∅, tabeta_cache)).
Proof.
  apply (deconjugate_empty_text 0 true retagging tabeta_cache).
  apply (cache_after_call 3 true retagging empty_cache (u "食べた")
           {[tabeta_0; tabeta_1; tabeta_2]} tabeta_cache).
  - apply cache_initial.
  - compute_done.
Defined.

End DeconjProps.

(** ** The combination passes *)

Module MorphProps.

Import Morph.
Local Open Scope nat_scope.

(** *** Reading and writing the store *)

Lemma length_set h r f : length (set h r f) = length h.
Proof. unfold set. apply length_insert. Qed.

Lemma get_set_eq h r f : r < length h -> get (set h r f) r = f (get h r).
Proof.
  intros Hr. unfold get at 1, set.
  apply nth_lookup_Some with (d := WordInfo_new).
  by apply list_lookup_insert_eq.
Qed.

Lemma get_set_ne h r r' f : r <> r' -> get (set h r f) r' = get h r'.
Proof.
  intros Hne. unfold get, set.
  destruct (h !! r') as [w|] eqn:E.
  - rewrite (nth_lookup_Some _ _ _ _ E).
    apply nth_lookup_Some. by rewrite list_lookup_insert_ne.
  - apply lookup_ge_None in E.
    rewrite !nth_overflow; [reflexivity | exact E | by rewrite length_insert].
Qed.

Lemma get_alloc_old h w r : r < length h -> get (h ++ [w]) r = get h r.
Proof. intros Hr. unfold get. by apply app_nth1. Qed.

Lemma get_alloc_new h w : get (h ++ [w]) (length h) = w.
Proof. unfold get. rewrite app_nth2, Nat.sub_diag by lia. reflexivity. Qed.

(** *** What a pass leaves of the objects that existed before it

    [keeps R n h h']: the first [n] objects of [h] are still there in [h'],
    each related by [R] to what it was. With [R := eq] nothing of them
    changed. *)

Definition keeps (R : WordInfo -> WordInfo -> Prop) (n : nat) (h h' : store) : Prop :=
  n <= length h' /\ forall r, r < n -> R (get h r) (get h' r).

(** All fields but [text] are equal. *)
Definition same_but_text (w w' : WordInfo) : Prop := with_text (text w) w' = w.

(** All fields but [part_of_speech] are equal. *)
Definition same_but_pos (w w' : WordInfo) : Prop :=
  with_part_of_speech (part_of_speech w) w' = w.

Section keeps.

Variable R : WordInfo -> WordInfo -> Prop.
Hypothesis R_refl : forall w, R w w.
Hypothesis R_trans : forall a b c, R a b -> R b c -> R a c.

Lemma keeps_refl n h : n <= length h -> keeps R n h h.
Proof. intros Hn. split; [exact Hn | intros; apply R_refl]. Qed.

Lemma keeps_set_fresh n h0 h r f :
  keeps R n h0 h -> n <= r -> keeps R n h0 (set h r f).
Proof.
  intros [Hn Hk] Hr. split; [by rewrite length_set |].
  intros r' Hr'. rewrite get_set_ne by lia. by apply Hk.
Qed.

Lemma keeps_set_related n h0 h r f :
  keeps R n h0 h -> (forall w, R w (f w)) -> keeps R n h0 (set h r f).
Proof.
  intros [Hn Hk] Hf. split; [by rewrite length_set |].
  intros r' Hr'. destruct (decide (r = r')) as [<- | Hne].
  - rewrite get_set_eq by lia. eapply R_trans; [by apply Hk | apply Hf].
  - rewrite get_set_ne by exact Hne. by apply Hk.
Qed.

Lemma keeps_alloc n h0 h w : keeps R n h0 h -> keeps R n h0 (h ++ [w]).
Proof.
  intros [Hn Hk]. split; [rewrite length_app; lia |].
  intros r Hr. rewrite get_alloc_old by lia. by apply Hk.
Qed.

Lemma keeps_fresh_ref n h0 h : keeps R n h0 h -> n <= length h.
Proof. by intros [Hn _]. Qed.

End keeps.

Lemma same_but_text_refl w : same_but_text w w.
Proof. by destruct w. Qed.

Lemma same_but_text_trans a b c :
  same_but_text a b -> same_but_text b c -> same_but_text a c.
Proof.
  unfold same_but_text. destruct a, b, c; simpl. intros [= -> -> -> -> -> -> -> ->].
  intros [= -> -> -> -> -> -> -> ->]. reflexivity.
Qed.

Lemma same_but_pos_refl w : same_but_pos w w.
Proof. by destruct w. Qed.

Lemma same_but_pos_trans a b c :
  same_but_pos a b -> same_but_pos b c -> same_but_pos a c.
Proof.
  unfold same_but_pos. destruct a, b, c; simpl. intros [= -> -> -> -> -> -> -> ->].
  intros [= -> -> -> -> -> -> -> ->]. reflexivity.
Qed.

Lemma eq_keeps_weaken (R : WordInfo -> WordInfo -> Prop) n h h' :
  (forall w, R w w) -> keeps eq n h h' -> keeps R n h h'.
Proof.
  intros Hrefl [Hn Hk]. split; [exact Hn |].
  intros r Hr. rewrite <- (Hk r Hr). apply Hrefl.
Qed.

Create HintDb keeps.
#[local] Hint Resolve keeps_set_fresh keeps_alloc keeps_fresh_ref keeps_refl : keeps.
#[local] Hint Resolve same_but_text_refl same_but_pos_refl : keeps.
#[local] Hint Extern 1 (_ <= _) => lia : keeps.
#[local] Hint Extern 1 (_ < _) => lia : keeps.

(** One iteration of a loop whose accumulator [current_word] is a copy made
    by the pass: case on the branch taken, then the induction hypothesis. *)
Ltac keeps_step IH :=
  repeat match goal with
         | |- context [if ?b then _ else _] => destruct b
         end;
  unfold append_text, copy, alloc; cbn [fst snd];
  apply IH; eauto 6 using keeps_fresh_ref with keeps.

Section copying_passes.

Variable R : WordInfo -> WordInfo -> Prop.
Hypothesis R_refl : forall w, R w w.
Variable n : nat.
Variable h0 : store.

Lemma prefixes_loop_keeps h new_list current_word rest :
  keeps R n h0 h -> n <= current_word ->
  keeps R n h0 (snd (prefixes_loop h new_list current_word rest)).
Proof.
  revert h new_list current_word.
  induction rest as [|next_word rest IH]; intros h nl cur Hk Hc;
    cbn [prefixes_loop]; [exact Hk |].
  keeps_step IH.
Qed.

Lemma amounts_loop_keeps COMBINATIONS h new_list current_word rest :
  keeps R n h0 h -> n <= current_word ->
  keeps R n h0 (snd (amounts_loop COMBINATIONS h new_list current_word rest)).
Proof.
  revert h new_list current_word.
  induction rest as [|next_word rest IH]; intros h nl cur Hk Hc;
    cbn [amounts_loop]; [exact Hk |].
  keeps_step IH.
Qed.

Lemma tte_loop_keeps h new_list current_word rest :
  keeps R n h0 h -> n <= current_word ->
  keeps R n h0 (snd (tte_loop h new_list current_word rest)).
Proof.
  revert h new_list current_word.
  induction rest as [|next_word rest IH]; intros h nl cur Hk Hc;
    cbn [tte_loop]; [exact Hk |].
  keeps_step IH.
Qed.

Lemma verb_dependants_loop_keeps h new_list current_word rest :
  keeps R n h0 h -> n <= current_word ->
  keeps R n h0 (snd (verb_dependants_loop h new_list current_word rest)).
Proof.
  revert h new_list current_word.
  induction rest as [|next_word rest IH]; intros h nl cur Hk Hc;
    cbn [verb_dependants_loop]; [exact Hk |].
  keeps_step IH.
Qed.

Lemma verb_possible_dependants_loop_keeps h new_list current_word rest :
  keeps R n h0 h -> n <= current_word ->
  keeps R n h0 (snd (verb_possible_dependants_loop h new_list current_word rest)).
Proof.
  revert h new_list current_word.
  induction rest as [|next_word rest IH]; intros h nl cur Hk Hc;
    cbn [verb_possible_dependants_loop]; [exact Hk |].
  keeps_step IH.
Qed.

Lemma adverbial_particle_loop_keeps h new_list current_word rest :
  keeps R n h0 h -> n <= current_word ->
  keeps R n h0 (snd (adverbial_particle_loop h new_list current_word rest)).
Proof.
  revert h new_list current_word.
  induction rest as [|next_word rest IH]; intros h nl cur Hk Hc;
    cbn [adverbial_particle_loop]; [exact Hk |].
  keeps_step IH.
Qed.

Lemma auxiliary_verb_stem_loop_keeps h new_list current_word prev_word rest :
  keeps R n h0 h -> n <= current_word ->
  keeps R n h0 (snd (auxiliary_verb_stem_loop h new_list current_word prev_word rest)).
Proof.
  revert h new_list current_word prev_word.
  induction rest as [|next_word rest IH]; intros h nl cur prev Hk Hc;
    cbn [auxiliary_verb_stem_loop]; [exact Hk |].
  keeps_step IH.
Qed.

Lemma suffix_loop_keeps h new_list current_word prev_word rest :
  keeps R n h0 h -> n <= current_word ->
  keeps R n h0 (snd (suffix_loop h new_list current_word prev_word rest)).
Proof.
  revert h new_list current_word prev_word.
  induction rest as [|next_word rest IH]; intros h nl cur prev Hk Hc;
    cbn [suffix_loop]; [exact Hk |].
  keeps_step IH.
Qed.

Lemma final_loop_keeps h new_list current_word prev_word rest :
  keeps R n h0 h -> n <= current_word ->
  keeps R n h0 (snd (final_loop h new_list current_word prev_word rest)).
Proof.
  revert h new_list current_word prev_word.
  induction rest as [|next_word rest IH]; intros h nl cur prev Hk Hc;
    cbn [final_loop]; [exact Hk |].
  keeps_step IH.
Qed.

(** The loops that step by one, two or three units: induction on a bound of
    the number of units left. *)
Ltac keeps_stride IH :=
  repeat match goal with
         | |- context [if ?b then _ else _] => destruct b
         end;
  unfold append_text, copy, alloc; cbn [fst snd];
  (apply IH; [simpl in *; lia | eauto 6 using keeps_fresh_ref with keeps]).

Lemma suru_loop_keeps k : forall ws h new_list,
  length ws <= k -> keeps R n h0 h ->
  keeps R n h0 (snd (suru_loop h new_list ws)).
Proof.
  induction k as [|k IH]; intros [|cur rest] h nl Hlen Hk;
    cbn [suru_loop]; try exact Hk; [simpl in Hlen; lia |].
  destruct rest as [|next rest2]; cbv beta iota; keeps_stride IH.
Qed.

Lemma teiru_loop_keeps k : forall ws h new_list,
  length ws <= k -> keeps R n h0 h ->
  keeps R n h0 (snd (teiru_loop h new_list ws)).
Proof.
  induction k as [|k IH]; intros [|cur rest] h nl Hlen Hk;
    cbn [teiru_loop]; try exact Hk; [simpl in Hlen; lia |].
  destruct rest as [|next1 [|next2 rest3]]; cbv beta iota; keeps_stride IH.
Qed.

Lemma particles_loop_keeps k : forall ws h new_list,
  length ws <= k -> keeps R n h0 h ->
  keeps R n h0 (snd (particles_loop h new_list ws)).
Proof.
  induction k as [|k IH]; intros [|cur rest] h nl Hlen Hk;
    cbn [particles_loop]; try exact Hk; [simpl in Hlen; lia |].
  destruct rest as [|next rest2]; cbv beta iota; keeps_stride IH.
Qed.

Lemma honorific_loop_keeps h current_word honorifics items h' :
  keeps R n h0 h -> n <= current_word ->
  honorific_loop h current_word honorifics = Some (items, h') ->
  keeps R n h0 h'.
Proof.
  intros Hk Hc. revert items h'.
  induction honorifics as [|honorific hs IH]; intros items h';
    cbn [honorific_loop]; [discriminate |].
  destruct (_ && _); [|apply IH].
  unfold alloc. intros [= _ <-].
  match goal with
  | |- keeps _ _ _ (set (set (set (set (?hm ++ _) _ _) _ _) _ _) _ _) =>
    assert (Hm : keeps R n h0 hm)
      by (destruct (endswith _ _); eauto with keeps)
  end.
  pose proof (keeps_fresh_ref _ _ _ _ Hm).
  repeat apply keeps_set_fresh; try lia. by apply keeps_alloc.
Qed.

Lemma separate_loop_keeps ws : forall h new_list,
  keeps R n h0 h -> keeps R n h0 (snd (separate_loop h new_list ws)).
Proof.
  induction ws as [|word ws IH]; intros h nl Hk; cbn [separate_loop];
    [exact Hk |].
  unfold copy, alloc; cbn [fst snd].
  destruct (honorific_loop _ _ _) as [[items h']|] eqn:E.
  - apply IH. eapply honorific_loop_keeps; [| |exact E]; eauto with keeps.
  - apply IH. eauto with keeps.
Qed.

End copying_passes.

(** Every object that existed before still has all its field values. *)
Definition unchanged (h h' : store) : Prop := keeps eq (length h) h h'.

(** Every object that existed before still has its field values, except
    possibly [text]. *)
Definition unchanged_but_text (h h' : store) : Prop :=
  keeps same_but_text (length h) h h'.

(** Every object that existed before still has its field values, except
    possibly [part_of_speech]. *)
Definition unchanged_but_pos (h h' : store) : Prop :=
  keeps same_but_pos (length h) h h'.

Lemma unchanged_get h h' r : unchanged h h' -> r < length h -> get h' r = get h r.
Proof. intros [_ Hk] Hr. symmetry. by apply Hk. Qed.

(** A pass that starts by copying the first unit and runs an accumulator
    loop, or returns a short list as it is. *)
Ltac copying_pass pass loop_lemma :=
  intros h [|w0 [|w1 rest]]; unfold unchanged, pass; cbv beta iota;
  try (apply keeps_refl; [done | cbn [snd]; lia]);
  unfold copy, alloc; cbv beta iota;
  apply loop_lemma;
    first [done | lia | apply keeps_alloc, keeps_refl; first [done | lia]].

Lemma _combine_prefixes_unchanged : forall h ws,
  unchanged h (snd (_combine_prefixes h ws)).
Proof. copying_pass _combine_prefixes prefixes_loop_keeps. Qed.

Lemma _combine_amounts_unchanged COMBINATIONS : forall h ws,
  unchanged h (snd (_combine_amounts COMBINATIONS h ws)).
Proof. copying_pass _combine_amounts amounts_loop_keeps. Qed.

Lemma _combine_tte_unchanged : forall h ws,
  unchanged h (snd (_combine_tte h ws)).
Proof. copying_pass _combine_tte tte_loop_keeps. Qed.

Lemma _combine_verb_dependants_unchanged : forall h ws,
  unchanged h (snd (_combine_verb_dependants h ws)).
Proof. copying_pass _combine_verb_dependants verb_dependants_loop_keeps. Qed.

Lemma _combine_verb_possible_dependants_unchanged : forall h ws,
  unchanged h (snd (_combine_verb_possible_dependants h ws)).
Proof. copying_pass _combine_verb_possible_dependants verb_possible_dependants_loop_keeps. Qed.

Lemma _combine_adverbial_particle_unchanged : forall h ws,
  unchanged h (snd (_combine_adverbial_particle h ws)).
Proof. copying_pass _combine_adverbial_particle adverbial_particle_loop_keeps. Qed.

Lemma _combine_auxiliary_verb_stem_unchanged : forall h ws,
  unchanged h (snd (_combine_auxiliary_verb_stem h ws)).
Proof. copying_pass _combine_auxiliary_verb_stem auxiliary_verb_stem_loop_keeps. Qed.

Lemma _combine_suffix_unchanged : forall h ws,
  unchanged h (snd (_combine_suffix h ws)).
Proof. copying_pass _combine_suffix suffix_loop_keeps. Qed.

Lemma _combine_final_unchanged : forall h ws,
  unchanged h (snd (_combine_final h ws)).
Proof. copying_pass _combine_final final_loop_keeps. Qed.

Ltac stride_pass pass loop_lemma :=
  intros h ws; unfold unchanged, pass;
  repeat match goal with
         | |- context [match ?l with [] => _ | _ :: _ => _ end] => destruct l
         end;
  try (apply keeps_refl; [done | cbn [snd]; lia]);
  eapply loop_lemma; first [done | reflexivity | apply keeps_refl; first [done | lia]].

Lemma _combine_verb_dependants_suru_unchanged : forall h ws,
  unchanged h (snd (_combine_verb_dependants_suru h ws)).
Proof. stride_pass _combine_verb_dependants_suru suru_loop_keeps. Qed.

Lemma _combine_verb_dependants_teiru_unchanged : forall h ws,
  unchanged h (snd (_combine_verb_dependants_teiru h ws)).
Proof. stride_pass _combine_verb_dependants_teiru teiru_loop_keeps. Qed.

Lemma _combine_particles_unchanged : forall h ws,
  unchanged h (snd (_combine_particles h ws)).
Proof. stride_pass _combine_particles particles_loop_keeps. Qed.

Lemma unchanged_refl h : unchanged h h.
Proof. apply keeps_refl; [done | lia]. Qed.

Lemma keeps_then (R : WordInfo -> WordInfo -> Prop) h h1 h2 :
  (forall a b c, R a b -> R b c -> R a c) ->
  keeps R (length h) h h1 -> keeps R (length h1) h1 h2 -> keeps R (length h) h h2.
Proof.
  intros Htrans [Hn1 Hk1] [Hn2 Hk2]. split; [lia |].
  intros r Hr. eapply Htrans; [by apply Hk1 | apply Hk2; lia].
Qed.

Lemma unchanged_then h h1 h2 : unchanged h h1 -> unchanged h1 h2 -> unchanged h h2.
Proof. apply keeps_then. intros a b c. apply eq_trans. Qed.

Lemma _combine_verb_dependant_unchanged : forall h ws,
  unchanged h (snd (_combine_verb_dependant h ws)).
Proof.
  intros h ws. unfold _combine_verb_dependant.
  destruct ws as [|w0 [|w1 rest]]; try apply unchanged_refl.
  pose proof (_combine_verb_dependants_unchanged h (w0 :: w1 :: rest)) as H1.
  destruct (_combine_verb_dependants h (w0 :: w1 :: rest)) as [ws1 h1].
  pose proof (_combine_verb_possible_dependants_unchanged h1 ws1) as H2.
  destruct (_combine_verb_possible_dependants h1 ws1) as [ws2 h2].
  pose proof (_combine_verb_dependants_suru_unchanged h2 ws2) as H3.
  destruct (_combine_verb_dependants_suru h2 ws2) as [ws3 h3].
  pose proof (_combine_verb_dependants_teiru_unchanged h3 ws3) as H4.
  destruct (_combine_verb_dependants_teiru h3 ws3) as [ws4 h4].
  cbn [snd] in *. eauto using unchanged_then.
Qed.

Lemma _separate_suffix_honorifics_unchanged : forall h ws,
  unchanged h (snd (_separate_suffix_honorifics h ws)).
Proof.
  intros h ws. unfold _separate_suffix_honorifics.
  destruct ws as [|w0 [|w1 rest]]; try apply unchanged_refl.
  assert (H : keeps eq (length h) h (snd (separate_loop h [] (w0 :: w1 :: rest))))
    by (apply separate_loop_keeps; first [done | apply unchanged_refl]).
  destruct (separate_loop h [] (w0 :: w1 :: rest)) as [nl h']. exact H.
Qed.

(** The pass returns the list it was given. *)
Lemma _separate_suffix_honorifics_returns_input h ws :
  fst (_separate_suffix_honorifics h ws) = ws.
Proof.
  unfold _separate_suffix_honorifics.
  destruct ws as [|w0 [|w1 rest]]; try reflexivity.
  by destruct (separate_loop h [] (w0 :: w1 :: rest)).
Qed.

(** *** The passes that write to the units of their input *)

Lemma with_text_same_but_text t w : same_but_text w (with_text t w).
Proof. by destruct w. Qed.

Lemma with_part_of_speech_same_but_pos p w :
  same_but_pos w (with_part_of_speech p w).
Proof. by destruct w. Qed.

Lemma keeps_append_text n h0 h a b :
  keeps same_but_text n h0 h -> keeps same_but_text n h0 (append_text h a b).
Proof.
  intros Hk. unfold append_text.
  apply keeps_set_related;
    [apply same_but_text_trans | exact Hk | intros; apply with_text_same_but_text].
Qed.

Lemma keeps_set_pos n h0 h r p :
  keeps same_but_pos n h0 h ->
  keeps same_but_pos n h0 (set h r (with_part_of_speech p)).
Proof.
  intros Hk.
  apply keeps_set_related;
    [apply same_but_pos_trans | exact Hk
    | intros; apply with_part_of_speech_same_but_pos].
Qed.

Lemma conjunctive_particle_loop_keeps n h0 rest : forall h new_list,
  keeps same_but_text n h0 h ->
  keeps same_but_text n h0 (snd (conjunctive_particle_loop h new_list rest)).
Proof.
  induction rest as [|current_word rest IH]; intros h nl Hk;
    cbn [conjunctive_particle_loop]; [exact Hk |].
  destruct (_ && _); apply IH; auto using keeps_append_text.
Qed.

Lemma auxiliary_loop_keeps n h0 rest : forall h new_list,
  keeps same_but_text n h0 h ->
  keeps same_but_text n h0 (snd (auxiliary_loop h new_list rest)).
Proof.
  induction rest as [|current_word rest IH]; intros h nl Hk;
    cbn [auxiliary_loop]; [exact Hk |].
  destruct (negb _); [by apply IH |].
  destruct (_ && _); apply IH; auto using keeps_append_text.
Qed.

Lemma _combine_conjunctive_particle_unchanged_but_text h ws :
  unchanged_but_text h (snd (_combine_conjunctive_particle h ws)).
Proof.
  unfold unchanged_but_text, _combine_conjunctive_particle.
  destruct ws as [|w0 [|w1 rest]];
    try (apply keeps_refl; [apply same_but_text_refl | cbn [snd]; lia]).
  apply conjunctive_particle_loop_keeps, keeps_refl;
    [apply same_but_text_refl | lia].
Qed.

Lemma _combine_auxiliary_unchanged_but_text h ws :
  unchanged_but_text h (snd (_combine_auxiliary h ws)).
Proof.
  unfold unchanged_but_text, _combine_auxiliary.
  destruct ws as [|w0 [|w1 rest]];
    try (apply keeps_refl; [apply same_but_text_refl | cbn [snd]; lia]).
  apply auxiliary_loop_keeps, keeps_refl; [apply same_but_text_refl | lia].
Qed.

Lemma filter_step_keeps is_kana n h0 word kept h :
  keeps same_but_pos n h0 h ->
  keeps same_but_pos n h0 (snd (filter_step is_kana word (kept, h))).
Proof.
  intros Hk. unfold filter_step.
  repeat match goal with
         | |- context [if ?b then _ else _] => destruct b
         end; cbn [snd]; auto 6 using keeps_set_pos.
Qed.

Lemma _filter_misparse_unchanged_but_pos is_kana h ws :
  unchanged_but_pos h (snd (_filter_misparse is_kana h ws)).
Proof.
  unfold unchanged_but_pos, _filter_misparse.
  induction ws as [|w ws IH]; cbn [foldr].
  - apply keeps_refl; [apply same_but_pos_refl | cbn [snd]; lia].
  - destruct (foldr (filter_step is_kana) ([], h) ws) as [kept h'].
    by apply filter_step_keeps.
Qed.

Lemma keeps_pos_fresh n h0 h r f :
  keeps same_but_pos n h0 h -> n <= r -> keeps same_but_pos n h0 (set h r f).
Proof. apply keeps_set_fresh. Qed.

Lemma keeps_pos_alloc n h0 h w :
  keeps same_but_pos n h0 h -> keeps same_but_pos n h0 (h ++ [w]).
Proof. apply keeps_alloc. Qed.

Ltac keeps_pos :=
  repeat first
    [ assumption
    | apply keeps_set_pos
    | apply keeps_pos_alloc
    | apply keeps_pos_fresh;
      [| rewrite ?length_set, ?length_app;
         match goal with
         | H : keeps _ _ _ _ |- _ => destruct H; simpl; lia
         end ] ].

Lemma special_three_keeps n h0 h w1 w2 w3 new_word h' :
  keeps same_but_pos n h0 h ->
  special_three h w1 w2 w3 = Some (new_word, h') ->
  keeps same_but_pos n h0 h'.
Proof.
  intros Hk. unfold special_three, copy, alloc.
  destruct (_ && _).
  - intros [= _ <-]. keeps_pos.
  - destruct (find_case3 _ _ _ _) as [[p|]|]; intros [= _ <-]; keeps_pos.
Qed.

Lemma special_two_keeps n h0 h w1 w2 new_word h' :
  keeps same_but_pos n h0 h ->
  special_two h w1 w2 = Some (new_word, h') ->
  keeps same_but_pos n h0 h'.
Proof.
  intros Hk. unfold special_two, copy, alloc.
  destruct (find_case2 _ _ _) as [[p|]|]; intros [= _ <-]; keeps_pos.
Qed.

Lemma special_one_keeps n h0 h w1 :
  keeps same_but_pos n h0 h ->
  keeps same_but_pos n h0 (snd (special_one h w1)).
Proof.
  intros Hk. unfold special_one, copy, alloc.
  repeat match goal with
         | |- context [if ?b then _ else _] => destruct b
         end; cbn [snd]; keeps_pos.
Qed.

Lemma special_loop_keeps n h0 k : forall ws h new_list,
  length ws <= k -> keeps same_but_pos n h0 h ->
  keeps same_but_pos n h0 (snd (special_loop h new_list ws)).
Proof.
  induction k as [|k IH]; intros [|w1 rest] h nl Hlen Hk;
    cbn [special_loop]; try exact Hk; [simpl in Hlen; lia |].
  assert (Hone : forall rest', length rest' <= k ->
    keeps same_but_pos n h0
      (snd (let '(items, h') := special_one h w1 in
            special_loop h' (nl ++ items) rest'))).
  { intros rest' Hl. pose proof (special_one_keeps n h0 h w1 Hk) as H1.
    destruct (special_one h w1) as [items h1]. by apply IH. }
  destruct (_ && _); [apply IH; [simpl in Hlen; lia | by apply keeps_set_pos] |].
  destruct rest as [|w2 rest2]; cbv beta iota; [apply Hone; simpl; lia |].
  assert (Htwo :
    keeps same_but_pos n h0
      (snd match special_two h w1 w2 with
           | Some (new_word, h') => special_loop h' (nl ++ [new_word]) rest2
           | None =>
             let '(items, h') := special_one h w1 in
             special_loop h' (nl ++ items) (w2 :: rest2)
           end)).
  { destruct (special_two h w1 w2) as [[nw h2]|] eqn:E2.
    - apply IH; [simpl in Hlen; lia | eapply special_two_keeps; [exact Hk | exact E2]].
    - apply Hone. simpl in *. lia. }
  destruct rest2 as [|w3 rest3]; cbv beta iota; [exact Htwo |].
  destruct (special_three h w1 w2 w3) as [[nw h3]|] eqn:E3; [|exact Htwo].
  apply IH; [simpl in Hlen; lia | eapply special_three_keeps; [exact Hk | exact E3]].
Qed.

Lemma _process_special_cases_unchanged_but_pos h ws :
  unchanged_but_pos h (snd (_process_special_cases h ws)).
Proof.
  unfold unchanged_but_pos, _process_special_cases.
  destruct ws as [|w0 rest].
  - apply keeps_refl; [apply same_but_pos_refl | cbn [snd]; lia].
  - eapply special_loop_keeps; [reflexivity |].
    apply keeps_refl; [apply same_but_pos_refl | lia].
Qed.

(** *** Example morphemes *)

(** A unit as the tokenizer emits it: surface text, part of speech, first
    sub-tag, dictionary form; the normalized form and the reading repeat the
    text. *)
Definition morpheme (t : str) (p : PartOfSpeech.t) (s1 : PartOfSpeechSection.t)
    (d : str) : WordInfo :=
  {| text := t; part_of_speech := p; part_of_speech_section1 := s1;
     part_of_speech_section2 := PartOfSpeechSection.NONE;
     part_of_speech_section3 := PartOfSpeechSection.NONE;
     normalized_form := t; dictionary_form := d; reading := t;
     is_invalid := false |}.

Definition tabe : WordInfo :=
  morpheme (u "食べ") PartOfSpeech.VERB PartOfSpeechSection.COMMON (u "食べる").
Definition te_conjunctive : WordInfo :=
  morpheme (u "て") PartOfSpeech.PARTICLE PartOfSpeechSection.CONJUNCTION_PARTICLE
    (u "て").
Definition ta_auxiliary : WordInfo :=
  morpheme (u "た") PartOfSpeech.AUXILIARY PartOfSpeechSection.NONE (u "た").
Definition sou : WordInfo :=
  morpheme (u "そう") PartOfSpeech.NA_ADJECTIVE PartOfSpeechSection.COMMON (u "そう").
Definition desu : WordInfo :=
  morpheme (u "です") PartOfSpeech.AUXILIARY PartOfSpeechSection.NONE (u "です").
Definition tanaka_san : WordInfo :=
  morpheme (u "田中さん") PartOfSpeech.NOUN PartOfSpeechSection.PERSON_NAME
    (u "田中さん").
Definition wa : WordInfo :=
  morpheme (u "は") PartOfSpeech.PARTICLE PartOfSpeechSection.BINDING_PARTICLE
    (u "は").

(** No character counts as kana: enough where [wanakana.is_kana] is not
    reached or does not matter. *)
Definition no_kana : str -> bool := fun _ => false.

(** C6, as stated, fails for the three passes it names.
    [_combine_conjunctive_particle] on 食べ, て returns the first unit of its
    input with the text 食べて; [_combine_auxiliary] on 食べ, た returns it
    with the text 食べた; [_filter_misparse] on そう, です retags the first
    unit of its input as an adverb. *)
Lemma passes_write_to_input_units :
  (let '(ws, h') := _combine_conjunctive_particle [tabe; te_conjunctive] [0; 1] in
   ws = [0] /\ text (get [tabe; te_conjunctive] 0) = u "食べ"
   /\ text (get h' 0) = u "食べて")
  /\ (let '(ws, h') := _combine_auxiliary [tabe; ta_auxiliary] [0; 1] in
      ws = [0] /\ text (get [tabe; ta_auxiliary] 0) = u "食べ"
      /\ text (get h' 0) = u "食べた")
  /\ (let '(ws, h') := _filter_misparse no_kana [sou; desu] [0; 1] in
      ws = [0; 1]
      /\ part_of_speech (get [sou; desu] 0) = PartOfSpeech.NA_ADJECTIVE
      /\ part_of_speech (get h' 0) = PartOfSpeech.ADVERB).
Proof. vm_compute. repeat split. Qed.

(** C6, amended. The passes that build their result from copies
    ([_combine_prefixes], [_combine_amounts], [_combine_tte],
    [_combine_auxiliary_verb_stem], [_combine_adverbial_particle],
    [_combine_suffix], [_combine_verb_dependant] with its four sub-passes,
    [_combine_particles], [_combine_final], [_separate_suffix_honorifics])
    leave every unit object that existed before the pass, so every unit of
    the input list, with all its field values. [_combine_auxiliary] and
    [_combine_conjunctive_particle] append to the text of units of their
    input: every field but [text] keeps its value. [_process_special_cases]
    and [_filter_misparse] retag units of their input: every field but
    [part_of_speech] keeps its value. *)
Theorem passes_and_input_units (COMBINATIONS : str * str -> bool)
    (is_kana : str -> bool) (h : store) (word_infos : list ref) :
  Forall (fun pass => unchanged h (snd (pass h word_infos)))
    [ _combine_prefixes; _combine_amounts COMBINATIONS; _combine_tte;
      _combine_auxiliary_verb_stem; _combine_adverbial_particle; _combine_suffix;
      _combine_verb_dependants; _combine_verb_possible_dependants;
      _combine_verb_dependants_suru; _combine_verb_dependants_teiru;
      _combine_verb_dependant; _combine_particles; _combine_final;
      _separate_suffix_honorifics ]
  /\ Forall (fun pass => unchanged_but_text h (snd (pass h word_infos)))
       [ _combine_auxiliary; _combine_conjunctive_particle ]
  /\ Forall (fun pass => unchanged_but_pos h (snd (pass h word_infos)))
       [ _process_special_cases; _filter_misparse is_kana ].
Proof.
  split_and!; repeat apply List.Forall_cons; try apply List.Forall_nil.
  - apply _combine_prefixes_unchanged.
  - apply _combine_amounts_unchanged.
  - apply _combine_tte_unchanged.
  - apply _combine_auxiliary_verb_stem_unchanged.
  - apply _combine_adverbial_particle_unchanged.
  - apply _combine_suffix_unchanged.
  - apply _combine_verb_dependants_unchanged.
  - apply _combine_verb_possible_dependants_unchanged.
  - apply _combine_verb_dependants_suru_unchanged.
  - apply _combine_verb_dependants_teiru_unchanged.
  - apply _combine_verb_dependant_unchanged.
  - apply _combine_particles_unchanged.
  - apply _combine_final_unchanged.
  - apply _separate_suffix_honorifics_unchanged.
  - apply _combine_auxiliary_unchanged_but_text.
  - apply _combine_conjunctive_particle_unchanged_but_text.
  - apply _process_special_cases_unchanged_but_pos.
  - apply _filter_misparse_unchanged_but_pos.
Qed.

(** C2: on 田中さん (tagged as a person name) followed by は, the pass
    returns the two units it was given, with the values they had: the name
    still ends in さん and no suffix unit is in the list. The list the loop
    has built, which the pass drops, holds the three units a split gives:
    田中, the suffix さん, and は. *)
Theorem separate_suffix_honorifics_drops_split :
  (let '(returned, h) := _separate_suffix_honorifics [tanaka_san; wa] [0; 1] in
   map (get h) returned = [tanaka_san; wa])
  /\ (let '(new_list, h) := separate_loop [tanaka_san; wa] [] [0; 1] in
      map (get h) new_list
      = [ with_dictionary_form (u "田中") (with_text (u "田中") tanaka_san);
          with_part_of_speech PartOfSpeech.SUFFIX
            (with_dictionary_form (u "さん")
               (with_reading (u "さん") (with_text (u "さん") WordInfo_new)));
          wa ]).
Proof. vm_compute. split; reflexivity. Qed.

(** *** The passes as functions on unit values

    A pass reads and writes objects, but what it returns can be told from
    the field values of its input units alone. [view] reads the units of a
    list; [wf] says that the references of a list are distinct and point
    into the store. *)

Definition view (p : list ref * store) : list WordInfo :=
  map (get (snd p)) (fst p).

Definition wf (h : store) (ws : list ref) : Prop :=
  NoDup ws /\ Forall (fun r => r < length h) ws.

(** How an accumulator loop merges [next_word] into [current_word]:
    [Append] is [current_word.text += next_word.text]; [Adopt p] makes
    [current_word] a copy of [next_word] that carries the joined text, and
    the part of speech [p] if given. *)
Inductive merge_kind :=
| Append
| Adopt (p : option PartOfSpeech.t).

Definition retag (p : option PartOfSpeech.t) (w : WordInfo) : WordInfo :=
  match p with
  | Some p => with_part_of_speech p w
  | None => w
  end.

Definition merge (k : merge_kind) (cur next : WordInfo) : WordInfo :=
  match k with
  | Append => with_text (text cur ++ text next) cur
  | Adopt p => retag p (with_text (text cur ++ text next) next)
  end.

Section accumulate.

(** The test of the loop, on the values of [current_word], [next_word] and
    [prev_word]. *)
Variable cond : WordInfo -> WordInfo -> WordInfo -> bool.
Variable k : merge_kind.

(** The common shape of the accumulator loops. *)
Fixpoint acc_loop (h : store) (new_list : list ref) (current_word prev_word : ref)
    (rest : list ref) : list ref * store :=
  match rest with
  | [] => (new_list ++ [current_word], h)
  | next_word :: rest' =>
    if cond (get h current_word) (get h next_word) (get h prev_word) then
      match k with
      | Append =>
        acc_loop (append_text h current_word next_word) new_list current_word
          next_word rest'
      | Adopt p =>
        let t := text (get h current_word) ++ text (get h next_word) in
        let '(c, h) := copy h next_word in
        let h := set h c (with_text t) in
        let h := match p with
                 | Some p => set h c (with_part_of_speech p)
                 | None => h
                 end in
        acc_loop h new_list c next_word rest'
      end
    else
      let new_list := new_list ++ [current_word] in
      let '(c, h) := copy h next_word in
      acc_loop h new_list c next_word rest'
  end.

(** The same loop on values. *)
Fixpoint acc_pure (cur prev : WordInfo) (rest : list WordInfo) : list WordInfo :=
  match rest with
  | [] => [cur]
  | next :: rest' =>
    if cond cur next prev then acc_pure (merge k cur next) next rest'
    else cur :: acc_pure next next rest'
  end.

Definition pass_pure (l : list WordInfo) : list WordInfo :=
  match l with
  | [] | [_] => l
  | w0 :: rest => acc_pure w0 w0 rest
  end.

Lemma map_get_set_other h r f (l : list ref) :
  r ∉ l -> map (get (set h r f)) l = map (get h) l.
Proof.
  intros Hr. apply map_ext_in. intros x Hx%list_elem_of_In.
  apply get_set_ne. intros ->. contradiction.
Qed.

Lemma map_get_alloc h w (l : list ref) :
  Forall (fun r => r < length h) l -> map (get (h ++ [w])) l = map (get h) l.
Proof.
  intros Hl. apply map_ext_in. intros x Hx%list_elem_of_In.
  apply get_alloc_old. rewrite Forall_forall in Hl. by apply Hl.
Qed.

Lemma not_in_below (c : nat) (l : list ref) : Forall (fun r => r < c) l -> c ∉ l.
Proof. rewrite Forall_forall. intros Hl Hc. apply Hl in Hc. lia. Qed.

Lemma Forall_lt_mono (a b : nat) (l : list ref) :
  a <= b -> Forall (fun r => r < a) l -> Forall (fun r => r < b) l.
Proof.
  intros Hab Hl. eapply Forall_impl; [exact Hl |]. intros r Hr. simpl in *. lia.
Qed.

(** [current_word] is the newest object, and every other reference at hand is
    older: then the loop returns distinct valid references whose values are
    those of the loop on values. *)
Lemma acc_loop_refines rest : forall h new_list cur prev,
  length h = S cur ->
  Forall (fun r => r < cur) new_list -> NoDup new_list ->
  Forall (fun r => r < cur) rest -> prev < cur ->
  let p := acc_loop h new_list cur prev rest in
  wf (snd p) (fst p)
  /\ view p = map (get h) new_list
              ++ acc_pure (get h cur) (get h prev) (map (get h) rest).
Proof.
  induction rest as [|next rest IH]; intros h nl cur prev Hlen Hnl Hnd Hrest Hprev.
  - cbn [acc_loop acc_pure map]. unfold view, wf. cbn [fst snd].
    split; [split |].
    + apply NoDup_app. split_and!; [exact Hnd | | apply NoDup_singleton].
      intros x Hx ->%list_elem_of_singleton.
      by apply (not_in_below cur nl).
    + apply Forall_app. split; [|apply Forall_singleton; lia].
      eapply Forall_lt_mono; [|exact Hnl]. lia.
    + by rewrite map_app.
  - apply Forall_cons in Hrest as [Hnext Hrest].
    cbn [acc_loop acc_pure map].
    destruct (cond (get h cur) (get h next) (get h prev)).
    + destruct k as [|p].
      * (* current_word.text += next_word.text *)
        unfold append_text.
        specialize (IH (set h cur (with_text (text (get h cur) ++ text (get h next))))
                      nl cur next).
        rewrite length_set in IH. specialize (IH Hlen Hnl Hnd Hrest Hnext).
        destruct IH as [Hwf Hview]. split; [exact Hwf |].
        rewrite Hview.
        rewrite get_set_eq by lia. rewrite (get_set_ne _ cur next) by lia.
        rewrite !map_get_set_other by (by apply not_in_below).
        reflexivity.
      * (* current_word = WordInfo(next_word) with the joined text *)
        unfold copy, alloc. cbv beta iota.
        set (t := text (get h cur) ++ text (get h next)).
        set (h1 := set (h ++ [get h next]) (length h) (with_text t)).
        set (h2 := match p with
                   | Some p0 => set h1 (length h) (with_part_of_speech p0)
                   | None => h1
                   end).
        assert (Hl1 : length h1 = S (length h))
          by (unfold h1; rewrite length_set, length_app; simpl; lia).
        assert (Hl2 : length h2 = S (length h))
          by (unfold h2; destruct p; rewrite ?length_set; exact Hl1).
        assert (Hold : forall r, r < length h -> get h2 r = get h r).
        { intros r Hr. unfold h2, h1.
          destruct p; rewrite ?get_set_ne by lia; by apply get_alloc_old. }
        assert (Hnew : get h2 (length h) = retag p (with_text t (get h next))).
        { unfold h2, h1. destruct p; cbn [retag].
          - rewrite get_set_eq by (rewrite length_set, length_app; simpl; lia).
            rewrite get_set_eq by (rewrite length_app; simpl; lia).
            by rewrite get_alloc_new.
          - rewrite get_set_eq by (rewrite length_app; simpl; lia).
            by rewrite get_alloc_new. }
        specialize (IH h2 nl (length h) next Hl2).
        destruct IH as [Hwf Hview].
        { eapply Forall_lt_mono; [|exact Hnl]. lia. }
        { exact Hnd. }
        { eapply Forall_lt_mono; [|exact Hrest]. lia. }
        { lia. }
        split; [exact Hwf |]. rewrite Hview, Hnew, Hold by lia.
        f_equal; [| f_equal];
          apply map_ext_in; intros x Hx%list_elem_of_In; apply Hold.
        -- rewrite Forall_forall in Hnl. apply Hnl in Hx. lia.
        -- rewrite Forall_forall in Hrest. apply Hrest in Hx. lia.
    + unfold copy, alloc. cbv beta iota.
      specialize (IH (h ++ [get h next]) (nl ++ [cur]) (length h) next).
      destruct IH as [Hwf Hview].
      { rewrite length_app. simpl. lia. }
      { apply Forall_app. split; [|apply Forall_singleton; lia].
        eapply Forall_lt_mono; [|exact Hnl]. lia. }
      { apply NoDup_app. split_and!; [exact Hnd | | apply NoDup_singleton].
        intros x Hx ->%list_elem_of_singleton. by apply (not_in_below cur nl). }
      { eapply Forall_lt_mono; [|exact Hrest]. lia. }
      { lia. }
      split; [exact Hwf |]. rewrite Hview, get_alloc_new.
      rewrite (get_alloc_old _ _ next) by lia.
      rewrite map_app, <- app_assoc. cbn [map app].
      rewrite (get_alloc_old _ _ cur) by lia.
      rewrite !map_get_alloc; [reflexivity | |].
      * eapply Forall_lt_mono; [|exact Hrest]. lia.
      * eapply Forall_lt_mono; [|exact Hnl]. lia.
Qed.

End accumulate.

(** The tests of the accumulator loops, on values. *)
Definition cond_prefixes (cur next prev : WordInfo) : bool :=
  bool_decide (part_of_speech cur = PartOfSpeech.PREFIX)
  && negb (bool_decide (normalized_form cur = u "御")).

Definition cond_amounts (COMBINATIONS : str * str -> bool)
    (cur next prev : WordInfo) : bool :=
  (has_part_of_speech_section cur PartOfSpeechSection.AMOUNT
   || has_part_of_speech_section cur PartOfSpeechSection.NUMERAL)
  && COMBINATIONS (text cur, text next).

Definition cond_tte (cur next prev : WordInfo) : bool :=
  endswith (text cur) (u "っ") && startswith (text next) (u "て").

Definition cond_auxiliary_verb_stem (cur next prev : WordInfo) : bool :=
  has_part_of_speech_section next PartOfSpeechSection.AUXILIARY_VERB_STEM
  && negb (isin (text next) [u "ように"; u "よう"; u "みたい"])
  && isin (part_of_speech prev) [PartOfSpeech.VERB; PartOfSpeech.I_ADJECTIVE].

Definition cond_adverbial_particle (cur next prev : WordInfo) : bool :=
  has_part_of_speech_section next PartOfSpeechSection.ADVERBIAL_PARTICLE
  && isin (dictionary_form next) [u "だり"; u "たり"]
  && bool_decide (part_of_speech cur = PartOfSpeech.VERB).

Definition cond_suffix (cur next prev : WordInfo) : bool :=
  (bool_decide (part_of_speech next = PartOfSpeech.SUFFIX)
   || has_part_of_speech_section next PartOfSpeechSection.SUFFIX)
  && (isin (dictionary_form next) [u "っこ"; u "さ"; u "がる"]
      || (bool_decide (dictionary_form next = u "ら")
          && bool_decide (part_of_speech prev = PartOfSpeech.PRONOUN))).

Definition cond_verb_dependants (cur next prev : WordInfo) : bool :=
  has_part_of_speech_section next PartOfSpeechSection.DEPENDANT
  && bool_decide (part_of_speech cur = PartOfSpeech.VERB).

Ltac same_loop loop cnd IH :=
  cbn [loop acc_loop];
  unfold cnd, append_text, copy, alloc; cbv beta iota zeta;
  match goal with
  | |- context [if ?b then _ else _] => destruct b
  end; apply IH.

Lemma prefixes_loop_acc rest : forall h nl cur prev,
  prefixes_loop h nl cur rest = acc_loop cond_prefixes (Adopt None) h nl cur prev rest.
Proof.
  induction rest as [|next rest IH]; intros h nl cur prev;
    [reflexivity | same_loop prefixes_loop cond_prefixes IH].
Qed.

Lemma amounts_loop_acc COMBINATIONS rest : forall h nl cur prev,
  amounts_loop COMBINATIONS h nl cur rest
  = acc_loop (cond_amounts COMBINATIONS) (Adopt (Some PartOfSpeech.NOUN)) h nl cur
      prev rest.
Proof.
  induction rest as [|next rest IH]; intros h nl cur prev;
    [reflexivity | same_loop amounts_loop cond_amounts IH].
Qed.

Lemma tte_loop_acc rest : forall h nl cur prev,
  tte_loop h nl cur rest = acc_loop cond_tte Append h nl cur prev rest.
Proof.
  induction rest as [|next rest IH]; intros h nl cur prev;
    [reflexivity | same_loop tte_loop cond_tte IH].
Qed.

Lemma auxiliary_verb_stem_loop_acc rest : forall h nl cur prev,
  auxiliary_verb_stem_loop h nl cur prev rest
  = acc_loop cond_auxiliary_verb_stem Append h nl cur prev rest.
Proof.
  induction rest as [|next rest IH]; intros h nl cur prev;
    [reflexivity | same_loop auxiliary_verb_stem_loop cond_auxiliary_verb_stem IH].
Qed.

Lemma adverbial_particle_loop_acc rest : forall h nl cur prev,
  adverbial_particle_loop h nl cur rest
  = acc_loop cond_adverbial_particle Append h nl cur prev rest.
Proof.
  induction rest as [|next rest IH]; intros h nl cur prev;
    [reflexivity | same_loop adverbial_particle_loop cond_adverbial_particle IH].
Qed.

Lemma suffix_loop_acc rest : forall h nl cur prev,
  suffix_loop h nl cur prev rest = acc_loop cond_suffix Append h nl cur prev rest.
Proof.
  induction rest as [|next rest IH]; intros h nl cur prev;
    [reflexivity | same_loop suffix_loop cond_suffix IH].
Qed.

Lemma verb_dependants_loop_acc rest : forall h nl cur prev,
  verb_dependants_loop h nl cur rest
  = acc_loop cond_verb_dependants Append h nl cur prev rest.
Proof.
  induction rest as [|next rest IH]; intros h nl cur prev;
    [reflexivity | same_loop verb_dependants_loop cond_verb_dependants IH].
Qed.

(** A pass that copies the first unit and runs an accumulator loop returns,
    on distinct valid references, distinct valid references to the values of
    the loop on values. *)
Lemma acc_pass_refines cond k h w0 rest :
  wf h (w0 :: rest) ->
  let p := acc_loop cond k (h ++ [get h w0]) [] (length h) w0 rest in
  wf (snd p) (fst p)
  /\ view p = acc_pure cond k (get h w0) (get h w0) (map (get h) rest).
Proof.
  intros [Hnd Hv]. apply Forall_cons in Hv as [Hw0 Hrest].
  destruct (acc_loop_refines cond k rest (h ++ [get h w0]) [] (length h) w0)
    as [Hwf Hview].
  - rewrite length_app. simpl. lia.
  - apply Forall_nil_2.
  - apply NoDup_nil_2.
  - exact Hrest.
  - exact Hw0.
  - split; [exact Hwf |]. rewrite Hview. cbn [map app].
    rewrite get_alloc_new, (get_alloc_old _ _ w0) by lia.
    by rewrite map_get_alloc.
Qed.

Lemma _combine_prefixes_refines h ws :
  wf h ws ->
  let p := _combine_prefixes h ws in
  wf (snd p) (fst p) /\ view p = pass_pure cond_prefixes (Adopt None) (map (get h) ws).
Proof.
  intros Hwf. destruct ws as [|w0 [|w1 rest]];
    [by split | by split |].
  unfold _combine_prefixes, copy, alloc; cbv beta iota zeta.
  rewrite (prefixes_loop_acc _ _ _ _ w0). by apply acc_pass_refines.
Qed.

Lemma _combine_amounts_refines COMBINATIONS h ws :
  wf h ws ->
  let p := _combine_amounts COMBINATIONS h ws in
  wf (snd p) (fst p) /\ view p = pass_pure (cond_amounts COMBINATIONS) (Adopt (Some PartOfSpeech.NOUN)) (map (get h) ws).
Proof.
  intros Hwf. destruct ws as [|w0 [|w1 rest]];
    [by split | by split |].
  unfold _combine_amounts, copy, alloc; cbv beta iota zeta.
  rewrite (amounts_loop_acc _ _ _ _ _ w0). by apply acc_pass_refines.
Qed.

Lemma _combine_tte_refines h ws :
  wf h ws ->
  let p := _combine_tte h ws in
  wf (snd p) (fst p) /\ view p = pass_pure cond_tte Append (map (get h) ws).
Proof.
  intros Hwf. destruct ws as [|w0 [|w1 rest]];
    [by split | by split |].
  unfold _combine_tte, copy, alloc; cbv beta iota zeta.
  rewrite (tte_loop_acc _ _ _ _ w0). by apply acc_pass_refines.
Qed.

Lemma _combine_auxiliary_verb_stem_refines h ws :
  wf h ws ->
  let p := _combine_auxiliary_verb_stem h ws in
  wf (snd p) (fst p) /\ view p = pass_pure cond_auxiliary_verb_stem Append (map (get h) ws).
Proof.
  intros Hwf. destruct ws as [|w0 [|w1 rest]];
    [by split | by split |].
  unfold _combine_auxiliary_verb_stem, copy, alloc; cbv beta iota zeta.
  rewrite auxiliary_verb_stem_loop_acc. by apply acc_pass_refines.
Qed.

Lemma _combine_adverbial_particle_refines h ws :
  wf h ws ->
  let p := _combine_adverbial_particle h ws in
  wf (snd p) (fst p) /\ view p = pass_pure cond_adverbial_particle Append (map (get h) ws).
Proof.
  intros Hwf. destruct ws as [|w0 [|w1 rest]];
    [by split | by split |].
  unfold _combine_adverbial_particle, copy, alloc; cbv beta iota zeta.
  rewrite (adverbial_particle_loop_acc _ _ _ _ w0). by apply acc_pass_refines.
Qed.

Lemma _combine_suffix_refines h ws :
  wf h ws ->
  let p := _combine_suffix h ws in
  wf (snd p) (fst p) /\ view p = pass_pure cond_suffix Append (map (get h) ws).
Proof.
  intros Hwf. destruct ws as [|w0 [|w1 rest]];
    [by split | by split |].
  unfold _combine_suffix, copy, alloc; cbv beta iota zeta.
  rewrite suffix_loop_acc. by apply acc_pass_refines.
Qed.

Lemma _combine_verb_dependants_refines h ws :
  wf h ws ->
  let p := _combine_verb_dependants h ws in
  wf (snd p) (fst p) /\ view p = pass_pure cond_verb_dependants Append (map (get h) ws).
Proof.
  intros Hwf. destruct ws as [|w0 [|w1 rest]];
    [by split | by split |].
  unfold _combine_verb_dependants, copy, alloc; cbv beta iota zeta.
  rewrite (verb_dependants_loop_acc _ _ _ _ w0). by apply acc_pass_refines.
Qed.

(** [_combine_auxiliary] merges into the last unit of its result, which is
    a unit of its input. On values: *)
Definition cond_auxiliary (previous current : WordInfo) : bool :=
  bool_decide (part_of_speech current = PartOfSpeech.AUXILIARY)
  && ((isin (part_of_speech previous)
         [PartOfSpeech.VERB; PartOfSpeech.I_ADJECTIVE; PartOfSpeech.NA_ADJECTIVE;
          PartOfSpeech.AUXILIARY]
       || has_part_of_speech_section previous PartOfSpeechSection.ADJECTIVAL)
      && negb (bool_decide (dictionary_form current = u "です")
               && negb (bool_decide (part_of_speech previous = PartOfSpeech.VERB)
                        && isin (text current) [u "でし"; u "でした"]))
      && negb (isin (text current) [u "な"; u "に"; u "なら"; u "だろう"])
      && negb (isin (dictionary_form current)
                 [u "らしい"; u "べし"; u "ようだ"; u "やがる"])).

Section in_place.

Variable cond : WordInfo -> WordInfo -> bool.

Fixpoint inplace_pure (done : list WordInfo) (previous : WordInfo)
    (rest : list WordInfo) : list WordInfo :=
  match rest with
  | [] => done ++ [previous]
  | current :: rest' =>
    if cond previous current
    then inplace_pure done (with_text (text previous ++ text current) previous) rest'
    else inplace_pure (done ++ [previous]) current rest'
  end.

Definition inplace_pass_pure (l : list WordInfo) : list WordInfo :=
  match l with
  | [] | [_] => l
  | w0 :: rest => inplace_pure [] w0 rest
  end.

End in_place.

Lemma last_ref_snoc (l : list ref) (r : ref) : last_ref (l ++ [r]) = r.
Proof.
  unfold last_ref. rewrite length_app. simpl.
  rewrite app_nth2 by lia. replace (_ - _ - _) with 0 by lia. reflexivity.
Qed.

Lemma wf_snoc_move h (done : list ref) (a b : ref) (rest : list ref) :
  wf h (done ++ [a] ++ b :: rest) -> wf h ((done ++ [a]) ++ [b] ++ rest).
Proof. by rewrite <- app_assoc. Qed.

Lemma wf_drop_mid h (done : list ref) (a b : ref) (rest : list ref) f :
  wf h (done ++ [a] ++ b :: rest) -> wf (set h a f) (done ++ [a] ++ rest).
Proof.
  simpl. intros [Hnd Hv]. split.
  - apply NoDup_app in Hnd as (Hd & Hdisj & Hr).
    apply NoDup_cons in Hr as [Ha Hr]. apply NoDup_cons in Hr as [_ Hr].
    apply NoDup_app. split_and!; [exact Hd | |].
    + intros x Hx Hin. apply (Hdisj x Hx). set_solver.
    + apply NoDup_cons. set_solver.
  - rewrite length_set. apply Forall_app in Hv as [Hd Hv].
    apply Forall_cons in Hv as [Ha Hv]. apply Forall_cons in Hv as [_ Hv].
    apply Forall_app. split; [exact Hd |]. by apply Forall_cons.
Qed.

Lemma auxiliary_loop_refines rest : forall h done prev,
  wf h (done ++ [prev] ++ rest) ->
  let p := auxiliary_loop h (done ++ [prev]) rest in
  wf (snd p) (fst p)
  /\ view p = inplace_pure cond_auxiliary (map (get h) done) (get h prev)
               (map (get h) rest).
Proof.
  induction rest as [|cur rest IH]; intros h done prev Hwf.
  - cbn [auxiliary_loop inplace_pure map]. split; [exact Hwf |].
    unfold view. cbn [fst snd]. by rewrite map_app.
  - cbn [auxiliary_loop inplace_pure map]. rewrite last_ref_snoc.
    assert (Hmove :
      let p := auxiliary_loop h ((done ++ [prev]) ++ [cur]) rest in
      wf (snd p) (fst p)
      /\ view p = inplace_pure cond_auxiliary (map (get h) done ++ [get h prev])
                   (get h cur) (map (get h) rest)).
    { destruct (IH h (done ++ [prev]) cur (wf_snoc_move _ _ _ _ _ Hwf))
        as [H1 H2].
      split; [exact H1 |]. by rewrite H2, map_app. }
    unfold cond_auxiliary.
    destruct (bool_decide (part_of_speech (get h cur) = PartOfSpeech.AUXILIARY));
      cbn [negb andb]; [|exact Hmove].
    match goal with
    | |- context [if ?b then _ else _] => destruct b
    end; [|exact Hmove].
    unfold append_text.
    pose proof (wf_drop_mid h done prev cur rest
                  (with_text (text (get h prev) ++ text (get h cur))) Hwf) as Hwf'.
    destruct (IH _ done prev Hwf') as [H1 H2].
    split; [exact H1 |]. rewrite H2.
    simpl in Hwf. destruct Hwf as [Hnd Hv].
    assert (Hprev : prev < length h).
    { apply Forall_app in Hv as [_ Hv]. by apply Forall_cons in Hv as [? _]. }
    apply NoDup_app in Hnd as (_ & Hdisj & Hr).
    apply NoDup_cons in Hr as [Hpr _].
    rewrite get_set_eq by exact Hprev.
    rewrite !map_get_set_other; [reflexivity | set_solver |].
    intros Hin. apply (Hdisj prev Hin). set_solver.
Qed.

Lemma _combine_auxiliary_refines h ws :
  wf h ws ->
  let p := _combine_auxiliary h ws in
  wf (snd p) (fst p)
  /\ view p = inplace_pass_pure cond_auxiliary (map (get h) ws).
Proof.
  intros Hwf. destruct ws as [|w0 [|w1 rest]]; [by split | by split |].
  unfold _combine_auxiliary.
  apply (auxiliary_loop_refines (w1 :: rest) h [] w0). exact Hwf.
Qed.

(** *** 食べ, て, いる

    The three morphemes, and the units that joining neighbours gives. *)

Definition is_tabe (w : WordInfo) : Prop :=
  text w = u "食べ" /\ part_of_speech w = PartOfSpeech.VERB.

Definition is_te (w : WordInfo) : Prop :=
  text w = u "て" /\ part_of_speech w = PartOfSpeech.PARTICLE
  /\ has_part_of_speech_section w PartOfSpeechSection.DEPENDANT = true.

Definition is_iru (w : WordInfo) : Prop :=
  text w = u "いる"
  /\ has_part_of_speech_section w PartOfSpeechSection.DEPENDANT = true.

Definition is_tabete (w : WordInfo) : Prop :=
  text w = u "食べて" /\ part_of_speech w = PartOfSpeech.VERB.

Definition is_teiru (w : WordInfo) : Prop :=
  text w = u "ている"
  /\ has_part_of_speech_section w PartOfSpeechSection.DEPENDANT = true.

Definition is_tabeteiru (w : WordInfo) : Prop :=
  text w = u "食べている" /\ part_of_speech w = PartOfSpeech.VERB.

(** The unit lists that can stand between two passes. *)
Inductive shape : list WordInfo -> Prop :=
| shape_3 a b c : is_tabe a -> is_te b -> is_iru c -> shape [a; b; c]
| shape_2a ab c : is_tabete ab -> is_iru c -> shape [ab; c]
| shape_2b a bc : is_tabe a -> is_teiru bc -> shape [a; bc]
| shape_1 abc : is_tabeteiru abc -> shape [abc].

Lemma append_tabe_te a b :
  is_tabe a -> is_te b -> is_tabete (with_text (text a ++ text b) a).
Proof. intros [Ha Hp] [Hb _]. split; [simpl; by rewrite Ha, Hb | exact Hp]. Qed.

Lemma append_tabete_iru ab c :
  is_tabete ab -> is_iru c -> is_tabeteiru (with_text (text ab ++ text c) ab).
Proof. intros [Ha Hp] [Hc _]. split; [simpl; by rewrite Ha, Hc | exact Hp]. Qed.

Lemma append_tabe_teiru a bc :
  is_tabe a -> is_teiru bc -> is_tabeteiru (with_text (text a ++ text bc) a).
Proof. intros [Ha Hp] [Hb _]. split; [simpl; by rewrite Ha, Hb | exact Hp]. Qed.

Lemma append_te_iru b c :
  is_te b -> is_iru c -> is_teiru (with_text (text b ++ text c) b).
Proof.
  intros (Hb & _ & Hd) [Hc _]. split; [simpl; by rewrite Hb, Hc | exact Hd].
Qed.

Create HintDb shape.
#[local] Hint Resolve append_tabe_te append_tabete_iru append_tabe_teiru
  append_te_iru : shape.
#[local] Hint Constructors shape : shape.

(** Whatever its test answers, a loop that appends texts to the accumulator
    keeps the list in [shape]. *)
Lemma append_pass_shape cond l :
  shape l -> shape (pass_pure cond Append l).
Proof.
  intros [a b c Ha Hb Hc | ab c Hab Hc | a bc Ha Hbc | abc Habc];
    cbn [pass_pure acc_pure merge];
    repeat match goal with
           | |- context [if ?b then _ else _] => destruct b
           end; eauto 6 with shape.
Qed.

(** So does a loop that appends to the last unit of its result. *)
Lemma inplace_pass_shape cond l :
  shape l -> shape (inplace_pass_pure cond l).
Proof.
  intros [a b c Ha Hb Hc | ab c Hab Hc | a bc Ha Hbc | abc Habc];
    cbn [inplace_pass_pure inplace_pure app];
    repeat match goal with
           | |- context [if ?b then _ else _] => destruct b
           end; eauto 6 with shape.
Qed.

(** No unit of a list in [shape] that has a unit after it is a prefix. *)
Lemma prefixes_pass_shape l :
  shape l -> pass_pure cond_prefixes (Adopt None) l = l.
Proof.
  intros [a b c [_ Ha] (_ & Hb & _) Hc | ab c [_ Hab] Hc | a bc [_ Ha] Hbc | abc Habc];
    cbn [pass_pure acc_pure]; unfold cond_prefixes;
    rewrite ?Ha, ?Hb, ?Hab; reflexivity.
Qed.

(** When 食べ and て do not combine as an amount, the amount pass can only
    join て and いる, into a unit that takes the sections of いる. *)
Lemma amounts_pass_shape COMBINATIONS a b c :
  is_tabe a -> is_te b -> is_iru c ->
  cond_amounts COMBINATIONS a b a = false ->
  shape (pass_pure (cond_amounts COMBINATIONS) (Adopt (Some PartOfSpeech.NOUN))
           [a; b; c]).
Proof.
  intros Ha Hb Hc Hab. cbn [pass_pure acc_pure]. rewrite Hab.
  destruct (cond_amounts COMBINATIONS b c b); [|by constructor].
  apply shape_2b; [exact Ha |].
  destruct Hb as (Hb & _), Hc as (Hc & Hd).
  split; [simpl; by rewrite Hb, Hc | exact Hd].
Qed.

Lemma cond_verb_dependants_true cur next prev :
  has_part_of_speech_section next PartOfSpeechSection.DEPENDANT = true ->
  part_of_speech cur = PartOfSpeech.VERB ->
  cond_verb_dependants cur next prev = true.
Proof.
  intros Hd Hp. unfold cond_verb_dependants. rewrite Hd, Hp. reflexivity.
Qed.

(** The dependant pass joins everything into one verb. *)
Lemma verb_dependants_pass_shape l :
  shape l ->
  exists w, pass_pure cond_verb_dependants Append l = [w] /\ is_tabeteiru w.
Proof.
  intros [a b c Ha Hb Hc | ab c Hab Hc | a bc Ha Hbc | abc Habc];
    cbn [pass_pure acc_pure merge].
  - pose proof (append_tabe_te a b Ha Hb) as Hab.
    rewrite cond_verb_dependants_true by (apply Hb || apply Ha).
    rewrite cond_verb_dependants_true by (apply Hc || apply Hab).
    eauto with shape.
  - rewrite cond_verb_dependants_true by (apply Hc || apply Hab).
    eauto with shape.
  - rewrite cond_verb_dependants_true by (apply Hbc || apply Ha).
    eauto with shape.
  - eauto.
Qed.

(** The special-case pass on the three morphemes in a new store: nothing
    applies, unless 食べ and いる carry the dictionary forms of する and
    くださる, in which case the three are joined at once. *)
Lemma special_three_tabe a b c :
  is_tabe a -> is_te b -> is_iru c ->
  special_three [a; b; c] 0 1 2 = None
  \/ special_three [a; b; c] 0 1 2
     = Some (3, [a; b; c; with_text (text a ++ text b ++ text c) a]).
Proof.
  intros [Hta _] (Htb & _) [Htc _]. unfold special_three, copy, alloc.
  cbn [get nth length app].
  destruct (_ && _); [right; reflexivity |].
  left. rewrite Hta, Htb, Htc. reflexivity.
Qed.

Lemma special_two_none h r1 r2 :
  find_case2 (text (get h r1)) (text (get h r2)) SPECIAL_CASES_2 = None ->
  special_two h r1 r2 = None.
Proof. intros H. unfold special_two. by rewrite H. Qed.

Lemma special_one_plain h r t :
  text (get h r) = t ->
  isin t [u "でしょう"; u "だし"; u "な"; u "に"; u "よう"; u "十五"] = false ->
  special_one h r = ([r], h).
Proof.
  intros Ht Hplain. unfold special_one.
  assert (Hno : forall x, x ∈ [u "でしょう"; u "だし"; u "な"; u "に"; u "よう"; u "十五"] ->
                 bool_decide (text (get h r) = x) = false).
  { intros x Hx. apply bool_decide_eq_false_2. rewrite Ht. intros ->.
    unfold isin in Hplain. by apply bool_decide_eq_false_1 in Hplain. }
  rewrite (Hno (u "でしょう")) by set_solver.
  rewrite (Hno (u "だし")) by set_solver.
  assert (Hnani : isin (text (get h r)) [u "な"; u "に"] = false).
  { apply bool_decide_eq_false_2. rewrite Ht. intros Hin.
    unfold isin in Hplain. apply bool_decide_eq_false_1 in Hplain.
    apply Hplain. set_solver. }
  rewrite Hnani. cbv beta iota zeta.
  rewrite (Hno (u "よう")) by set_solver. cbv beta iota zeta.
  rewrite (Hno (u "十五")) by set_solver. reflexivity.
Qed.

Lemma not_conjunction_de w t :
  text w = t -> bool_decide (t = u "で") = false ->
  bool_decide (part_of_speech w = PartOfSpeech.CONJUNCTION)
  && bool_decide (text w = u "で") = false.
Proof. intros -> ->. apply andb_false_r. Qed.

Lemma special_cases_tabe a b c :
  is_tabe a -> is_te b -> is_iru c ->
  let p := _process_special_cases [a; b; c] [0; 1; 2] in
  p = ([0; 1; 2], [a; b; c])
  \/ (wf (snd p) (fst p) /\ exists w, view p = [w] /\ is_tabeteiru w).
Proof.
  intros Ha Hb Hc.
  pose proof Ha as [Hta Hpa]. pose proof Hb as (Htb & Hpb & _).
  pose proof Hc as [Htc _].
  unfold _process_special_cases. cbn [special_loop].
  rewrite (not_conjunction_de (get [a; b; c] 0) _ Hta) by reflexivity.
  destruct (special_three_tabe a b c Ha Hb Hc) as [-> | ->].
  - left.
    rewrite (special_two_none [a; b; c] 0 1)
      by (cbn [get nth]; by rewrite Hta, Htb).
    rewrite (special_one_plain [a; b; c] 0 _ Hta) by reflexivity.
    cbv beta iota.
    rewrite (not_conjunction_de (get [a; b; c] 1) _ Htb) by reflexivity.
    rewrite (special_two_none [a; b; c] 1 2)
      by (cbn [get nth]; by rewrite Htb, Htc).
    rewrite (special_one_plain [a; b; c] 1 _ Htb) by reflexivity.
    cbv beta iota.
    rewrite (not_conjunction_de (get [a; b; c] 2) _ Htc) by reflexivity.
    rewrite (special_one_plain [a; b; c] 2 _ Htc) by reflexivity.
    reflexivity.
  - right. cbn [fst snd app]. split.
    + split; [apply NoDup_singleton | apply Forall_singleton; simpl; lia].
    + eexists. split; [reflexivity |].
      split; [cbn; by rewrite Hta, Htb, Htc | exact Hpa].
Qed.

(** A list of one unit goes through every pass as it is. *)
Lemma _filter_misparse_tabeteiru is_kana h r :
  is_tabeteiru (get h r) -> _filter_misparse is_kana h [r] = ([r], h).
Proof.
  intros [Ht Hp]. unfold _filter_misparse. cbn [foldr]. unfold filter_step.
  rewrite Ht. cbv beta iota zeta.
  change (isin (u "食べている") [u "なん"; u "フン"; u "ふん"]) with false.
  cbv beta iota. rewrite ?Ht.
  change (bool_decide (u "食べている" = u "そう")) with false.
  cbv beta iota. rewrite ?Ht.
  change (bool_decide (u "食べている" = u "おい")) with false.
  cbv beta iota. rewrite ?Ht.
  change (bool_decide (u "食べている" = u "つ")) with false.
  cbn [andb]. cbv beta iota. rewrite ?Ht, ?Hp. reflexivity.
Qed.

Lemma singleton_tail COMBINATIONS is_kana h r :
  is_tabeteiru (get h r) ->
  combine COMBINATIONS is_kana h [r] = ([r], h).
Proof.
  intros Hw. unfold combine.
  assert (Hs : _process_special_cases h [r] = ([r], h)).
  { destruct Hw as [Ht _]. unfold _process_special_cases. cbn [special_loop].
    rewrite (not_conjunction_de (get h r) _ Ht) by reflexivity.
    by rewrite (special_one_plain h r _ Ht). }
  rewrite Hs. cbn -[_filter_misparse get].
  by apply _filter_misparse_tabeteiru.
Qed.

(** The passes of [combine] after the first three, and after the dependant
    pass. *)
Definition passes_from_tte (is_kana : str -> bool) (h : store) (ws : list ref)
  : list ref * store :=
  let '(ws, h) := _combine_tte h ws in
  let '(ws, h) := _combine_auxiliary_verb_stem h ws in
  let '(ws, h) := _combine_adverbial_particle h ws in
  let '(ws, h) := _combine_suffix h ws in
  let '(ws, h) := _combine_auxiliary h ws in
  let '(ws, h) := _combine_verb_dependant h ws in
  let '(ws, h) := _combine_conjunctive_particle h ws in
  let '(ws, h) := _combine_particles h ws in
  let '(ws, h) := _combine_final h ws in
  let '(ws, h) := _separate_suffix_honorifics h ws in
  _filter_misparse is_kana h ws.

Lemma combine_passes_from_tte COMBINATIONS is_kana h ws :
  combine COMBINATIONS is_kana h ws
  = let '(ws, h) := _process_special_cases h ws in
    let '(ws, h) := _combine_prefixes h ws in
    let '(ws, h) := _combine_amounts COMBINATIONS h ws in
    passes_from_tte is_kana h ws.
Proof. reflexivity. Qed.

Lemma passes_from_tte_singleton is_kana h r :
  is_tabeteiru (get h r) -> passes_from_tte is_kana h [r] = ([r], h).
Proof.
  intros Hw. unfold passes_from_tte. cbn -[_filter_misparse get].
  by apply _filter_misparse_tabeteiru.
Qed.

Lemma view_singleton h ws w :
  map (get h) ws = [w] -> exists r, ws = [r] /\ get h r = w.
Proof.
  destruct ws as [|r [|r' ws]]; try discriminate. intros [= <-]. eauto.
Qed.

(** One pass of the chain: a pass that refines a function on values which
    keeps [shape]. *)
Lemma shape_step (pass : store -> list ref -> list ref * store)
    (pure : list WordInfo -> list WordInfo) h ws :
  (forall h ws, wf h ws ->
     let p := pass h ws in
     wf (snd p) (fst p) /\ view p = pure (map (get h) ws)) ->
  (forall l, shape l -> shape (pure l)) ->
  wf h ws -> shape (map (get h) ws) ->
  wf (snd (pass h ws)) (fst (pass h ws)) /\ shape (view (pass h ws)).
Proof.
  intros Href Hshape Hwf Hs. destruct (Href h ws Hwf) as [Hwf' Hv].
  split; [exact Hwf' |]. rewrite Hv. by apply Hshape.
Qed.

Lemma _combine_verb_dependant_shape h ws :
  wf h ws -> shape (map (get h) ws) ->
  exists r h', _combine_verb_dependant h ws = ([r], h') /\ is_tabeteiru (get h' r).
Proof.
  intros Hwf Hs.
  destruct (_combine_verb_dependants_refines h ws Hwf) as [_ Hv].
  destruct (verb_dependants_pass_shape _ Hs) as (w & Hw & Hok).
  rewrite Hw in Hv. unfold _combine_verb_dependant.
  destruct ws as [|r0 [|r1 ws]].
  - inversion Hs.
  - exists r0, h. split; [reflexivity |].
    unfold view in Hv. cbn [_combine_verb_dependants fst snd map] in Hv.
    injection Hv as <-. exact Hok.
  - destruct (_combine_verb_dependants h (r0 :: r1 :: ws)) as [ws1 h1].
    unfold view in Hv. cbn [fst snd] in Hv.
    apply view_singleton in Hv as (r & -> & <-).
    exists r, h1. split; [reflexivity | exact Hok].
Qed.

Lemma passes_from_tte_shape is_kana h ws :
  wf h ws -> shape (map (get h) ws) ->
  exists r h', passes_from_tte is_kana h ws = ([r], h') /\ is_tabeteiru (get h' r).
Proof.
  intros Hwf Hs. unfold passes_from_tte.
  destruct (shape_step _combine_tte _ h ws _combine_tte_refines
              (append_pass_shape _) Hwf Hs) as [Hwf1 Hs1].
  destruct (_combine_tte h ws) as [ws1 h1]. unfold view in Hs1. cbn [fst snd] in *.
  destruct (shape_step _combine_auxiliary_verb_stem _ h1 ws1
              _combine_auxiliary_verb_stem_refines
              (append_pass_shape _) Hwf1 Hs1) as [Hwf2 Hs2].
  destruct (_combine_auxiliary_verb_stem h1 ws1) as [ws2 h2].
  unfold view in Hs2. cbn [fst snd] in *.
  destruct (shape_step _combine_adverbial_particle _ h2 ws2
              _combine_adverbial_particle_refines
              (append_pass_shape _) Hwf2 Hs2) as [Hwf3 Hs3].
  destruct (_combine_adverbial_particle h2 ws2) as [ws3 h3].
  unfold view in Hs3. cbn [fst snd] in *.
  destruct (shape_step _combine_suffix _ h3 ws3 _combine_suffix_refines
              (append_pass_shape _) Hwf3 Hs3) as [Hwf4 Hs4].
  destruct (_combine_suffix h3 ws3) as [ws4 h4].
  unfold view in Hs4. cbn [fst snd] in *.
  destruct (shape_step _combine_auxiliary _ h4 ws4 _combine_auxiliary_refines
              (inplace_pass_shape _) Hwf4 Hs4) as [Hwf5 Hs5].
  destruct (_combine_auxiliary h4 ws4) as [ws5 h5].
  unfold view in Hs5. cbn [fst snd] in *.
  destruct (_combine_verb_dependant_shape h5 ws5 Hwf5 Hs5) as (r & h6 & -> & Hok).
  exists r, h6. split; [|exact Hok].
  cbn -[_filter_misparse get]. by apply _filter_misparse_tabeteiru.
Qed.

(** C8: the passes of [parse], run on the three morphemes 食べ (a verb), て
    (a particle with the dependant section tag) and いる (with the dependant
    section tag), whatever their other field values are, return exactly one
    unit, whose text is 食べている and whose part of speech is VERB. The one
    proviso is on the amount table, which is not among the sources: 食べ
    and て must not combine as an amount (食べ has no amount or numeral
    section, or the pair is not in the table). *)
Theorem combine_tabe_te_iru (COMBINATIONS : str * str -> bool)
    (is_kana : str -> bool) (tabe te iru : WordInfo) :
  text tabe = u "食べ" -> part_of_speech tabe = PartOfSpeech.VERB ->
  text te = u "て" -> part_of_speech te = PartOfSpeech.PARTICLE ->
  has_part_of_speech_section te PartOfSpeechSection.DEPENDANT = true ->
  text iru = u "いる" ->
  has_part_of_speech_section iru PartOfSpeechSection.DEPENDANT = true ->
  (has_part_of_speech_section tabe PartOfSpeechSection.AMOUNT
   || has_part_of_speech_section tabe PartOfSpeechSection.NUMERAL)
  && COMBINATIONS (text tabe, text te) = false ->
  exists r h',
    combine COMBINATIONS is_kana [tabe; te; iru] [0; 1; 2] = ([r], h')
    /\ text (get h' r) = u "食べている"
    /\ part_of_speech (get h' r) = PartOfSpeech.VERB.
Proof.
  intros Ht1 Hp1 Ht2 Hp2 Hd2 Ht3 Hd3 Hamt.
  assert (Ha : is_tabe tabe) by by split.
  assert (Hb : is_te te) by by split_and!.
  assert (Hc : is_iru iru) by by split.
  rewrite combine_passes_from_tte.
  destruct (special_cases_tabe tabe te iru Ha Hb Hc)
    as [-> | [Hwf (w & Hv & Hw)]].
  - assert (Hwf0 : wf [tabe; te; iru] [0; 1; 2]).
    { split; [|repeat constructor; simpl; lia].
      repeat (apply NoDup_cons; split; [set_solver |]). apply NoDup_nil_2. }
    destruct (_combine_prefixes_refines _ _ Hwf0) as [Hwf1 Hv1].
    rewrite prefixes_pass_shape in Hv1 by (by constructor).
    destruct (_combine_prefixes [tabe; te; iru] [0; 1; 2]) as [ws1 h1].
    unfold view in Hv1. cbn [fst snd] in *.
    destruct (_combine_amounts_refines COMBINATIONS _ _ Hwf1) as [Hwf2 Hv2].
    rewrite Hv1 in Hv2.
    pose proof (amounts_pass_shape COMBINATIONS tabe te iru Ha Hb Hc Hamt) as Hs2.
    cbn [map get nth] in Hv2. rewrite <- Hv2 in Hs2.
    destruct (_combine_amounts COMBINATIONS h1 ws1) as [ws2 h2].
    unfold view in Hs2. cbn [fst snd] in *.
    destruct (passes_from_tte_shape is_kana h2 ws2 Hwf2 Hs2) as (r & h' & -> & Ht & Hp).
    eauto.
  - destruct (_process_special_cases [tabe; te; iru] [0; 1; 2]) as [ws1 h1].
    unfold view in Hv. cbn [fst snd] in *.
    apply view_singleton in Hv as (r & -> & <-).
    cbn [_combine_prefixes _combine_amounts].
    rewrite passes_from_tte_singleton by exact Hw.
    destruct Hw as [Ht Hp]. eauto.
Qed.

Lemma combine_tabe_te_iru_witness :
  exists r h',
    combine (fun _ => false) no_kana
      [tabe; morpheme (u "て") PartOfSpeech.PARTICLE PartOfSpeechSection.DEPENDANT (u "て");
       morpheme (u "いる") PartOfSpeech.VERB PartOfSpeechSection.DEPENDANT (u "いる")]
      [0; 1; 2] = ([r], h')
    /\ text (get h' r) = u "食べている"
    /\ part_of_speech (get h' r) = PartOfSpeech.VERB.
Proof.
  apply (combine_tabe_te_iru (fun _ => false) no_kana tabe
           (morpheme (u "て") PartOfSpeech.PARTICLE PartOfSpeechSection.DEPENDANT (u "て"))
           (morpheme (u "いる") PartOfSpeech.VERB PartOfSpeechSection.DEPENDANT (u "いる")));
    reflexivity.
Defined.

(** *** Sentence segmentation *)

(** With a single sentence there is nothing to merge: placing a word leaves
    one sentence with the same text. *)
Lemma assign_word_single fuel word word_text s i c :
  exists s' i' c',
    assign_word fuel word word_text [s] i c = ([s'], i', c')
    /\ SentenceInfo.text s' = SentenceInfo.text s.
Proof.
  revert i c. induction fuel as [|fuel IH]; intros i c; cbn [assign_word];
    [by eauto |].
  destruct i as [|i]; cbn [lookup list_lookup]; [|by eauto].
  destruct (find (SentenceInfo.text s) word_text c) as [word_idx|];
    [cbn; by eauto |].
  apply IH.
Qed.

Lemma assign_words_single h word_infos : forall s i c,
  map SentenceInfo.text (assign_words h word_infos [s] i c) = [SentenceInfo.text s].
Proof.
  induction word_infos as [|word ws IH]; intros s i c; cbn [assign_words];
    [reflexivity |].
  destruct (is_empty (text (get h word))); [apply IH |].
  destruct (assign_word_single (S (length [s])) word (text (get h word)) s i c)
    as (s' & i' & c' & -> & <-).
  apply IH.
Qed.

Definition kore_wa_pen_desu : str := Eval vm_compute in u "これはペンです。".

(** The text that reaches the tokenizer and the segmentation: a space and a
    line break go around the sentence ender. *)
Example preprocess_kore_wa_pen_desu :
  _preprocess_text kore_wa_pen_desu = u "これはペンです 。" ++ LF.
Proof. reflexivity. Qed.

Lemma split_kore_wa_pen_desu h word_infos :
  map SentenceInfo.text
    (_split_into_sentences h (_preprocess_text kore_wa_pen_desu) word_infos)
  = [u "これはペンです 。"].
Proof.
  unfold _split_into_sentences.
  change (split_chars _ [] [] false) with (@nil str, u "これはペンです 。").
  cbv beta iota. cbn [is_empty u]. apply assign_words_single.
Qed.

(** The tokenizer output for これはペンです。 *)
Definition pen_tokens : bool -> str -> list WordInfo := fun _ _ =>
  [ morpheme (u "これ") PartOfSpeech.PRONOUN PartOfSpeechSection.NONE (u "これ");
    wa;
    morpheme (u "ペン") PartOfSpeech.NOUN PartOfSpeechSection.COMMON_NOUN (u "ペン");
    desu;
    morpheme (u "。") PartOfSpeech.SUPPLEMENTARY_SYMBOL PartOfSpeechSection.FULL_STOP
      (u "。") ].

(** C7, as stated, fails in its second half: [parse] on これはペンです。
    yields one sentence, but its text is これはペンです 。 with a space
    before the ender, and the input is not a substring of it. *)
Lemma sentence_text_has_space :
  map SentenceInfo.text
    (fst (parse (fun _ => false) no_kana pen_tokens kore_wa_pen_desu false))
  = [u "これはペンです 。"]
  /\ contains (u "これはペンです 。") kore_wa_pen_desu = false.
Proof. vm_compute. split; reflexivity. Qed.

(** C7, amended: for the raw text これはペンです。, whatever the tokenizer
    returns, [parse] yields exactly one sentence, and its text is the input
    with one space put before the trailing ender: これはペンです 。 *)
Theorem parse_kore_wa_pen_desu (COMBINATIONS : str * str -> bool)
    (is_kana : str -> bool) (tokenize : bool -> str -> list WordInfo) :
  map SentenceInfo.text
    (fst (parse COMBINATIONS is_kana tokenize kore_wa_pen_desu false))
  = [u "これはペンです 。"]
  /\ u "これはペンです 。" = u "これはペンです" ++ u " " ++ u "。".
Proof.
  split; [|reflexivity]. unfold parse.
  destruct (combine _ _ _ _) as [ws h]. cbn [fst].
  apply split_kore_wa_pen_desu.
Qed.

End MorphProps.

(** ** The resolved-word cache *)

Module ResolverProps.

Import Resolver.
Local Open Scope Z_scope.

(** On a miss the word that is returned is the very object that the cache
    now holds. *)
Lemma miss_returns_cached_object (va w : Morph.WordInfo -> state -> (bool * option ref) * state)
    (word_info : Morph.WordInfo) (s s1 : state) (r : ref) :
  let key := (Morph.text word_info,
              PartOfSpeech.value (Morph.part_of_speech word_info),
              Morph.dictionary_form word_info) in
  cache_get s key = None ->
  attempts va w 3 s word_info = (Some r, s1) ->
  _process_word true va w word_info s = (Some r, cache_set s1 key r)
  /\ cache_get (cache_set s1 key r) key = Some r.
Proof.
  intros key Hmiss Hres. unfold _process_word. fold key. rewrite Hmiss, Hres.
  split; [reflexivity |]. unfold cache_get, cache_set; simpl.
  apply lookup_insert_eq.
Qed.

(** On a hit the word that is returned is a new object, whose two list
    attributes are the list objects of the cached word. *)
Lemma hit_shares_lists (va w : Morph.WordInfo -> state -> (bool * option ref) * state)
    (word_info : Morph.WordInfo) (s : state) (cached : ref) (d : DeckWord) :
  let key := (Morph.text word_info,
              PartOfSpeech.value (Morph.part_of_speech word_info),
              Morph.dictionary_form word_info) in
  cache_get s key = Some cached ->
  objects s !! cached = Some (ODeckWord d) ->
  exists s',
    _process_word true va w word_info s = (Some (length (objects s)), s')
    /\ objects s' !! length (objects s) = Some (ODeckWord d)
    /\ objects s' !! cached = Some (ODeckWord d)
    /\ _deck_word_cache_store s' = _deck_word_cache_store s.
Proof.
  intros key Hhit Hobj. unfold _process_word. fold key. rewrite Hhit.
  unfold copy_DeckWord. rewrite Hobj. unfold alloc.
  eexists. split; [reflexivity |]. simpl. split_and!.
  - rewrite lookup_app_r, Nat.sub_diag by lia. reflexivity.
  - apply lookup_app_l_Some. exact Hobj.
  - reflexivity.
Qed.

(** *** A run with a one-word dictionary *)

Definition tabeta : Morph.WordInfo :=
  MorphProps.morpheme (u "食べた") PartOfSpeech.VERB PartOfSpeechSection.COMMON
    (u "食べる").

(** The deconjugating lookup, for a dictionary that knows 食べる: it builds
    the conjugation list, the part-of-speech list and the word. *)
Definition lookup_taberu (word_info : Morph.WordInfo) (s : state)
  : (bool * option ref) * state :=
  if bool_decide (Morph.text word_info = u "食べた") then
    let '(cs, h) := alloc (objects s) (OStrList [u "past"]) in
    let '(ps, h) := alloc h (OPosList [PartOfSpeech.VERB]) in
    let '(word, h) :=
      alloc h (ODeckWord {| word_id := 1358280; original_text := Morph.text word_info;
                            reading_index := 0; occurrences := 0;
                            conjugations := cs; parts_of_speech := ps;
                            origin := 0 |}) in
    ((true, Some word),
     {| objects := h; _deck_word_cache_store := _deck_word_cache_store s |})
  else ((true, None), s).

(** The direct lookup, which finds nothing. *)
Definition lookup_nothing (word_info : Morph.WordInfo) (s : state)
  : (bool * option ref) * state := ((false, None), s).

Definition start : state := {| objects := []; _deck_word_cache_store := ∅ |}.

Definition resolve : Morph.WordInfo -> state -> option ref * state :=
  _process_word true lookup_taberu lookup_nothing.

(** The caller's edit between two calls. *)
Definition edit (f : store -> store) (s : state) : state :=
  {| objects := f (objects s); _deck_word_cache_store := _deck_word_cache_store s |}.

Definition taberu_value (occ : Z) (cs : list str) : DeckWordValue :=
  {| v_word_id := 1358280; v_original_text := u "食べた"; v_reading_index := 0;
     v_occurrences := occ; v_conjugations := cs;
     v_parts_of_speech := [PartOfSpeech.VERB]; v_origin := 0 |}.

Definition tabeta_key : DeckWordCacheKey :=
  (u "食べた", PartOfSpeech.value PartOfSpeech.VERB, u "食べる").

(** C3: resolving 食べた twice. The first call (a miss) returns the object
    [2] and stores that same object in the cache; so after the caller sets
    [occurrences] of the first result and appends to its [conjugations], the
    cached entry reads with these edits, and so does the result of the second
    call (a hit). The second result is a new object [3], but it holds the
    list objects of the cached word: appending to its [conjugations]
    changes what the cached entry reads. *)
Theorem results_share_objects_with_cache :
  let '(r1, s1) := resolve tabeta start in
  r1 = Some 2%nat
  /\ cache_get s1 tabeta_key = Some 2%nat
  /\ read (objects s1) 2 = Some (taberu_value 0 [u "past"])
  /\ let s1' := edit (fun h => conjugations_append (set_occurrences h 2 7) 2 (u "mine")) s1 in
     read (objects s1') 2 = Some (taberu_value 7 [u "past"; u "mine"])
     /\ let '(r2, s2) := resolve tabeta s1' in
        r2 = Some 3%nat
        /\ read (objects s2) 3 = Some (taberu_value 7 [u "past"; u "mine"])
        /\ let s2' := edit (fun h => conjugations_append h 3 (u "again")) s2 in
           read (objects s2') 2
           = Some (taberu_value 7 [u "past"; u "mine"; u "again"]).
Proof. vm_compute. repeat split. Qed.

End ResolverProps.

(** ** Digit widths *)

Module StringHelpersProps.
Import StringHelpers.

Definition is_half_digit (c : N) : bool := (48 <=? c) && (c <=? 57).
Definition is_full_digit (c : N) : bool := (0xFF10 <=? c) && (c <=? 0xFF19).

Lemma digit_cases (lo c : N) :
  lo <= c <= lo + 9 ->
  c ∈ [lo; lo + 1; lo + 2; lo + 3; lo + 4; lo + 5; lo + 6; lo + 7; lo + 8; lo + 9].
Proof.
  intros H.
  assert (exists k, (k < 10)%nat /\ c = lo + N.of_nat k) as (k & Hk & ->).
  { exists (N.to_nat (c - lo)). lia. }
  do 10 (destruct k as [|k];
         [ cbn [N.of_nat]; rewrite ?N.add_0_r;
           repeat (first [ apply list_elem_of_here | apply list_elem_of_further ])
         | ]).
  lia.
Qed.

Lemma half_to_full_lookup c :
  HALF_WIDTH_TO_FULL_WIDTH !! c = if is_half_digit c then Some (c + 65248) else None.
Proof.
  destruct (is_half_digit c) eqn:E; unfold is_half_digit in E.
  - apply andb_true_iff in E as [?%N.leb_le ?%N.leb_le].
    assert (c ∈ [48; 48 + 1; 48 + 2; 48 + 3; 48 + 4; 48 + 5; 48 + 6; 48 + 7; 48 + 8;
                 48 + 9]) as Hc by (apply digit_cases; lia).
    repeat (apply elem_of_cons in Hc as [->|Hc]; [vm_compute; reflexivity|]).
    by apply elem_of_nil in Hc.
  - assert (c < 48 \/ 57 < c) as Hout.
    { apply andb_false_iff in E as [?%N.leb_gt|?%N.leb_gt]; lia. }
    apply not_elem_of_list_to_map.
    change (c ∉ [48; 49; 50; 51; 52; 53; 54; 55; 56; 57]).
    intros Hc. repeat (apply elem_of_cons in Hc as [->|Hc]; [lia|]).
    by apply elem_of_nil in Hc.
Qed.

Lemma full_to_half_lookup c :
  FULL_WIDTH_TO_HALF_WIDTH !! c = if is_full_digit c then Some (c - 65248) else None.
Proof.
  destruct (is_full_digit c) eqn:E; unfold is_full_digit in E.
  - apply andb_true_iff in E as [?%N.leb_le ?%N.leb_le].
    assert (c ∈ [65296; 65296 + 1; 65296 + 2; 65296 + 3; 65296 + 4; 65296 + 5;
                 65296 + 6; 65296 + 7; 65296 + 8; 65296 + 9]) as Hc
      by (apply digit_cases; lia).
    repeat (apply elem_of_cons in Hc as [->|Hc]; [vm_compute; reflexivity|]).
    by apply elem_of_nil in Hc.
  - assert (c < 65296 \/ 65305 < c) as Hout.
    { apply andb_false_iff in E as [?%N.leb_gt|?%N.leb_gt]; lia. }
    apply not_elem_of_list_to_map.
    change (c ∉ [65296; 65297; 65298; 65299; 65300; 65301; 65302; 65303; 65304; 65305]).
    intros Hc. repeat (apply elem_of_cons in Hc as [->|Hc]; [lia|]).
    by apply elem_of_nil in Hc.
Qed.

Lemma to_full_char c :
  get_or_self HALF_WIDTH_TO_FULL_WIDTH c = if is_half_digit c then c + 65248 else c.
Proof. unfold get_or_self. rewrite half_to_full_lookup. by destruct (is_half_digit c). Qed.

Lemma to_half_char c :
  get_or_self FULL_WIDTH_TO_HALF_WIDTH c = if is_full_digit c then c - 65248 else c.
Proof. unfold get_or_self. rewrite full_to_half_lookup. by destruct (is_full_digit c). Qed.

Lemma is_half_digit_spec c : is_half_digit c = true <-> 48 <= c <= 57.
Proof. unfold is_half_digit. rewrite andb_true_iff, !N.leb_le. tauto. Qed.

Lemma is_full_digit_spec c : is_full_digit c = true <-> 65296 <= c <= 65305.
Proof. unfold is_full_digit. rewrite andb_true_iff, !N.leb_le. tauto. Qed.

Lemma not_true_iff b : b = false <-> ~ b = true.
Proof. destruct b; split; congruence. Qed.

(** X21: after [to_full_width_digits] no ASCII digit is left, every other
    character is where it was, and the length is unchanged. *)
Theorem to_full_width_digits_no_ascii_digit (s : str) :
  length (to_full_width_digits s) = length s
  /\ Forall (fun c => is_half_digit c = false) (to_full_width_digits s)
  /\ forall i c, s !! i = Some c -> is_half_digit c = false ->
       to_full_width_digits s !! i = Some c.
Proof.
  unfold to_full_width_digits. split_and!.
  - apply length_map.
  - apply Forall_forall. intros c Hc. apply list_elem_of_In in Hc.
    apply in_map_iff in Hc as (d & <- & _). rewrite to_full_char.
    destruct (is_half_digit d) eqn:E; [|done].
    apply is_half_digit_spec in E. apply not_true_iff. rewrite is_half_digit_spec. lia.
  - intros i c Hi Hc. rewrite list_lookup_fmap, Hi. cbn.
    by rewrite to_full_char, Hc.
Qed.

(** X22: for a string that holds no full-width digit, widening its digits
    with [to_full_width_digits] and narrowing them again with
    [to_half_width_digits] gives back the string. *)
Theorem half_of_full_width_digits (s : str) :
  Forall (fun c => is_full_digit c = false) s ->
  to_half_width_digits (to_full_width_digits s) = s.
Proof.
  unfold to_half_width_digits, to_full_width_digits. rewrite map_map.
  induction 1 as [|c s Hc _ IH]; [done|]. cbn [map]. rewrite IH. f_equal.
  rewrite to_full_char. destruct (is_half_digit c) eqn:E.
  - apply is_half_digit_spec in E. rewrite to_half_char.
    replace (is_full_digit (c + 65248)) with true
      by (symmetry; apply is_full_digit_spec; lia).
    lia.
  - by rewrite to_half_char, Hc.
Qed.

Lemma half_of_full_width_digits_witness :
  to_half_width_digits (to_full_width_digits (u "第3章")) = u "第3章".
Proof. apply half_of_full_width_digits. repeat constructor. Defined.

End StringHelpersProps.

(** ** The range of priority scores *)

Module ScoreRange.

Import Score ScoreProps.
Local Open Scope Z_scope.

Ltac split_ifs :=
  repeat match goal with
         | |- context [if ?b then _ else _] => destruct b
         | H : context [if ?b then _ else _] |- _ => destruct b
         end.

(** X7: a score is never below -10, and is negative only for an entry tagged
    [uk] asked about with a surface that is not kana; without a priority tag
    that starts with nf it is at most 170. *)
Theorem score_range (py_int : str -> result Z) (py_round_div10 : Z -> result Z)
    (w : JmDictWord) (is_kana : bool) (s : Z) :
  get_priority_score py_int py_round_div10 w is_kana = Ok s ->
  -10 <= s
  /\ (mem s_uk (parts_of_speech w) = false \/ is_kana = true -> 0 <= s)
  /\ (forall ps, priorities w = Some ps -> first_nf ps = None -> s <= 170).
Proof.
  unfold get_priority_score.
  destruct (priorities w) as [[|p ps]|] eqn:Hp.
  - intros [= <-]. split_and!; [lia | lia | intros; lia].
  - destruct (first_nf (p :: ps)) as [nf|] eqn:Hnf.
    + destruct (py_int (slice_from 2 nf)) as [n|]; [|discriminate].
      cbn [mbind result_bind].
      destruct (py_round_div10 n) as [r|]; [|discriminate].
      cbn [mbind result_bind]. intros [= <-].
      pose proof (Z.le_max_l 0 (5 - r)) as Hmax.
      set (bonus := Z.max 0 (5 - r)) in *. clearbody bonus.
      split_and!; [| | intros ? [= <-]; congruence].
      * destruct (_ =? 0) eqn:E; [|apply Z.eqb_neq in E]; split_ifs; lia.
      * intros [-> | ->]; (destruct (_ =? 0) eqn:E; [|apply Z.eqb_neq in E]); split_ifs; lia.
    + cbn [mbind result_bind]. intros [= <-].
      split_and!; [| | intros _ _ _].
      * destruct (_ =? 0) eqn:E; [|apply Z.eqb_neq in E]; split_ifs; lia.
      * intros [-> | ->]; (destruct (_ =? 0) eqn:E; [|apply Z.eqb_neq in E]); split_ifs; lia.
      * destruct (_ =? 0) eqn:E; [|apply Z.eqb_neq in E]; split_ifs; lia.
  - intros [= <-]. split_and!; [lia | lia | intros; lia].
Qed.

Lemma score_range_witness :
  -10 <= 13
  /\ (mem s_uk (parts_of_speech nf_entry) = false \/ false = true -> 0 <= 13)
  /\ (forall ps, priorities nf_entry = Some ps -> first_nf ps = None -> 13 <= 170).
Proof.
  apply (score_range int_of_digits round_half_even_div10 nf_entry false 13).
  reflexivity.
Defined.

(** X8: [get_priority_score] raises only through the rank of the first
    priority tag that starts with nf: it raises an exception exactly when
    [int] raises it on the text after the two letters, or [round] raises it
    on the rank. *)
Theorem score_raises_only_on_rank (py_int : str -> result Z)
    (py_round_div10 : Z -> result Z) (w : JmDictWord) (is_kana : bool) (e : exn) :
  get_priority_score py_int py_round_div10 w is_kana = Raise e
  <-> exists ps nf,
        priorities w = Some ps /\ first_nf ps = Some nf
        /\ (py_int (slice_from 2 nf) = Raise e
            \/ exists rank, py_int (slice_from 2 nf) = Ok rank
                            /\ py_round_div10 rank = Raise e).
Proof.
  unfold get_priority_score.
  destruct (priorities w) as [[|p ps]|] eqn:Hp.
  - split; [discriminate | intros (? & ? & [= <-] & [=] & _)].
  - destruct (first_nf (p :: ps)) as [nf|] eqn:Hnf.
    + destruct (py_int (slice_from 2 nf)) as [n|e1] eqn:Hint; cbn [mbind result_bind].
      * destruct (py_round_div10 n) as [r|e2] eqn:Hr; cbn [mbind result_bind].
        -- split; [discriminate |].
           intros (? & ? & [= <-] & Hnf' & H). rewrite Hnf in Hnf'. injection Hnf' as <-.
           destruct H as [H | (rank & H1 & H2)]; congruence.
        -- split.
           ++ intros [= <-]. exists (p :: ps), nf. split_and!; [done | done |].
              right. by exists n.
           ++ intros (? & ? & [= <-] & Hnf' & H). rewrite Hnf in Hnf'. injection Hnf' as <-.
              destruct H as [H | (rank & H1 & H2)]; congruence.
      * split.
        -- intros [= <-]. exists (p :: ps), nf. split_and!; [done | done | by left].
        -- intros (? & ? & [= <-] & Hnf' & H). rewrite Hnf in Hnf'. injection Hnf' as <-.
           destruct H as [H | (rank & H1 & H2)]; congruence.
    + cbn [mbind result_bind]. split; [discriminate |].
      intros (? & ? & [= <-] & Hnf' & _). congruence.
  - split; [discriminate | intros (? & ? & [=] & _)].
Qed.

End ScoreRange.

(** ** What the deconjugation loop returns *)

Module DeconjReach.

Import Deconj DeconjProps.
Local Open Scope nat_scope.

(** One firing: [form] is expanded by the loop of [deconjugate] (it is not
    skipped) and some rule of the table, applied at its index, yields [f']. *)
Definition fires (self : Deconjugator) (form f' : DeconjugationForm) : Prop :=
  _should_skip_form form = false
  /\ exists i rule s,
       rules self !! i = Some rule
       /\ _apply_rule self form rule i = Ok (Some s)
       /\ f' ∈ s.

(** The forms that firings lead to from the initial form of [t]. *)
Definition derivable (self : Deconjugator) (t : str) (f : DeconjugationForm) : Prop :=
  rtc (fires self) (_create_initial_form t) f.

Lemma add_if_new_elem processed novel new_novel f g :
  g ∈ add_if_new processed novel new_novel f
  <-> g ∈ new_novel \/ (g = f /\ f ∉ processed /\ f ∉ novel).
Proof.
  unfold add_if_new.
  destruct (bool_decide (f ∉ processed)) eqn:E1;
    destruct (bool_decide (f ∉ novel)) eqn:E2;
    destruct (bool_decide (f ∉ new_novel)) eqn:E3; cbn [andb];
    try apply bool_decide_eq_true in E1; try apply bool_decide_eq_false in E1;
    try apply bool_decide_eq_true in E2; try apply bool_decide_eq_false in E2;
    try apply bool_decide_eq_true in E3; try apply bool_decide_eq_false in E3;
    try (apply dec_stable in E3);
    set_solver.
Qed.

Lemma foldl_add_if_new_elem processed novel fs : forall new_novel g,
  g ∈ foldl (add_if_new processed novel) new_novel fs
  <-> g ∈ new_novel \/ (g ∈ fs /\ g ∉ processed /\ g ∉ novel).
Proof.
  induction fs as [|f fs IH]; intros nn g; cbn [foldl].
  - set_solver.
  - rewrite IH, add_if_new_elem. set_solver.
Qed.

Lemma rules_loop_elem self processed novel form rs : forall i new_novel r g,
  rules_loop self processed novel form rs i new_novel = Ok r ->
  g ∈ r
  <-> g ∈ new_novel
      \/ (g ∉ processed /\ g ∉ novel
          /\ exists k rule s,
               rs !! k = Some rule
               /\ _apply_rule self form rule (i + k) = Ok (Some s) /\ g ∈ s).
Proof.
  induction rs as [|rule rs IH]; intros i nn r g; cbn [rules_loop].
  - intros [= <-]. split; [by left |].
    intros [H | (_ & _ & k & rule & s & Hk & _)]; [exact H | by destruct k].
  - destruct (_apply_rule self form rule i) as [new_forms|] eqn:E; [|discriminate].
    cbn [mbind result_bind]. intros Hr. rewrite (IH _ _ _ _ Hr). clear IH Hr.
    split.
    + intros [Hg | (Hp & Hn & k & rule' & s & Hk & Ha & Hs)].
      * destruct new_forms as [fs|]; [|by left].
        apply foldl_add_if_new_elem in Hg as [Hg | (Hg & Hp & Hn)]; [by left |].
        right. split_and!; [exact Hp | exact Hn |].
        exists 0, rule, fs. rewrite Nat.add_0_r.
        split_and!; [reflexivity | exact E | by apply elem_of_elements].
      * right. split_and!; [exact Hp | exact Hn |].
        exists (S k), rule', s. rewrite <- Nat.add_succ_comm. by split_and!.
    + intros [Hg | (Hp & Hn & k & rule' & s & Hk & Ha & Hs)].
      * left. destruct new_forms as [fs|]; [|exact Hg].
        apply foldl_add_if_new_elem. by left.
      * destruct k as [|k].
        -- cbn in Hk. injection Hk as <-. rewrite Nat.add_0_r in Ha.
           rewrite E in Ha. injection Ha as ->.
           left. apply foldl_add_if_new_elem. right.
           split_and!; [by apply elem_of_elements | exact Hp | exact Hn].
        -- right. split_and!; [exact Hp | exact Hn |].
           exists k, rule', s. rewrite Nat.add_succ_comm. by split_and!.
Qed.

Lemma forms_loop_elem self processed novel fs : forall new_novel r g,
  forms_loop self processed novel fs new_novel = Ok r ->
  g ∈ r
  <-> g ∈ new_novel
      \/ (g ∉ processed /\ g ∉ novel /\ exists form, form ∈ fs /\ fires self form g).
Proof.
  induction fs as [|form fs IH]; intros nn r g; cbn [forms_loop].
  - intros [= <-]. split; [by left |].
    intros [H | (_ & _ & form & Hin & _)]; [exact H | by apply elem_of_nil in Hin].
  - destruct (_should_skip_form form) eqn:Hskip.
    + intros Hr. rewrite (IH _ _ _ Hr). split.
      * intros [Hg | (Hp & Hn & f & Hf & Hfire)]; [by left |].
        right. split_and!; [done | done |]. exists f. split; [by right | done].
      * intros [Hg | (Hp & Hn & f & Hf & Hfire)]; [by left |].
        apply elem_of_cons in Hf as [-> | Hf].
        -- destruct Hfire as [Hns _]. congruence.
        -- right. split_and!; [done | done |]. by exists f.
    + destruct (rules_loop self processed novel form (rules self) 0 nn) as [nn'|] eqn:E;
        [|discriminate].
      cbn [mbind result_bind]. intros Hr. rewrite (IH _ _ _ Hr).
      rewrite (rules_loop_elem _ _ _ _ _ _ _ _ g E). split.
      * intros [[Hg | (Hp & Hn & k & rule & s & Hk & Ha & Hs)]
               | (Hp & Hn & f & Hf & Hfire)].
        -- by left.
        -- right. split_and!; [done | done |]. exists form. split; [by left |].
           split; [exact Hskip |]. by exists k, rule, s.
        -- right. split_and!; [done | done |]. exists f. split; [by right | done].
      * intros [Hg | (Hp & Hn & f & Hf & Hfire)]; [by left; left |].
        apply elem_of_cons in Hf as [-> | Hf].
        -- left. right. split_and!; [done | done |].
           destruct Hfire as (_ & k & rule & s & Hk & Ha & Hs). by exists k, rule, s.
        -- right. split_and!; [done | done |]. by exists f.
Qed.

(** The worklist loop returns what it started from and what firings reach
    from there, and the set it returns admits no further firing out of it. *)
Lemma while_novel_reach fuel self : forall processed novel r,
  while_novel fuel self processed novel = Some (Ok r) ->
  (forall f g, f ∈ processed -> fires self f g -> g ∈ processed ∪ novel) ->
  processed ∪ novel ⊆ r
  /\ (forall g, g ∈ r -> exists f, f ∈ processed ∪ novel /\ rtc (fires self) f g)
  /\ (forall f g, f ∈ r -> fires self f g -> g ∈ r).
Proof.
  induction fuel as [|fuel IH]; intros processed novel r; cbn [while_novel].
  - case_decide as Hn; [|discriminate]. intros [= <-] Hcl. subst novel.
    split_and!; [set_solver | | ].
    + intros g Hg. exists g. split; [set_solver | apply rtc_refl].
    + intros f g Hf Hfire. specialize (Hcl f g Hf Hfire). set_solver.
  - case_decide as Hn.
    + intros [= <-] Hcl. subst novel.
      split_and!; [set_solver | | ].
      * intros g Hg. exists g. split; [set_solver | apply rtc_refl].
      * intros f g Hf Hfire. specialize (Hcl f g Hf Hfire). set_solver.
    + destruct (forms_loop self processed novel (elements novel) ∅) as [nn|] eqn:E;
        [|discriminate].
      intros Hw Hcl.
      pose proof (fun g => forms_loop_elem _ _ _ _ _ _ g E) as Hnn.
      apply IH in Hw as (Hsub & Hsound & Hclosed).
      * split_and!; [set_solver | | exact Hclosed].
        intros g Hg. destruct (Hsound g Hg) as (f & Hf & Hrtc).
        apply elem_of_union in Hf as [Hf | Hf]; [by exists f |].
        apply Hnn in Hf as [Hf | (_ & _ & form & Hform & Hfire)]; [set_solver |].
        exists form. split; [apply elem_of_elements in Hform; set_solver |].
        by eapply rtc_l.
      * intros f g Hf Hfire.
        apply elem_of_union in Hf as [Hf | Hf].
        -- specialize (Hcl f g Hf Hfire). set_solver.
        -- destruct (decide (g ∈ processed)) as [Hp | Hp]; [set_solver |].
           destruct (decide (g ∈ novel)) as [Hv | Hv]; [set_solver |].
           apply elem_of_union_r. apply Hnn. right. split_and!; [done | done |].
           exists f. split; [by apply elem_of_elements | done].
Qed.


(** X1: with the memo off (the class default), what [deconjugate] returns
    for a non-empty text is exactly the set of forms that firings of the
    table's rules reach from the initial form, through forms that
    [_should_skip_form] lets through; the memo is left alone. *)
Theorem deconjugate_returns_derivable (fuel : nat) (self : Deconjugator)
    (cache cache' : gmap str (gset DeconjugationForm)) (t : str)
    (r : gset DeconjugationForm) :
  t <> [] ->
  deconjugate fuel false self cache t = Some (Ok (r, cache')) ->
  cache' = cache /\ forall f, f ∈ r <-> derivable self t f.
Proof.
  intros Ht. unfold deconjugate. destruct t as [|c t']; [done |]. cbn [is_empty].
  destruct (while_novel fuel self ∅ {[_create_initial_form (c :: t')]})
    as [[processed|]|] eqn:E; try discriminate.
  cbn [andb]. intros [= <- <-]. split; [reflexivity |].
  apply while_novel_reach in E as (Hsub & Hsound & Hclosed); [|set_solver].
  intros f. split.
  - intros (f0 & Hf0 & Hrtc)%Hsound.
    assert (f0 = _create_initial_form (c :: t')) as -> by set_solver. exact Hrtc.
  - unfold derivable. intros Hrtc.
    assert (Hinit : _create_initial_form (c :: t') ∈ processed) by set_solver.
    assert (Hall : forall a b, rtc (fires self) a b -> a ∈ processed -> b ∈ processed).
    { induction 1 as [|a b d Hab _ IH]; [done |]. intros Ha. apply IH. by eapply Hclosed. }
    by eapply Hall.
Qed.


(** *** What a firing does to a form *)

Lemma substitution_loop_elem form rule idx : forall acc s f',
  substitution_loop form rule idx acc = Ok s -> f' ∈ s ->
  f' ∈ acc \/ exists ce de, _substitution_inner form ce de (detail rule) = Some f'.
Proof.
  induction idx as [|i idx IH]; intros acc s f'; cbn [substitution_loop].
  - intros [= <-]. by left.
  - destruct (index_or_first (dec_end rule) i) as [de|]; [|discriminate].
    destruct (index_or_first (con_end rule) i) as [ce|]; [|discriminate].
    cbn [mbind result_bind]. intros Hs Hin.
    destruct (IH _ _ _ Hs Hin) as [Hacc | Hex]; [|by right].
    destruct (_substitution_inner form ce de (detail rule)) as [ret|] eqn:E;
      [|by left].
    apply elem_of_union in Hacc as [->%elem_of_singleton | Hacc]; [|by left].
    right. by exists ce, de.
Qed.

Lemma substitution_elem form rule s f' :
  _substitution_deconjugate form rule = Ok (Some s) -> f' ∈ s ->
  process form = []
  /\ exists ce de, _substitution_inner form ce de (detail rule) = Some f'.
Proof.
  unfold _substitution_deconjugate. intros H Hin.
  destruct (process form) as [|p ps] eqn:Hp; [|discriminate]. cbn [is_empty negb orb] in H.
  split; [reflexivity |].
  destruct (is_empty (text form)); [discriminate |].
  case_decide.
  - destruct (index (con_end rule) 0) as [ce|]; [|discriminate].
    destruct (index (dec_end rule) 0) as [de|]; [|discriminate].
    cbn [mbind result_bind] in H.
    destruct (_substitution_inner form ce de (detail rule)) as [hit|] eqn:E;
      simplify_eq.
    apply elem_of_singleton in Hin as ->. by exists ce, de.
  - destruct (substitution_loop form rule _ ∅) as [c|] eqn:E; [|discriminate].
    cbn [mbind result_bind] in H. unfold nonempty_or_none in H.
    case_decide; simplify_eq.
    destruct (substitution_loop_elem _ _ _ _ _ _ E Hin) as [Hacc | Hex]; [set_solver | done].
Qed.

(** A firing is a hit of the core standard step, or a substitution on a form
    that no rule has touched yet. *)
Lemma fires_cases self form f' :
  fires self form f' ->
  (exists vr, _std_rule_deconjugate_inner form vr = Some f')
  \/ (process form = []
      /\ exists ce de d, _substitution_inner form ce de d = Some f').
Proof.
  intros (_ & i & rule & s & _ & Ha & Hin).
  apply apply_rule_std_or_substitution in Ha as [[_ H] | [_ H]].
  - left. by eapply std_rule_elem.
  - right. destruct (substitution_elem _ _ _ _ H Hin) as (Hp & ce & de & Hs).
    split; [exact Hp |]. by exists ce, de, (detail rule).
Qed.

Lemma create_new_form_tags form new_text ct dt d :
  length (tags (_create_new_form form new_text ct dt d))
  <= (if is_empty (tags form) then 2 else S (length (tags form))).
Proof.
  unfold _create_new_form. cbn [tags].
  destruct ct as [ct|], dt as [dt|], (tags form) as [|x l]; cbn; rewrite ?length_app; cbn; lia.
Qed.

(** What every derivable form records. *)
Definition recorded (t : str) (f : DeconjugationForm) : Prop :=
  original_text f = t
  /\ (process f = [] -> f = _create_initial_form t)
  /\ (text f = t -> length (process f) <= 1)
  /\ length (tags f) <= length (process f) + 1
  /\ length (tags f) <= length t + 7.

Lemma derivable_recorded self t f : t <> [] -> derivable self t f -> recorded t f.
Proof.
  intros Ht H. unfold derivable in H. revert f H.
  apply (rtc_ind_r (fun f => recorded t f)); [| intros f g Hfg Hfires IH].
  - unfold recorded. cbn. split_and!; try done; lia.
  - destruct IH as (Ho & Hp & Ht1 & Hlen & Hmax).
    pose proof Hfires as [Hskip _].
    apply fires_cases in Hfires as [[vr Hhit] | (Hproc & ce & de & d & Hsub)].
    + apply std_inner_hit in Hhit as (nt & Hne & ->).
      pose proof (create_new_form_tags f nt (v_con_tag vr) (v_dec_tag vr) (v_detail vr))
        as Htags.
      unfold _should_skip_form in Hskip.
      apply orb_false_iff in Hskip as [_ Hskip]. apply bool_decide_eq_false in Hskip.
      rewrite Ho in Hskip, Hne.
      set (f' := _create_new_form f nt _ _ _) in *.
      assert (process f' = process f ++ [v_detail vr]) as Hpr by reflexivity.
      assert (original_text f' = original_text f) as Hor by reflexivity.
      assert (text f' = nt) as Htx by reflexivity.
      unfold recorded. rewrite Hpr, Hor, Htx. clearbody f'.
      split_and!.
      * exact Ho.
      * intros Hnil. by apply app_eq_nil in Hnil as [_ ?].
      * intros Heq. by rewrite Heq in Hne.
      * rewrite length_app. cbn [length].
        destruct (tags f); cbn [is_empty length] in *; lia.
      * destruct (tags f); cbn [is_empty length] in *; [|lia].
        destruct t; [done | cbn [length]; lia].
    + unfold _substitution_inner in Hsub.
      destruct (negb (contains (text f) ce)); [discriminate |].
      injection Hsub as <-.
      unfold recorded, _create_substitution_form. cbn [original_text process text tags].
      rewrite Hproc in *. cbn [app length] in *.
      split_and!; [exact Ho | discriminate | lia | lia | lia].
Qed.

(** *** No exception without an empty [con_end] *)

Lemma index_0_Ok {A} (l : list A) : l <> [] -> exists a, index l 0 = Ok a.
Proof. destruct l as [|a l]; [done |]. by exists a. Qed.

Lemma index_lt_Ok {A} (l : list A) i : i < length l -> exists a, index l i = Ok a.
Proof.
  intros H. unfold index. destruct (lookup_lt_is_Some_2 l i H) as [a ->]. by exists a.
Qed.

Lemma index_or_first_Ok {A} (l : list A) i : l <> [] -> exists a, index_or_first l i = Ok a.
Proof.
  intros H. unfold index_or_first. case_decide; [by apply index_lt_Ok | by apply index_0_Ok].
Qed.

Lemma std_rule_returns self form rule i :
  con_end rule <> [] -> exists o, _std_rule_deconjugate self form rule i = Ok o.
Proof.
  intros Hc. unfold _std_rule_deconjugate.
  destruct (is_empty (detail rule) && is_empty (tags form)); [by eexists |].
  case_decide as Hlen.
  - destruct (index_0_Ok (dec_end rule)) as [de ->]; [by destruct (dec_end rule) |].
    destruct (index_0_Ok (con_end rule) Hc) as [ce ->].
    cbn [mbind result_bind]. by eexists.
  - destruct (_virtual_rules_cache self !! i) as [[|vr vrs]|]; by eexists.
Qed.

Lemma substitution_loop_returns form rule idx : forall acc,
  con_end rule <> [] -> Forall (fun i => i < length (dec_end rule)) idx ->
  exists s, substitution_loop form rule idx acc = Ok s.
Proof.
  induction idx as [|i idx IH]; intros acc Hc Hidx; cbn [substitution_loop].
  - by eexists.
  - apply Forall_cons in Hidx as [Hi Hidx].
    destruct (index_or_first_Ok (dec_end rule) i) as [de ->];
      [destruct (dec_end rule); [cbn in Hi; lia | done] |].
    destruct (index_or_first_Ok (con_end rule) i Hc) as [ce ->].
    cbn [mbind result_bind]. by apply IH.
Qed.

Lemma substitution_returns form rule :
  con_end rule <> [] -> exists o, _substitution_deconjugate form rule = Ok o.
Proof.
  intros Hc. unfold _substitution_deconjugate.
  destruct (negb (is_empty (process form)) || is_empty (text form)); [by eexists |].
  case_decide as Hlen.
  - destruct (index_0_Ok (con_end rule) Hc) as [ce ->].
    destruct (index_0_Ok (dec_end rule)) as [de ->]; [by destruct (dec_end rule) |].
    cbn [mbind result_bind]. by eexists.
  - destruct (substitution_loop_returns form rule (seq 0 (length (dec_end rule))) ∅ Hc)
      as [s ->].
    + apply Forall_forall. intros i Hi%elem_of_seq. lia.
    + cbn [mbind result_bind]. by eexists.
Qed.

Lemma sa_special_check_returns form rule :
  con_end rule <> [] -> exists b, _sa_special_check form rule = Ok b.
Proof.
  intros Hc. unfold _sa_special_check.
  destruct (is_empty (text form)); [by eexists |].
  destruct (index_0_Ok (con_end rule) Hc) as [ce ->]. cbn [mbind result_bind].
  destruct (negb (endswith (text form) ce)); [by eexists |].
  destruct (length (text form) - length ce) as [|p] eqn:E; [by eexists |].
  destruct (index_lt_Ok (text form) p) as [c ->]; [lia |].
  cbn [mbind result_bind]. by eexists.
Qed.

Lemma apply_rule_returns self form rule i :
  con_end rule <> [] -> exists o, _apply_rule self form rule i = Ok o.
Proof.
  intros Hc. unfold _apply_rule.
  repeat case_decide.
  - by apply std_rule_returns.
  - unfold _rewrite_rule_deconjugate.
    destruct (index_0_Ok (con_end rule) Hc) as [ce ->]. cbn [mbind result_bind].
    case_decide; [by apply std_rule_returns | by eexists].
  - unfold _only_final_rule_deconjugate.
    destruct (is_empty (tags form)); [by apply std_rule_returns | by eexists].
  - unfold _never_final_rule_deconjugate.
    destruct (negb (is_empty (tags form))); [by apply std_rule_returns | by eexists].
  - unfold _context_rule_deconjugate.
    destruct (bool_decide (context_rule rule = Some s_v1inftrap)
              && negb (_v1_inf_trap_check form)); [by eexists |].
    destruct (bool_decide (context_rule rule = Some s_saspecial)).
    + destruct (sa_special_check_returns form rule Hc) as [b ->].
      cbn [mbind result_bind].
      destruct (negb b); [by eexists | by apply std_rule_returns].
    + cbn [mbind result_bind]. by apply std_rule_returns.
  - by apply substitution_returns.
  - by eexists.
Qed.

Lemma rules_loop_returns self processed novel form rs : forall i new_novel,
  Forall (fun rule => con_end rule <> []) rs ->
  exists r, rules_loop self processed novel form rs i new_novel = Ok r.
Proof.
  induction rs as [|rule rs IH]; intros i nn Hrs; cbn [rules_loop].
  - by eexists.
  - apply Forall_cons in Hrs as [Hc Hrs].
    destruct (apply_rule_returns self form rule i Hc) as [o ->].
    cbn [mbind result_bind]. by apply IH.
Qed.

Lemma forms_loop_returns self processed novel fs : forall new_novel,
  Forall (fun rule => con_end rule <> []) (rules self) ->
  exists r, forms_loop self processed novel fs new_novel = Ok r.
Proof.
  induction fs as [|form fs IH]; intros nn Hrs; cbn [forms_loop].
  - by eexists.
  - destruct (_should_skip_form form); [by apply IH |].
    destruct (rules_loop_returns self processed novel form (rules self) 0 nn Hrs)
      as [nn' ->].
    cbn [mbind result_bind]. by apply IH.
Qed.

Lemma while_novel_no_raise fuel self : forall processed novel e,
  Forall (fun rule => con_end rule <> []) (rules self) ->
  while_novel fuel self processed novel <> Some (Raise e).
Proof.
  induction fuel as [|fuel IH]; intros processed novel e Hrs; cbn [while_novel].
  - by case_decide.
  - case_decide; [done |].
    destruct (forms_loop_returns self processed novel (elements novel) ∅ Hrs) as [nn ->].
    by apply IH.
Qed.


(** *** The memo *)

(** The memos that calls of one instance leave behind, starting from the
    empty one. *)
Inductive filled_by (self : Deconjugator) : gmap str (gset DeconjugationForm) -> Prop :=
| filled_empty : filled_by self empty_cache
| filled_call fuel USE_CACHE cache t r cache' :
    filled_by self cache ->
    deconjugate fuel USE_CACHE self cache t = Some (Ok (r, cache')) ->
    filled_by self cache'.

Definition cache_exact (self : Deconjugator)
    (cache : gmap str (gset DeconjugationForm)) : Prop :=
  forall t s, cache !! t = Some s -> t <> [] /\ forall f, f ∈ s <-> derivable self t f.

Lemma deconjugate_miss (fuel : nat) (USE_CACHE : bool) (self : Deconjugator)
    (cache cache' : gmap str (gset DeconjugationForm)) (t : str)
    (r : gset DeconjugationForm) :
  (if USE_CACHE then cache !! t else None) = None -> t <> [] ->
  deconjugate fuel USE_CACHE self cache t = Some (Ok (r, cache')) ->
  (forall f, f ∈ r <-> derivable self t f)
  /\ (cache' = cache \/ cache' = <[t := r]> cache).
Proof.
  intros Hmiss Ht. unfold deconjugate. rewrite Hmiss.
  destruct t as [|c t']; [done |]. cbn [is_empty].
  destruct (while_novel fuel self ∅ {[_create_initial_form (c :: t')]})
    as [[processed|]|] eqn:E; try discriminate.
  intros [= <- <-].
  split; [| match goal with |- context [if ?b then _ else _] => destruct b end; auto].
  apply while_novel_reach in E as (Hsub & Hsound & Hclosed); [|set_solver].
  intros f. split.
  - intros (f0 & Hf0 & Hrtc)%Hsound.
    assert (f0 = _create_initial_form (c :: t')) as -> by set_solver. exact Hrtc.
  - unfold derivable. intros Hrtc.
    assert (Hinit : _create_initial_form (c :: t') ∈ processed) by set_solver.
    assert (Hall : forall a b, rtc (fires self) a b -> a ∈ processed -> b ∈ processed).
    { induction 1 as [|a b d Hab _ IH]; [done |]. intros Ha. apply IH. by eapply Hclosed. }
    by eapply Hall.
Qed.

Lemma filled_by_exact self cache : filled_by self cache -> cache_exact self cache.
Proof.
  induction 1 as [|fuel uc cache t r cache' _ IH Hcall].
  - intros t s. unfold empty_cache. by rewrite lookup_empty.
  - destruct (if uc then cache !! t else None) as [cached|] eqn:Hhit.
    + unfold deconjugate in Hcall. rewrite Hhit in Hcall. by injection Hcall as <- <-.
    + destruct t as [|c t'].
      * unfold deconjugate in Hcall. rewrite Hhit in Hcall. by injection Hcall as <- <-.
      * assert (c :: t' <> []) as Hne0 by done.
        destruct (deconjugate_miss _ _ _ _ _ _ _ Hhit Hne0 Hcall)
          as [Hr [-> | ->]]; [exact IH |].
        intros t2 s2. destruct (decide (c :: t' = t2)) as [<- | Hne].
        -- rewrite lookup_insert_eq. intros [= <-]. by split.
        -- rewrite lookup_insert_ne by exact Hne. apply IH.
Qed.

(** *** Building the instance *)

Lemma mapM_Ok_length {A B} (f : A -> result B) (l : list A) : forall bs,
  mapM f l = Ok bs ->
  length bs = length l
  /\ forall k a b, l !! k = Some a -> bs !! k = Some b -> f a = Ok b.
Proof.
  induction l as [|a l IH]; intros bs; cbn [mapM].
  - intros [= <-]. split; [done |]. by intros [|k].
  - destruct (f a) as [b|] eqn:E; [|discriminate]. cbn [mbind result_bind].
    destruct (mapM f l) as [bs'|] eqn:E2; [|discriminate]. cbn [mbind result_bind].
    intros [= <-]. destruct (IH _ eq_refl) as [Hlen Hk].
    split; [cbn; by rewrite Hlen |].
    intros [|k] a' b'; cbn; [by intros [= <-] [= <-] | by apply Hk].
Qed.

Lemma mapM_returns {A B} (f : A -> result B) (l : list A) :
  Forall (fun a => exists b, f a = Ok b) l -> exists bs, mapM f l = Ok bs.
Proof.
  induction 1 as [|a l [b Hb] _ [bs IH]]; cbn [mapM]; [by eexists |].
  rewrite Hb, IH. cbn [mbind result_bind]. by eexists.
Qed.

Lemma opt_tag_at_returns t i : exists o, opt_tag_at t i = Ok o.
Proof.
  unfold opt_tag_at. destruct t as [[|x l]|]; [by eexists | | by eexists].
  destruct (index_or_first_Ok (x :: l) i) as [a ->]; [done |].
  cbn [mbind result_bind]. by eexists.
Qed.

Lemma virtual_rule_at_returns rule i :
  i < length (dec_end rule) -> con_end rule <> [] ->
  exists vr, virtual_rule_at rule i = Ok vr.
Proof.
  intros Hi Hc. unfold virtual_rule_at.
  destruct (index_or_first_Ok (dec_end rule) i) as [de ->];
    [destruct (dec_end rule); [cbn in Hi; lia | done] |].
  destruct (index_or_first_Ok (con_end rule) i Hc) as [ce ->].
  destruct (opt_tag_at_returns (dec_tag rule) i) as [dt ->].
  destruct (opt_tag_at_returns (con_tag rule) i) as [ct ->].
  cbn [mbind result_bind]. by eexists.
Qed.

Lemma virtual_rule_at_raises rule i :
  i < length (dec_end rule) -> con_end rule = [] ->
  virtual_rule_at rule i = Raise IndexError.
Proof.
  intros Hi Hc. unfold virtual_rule_at.
  destruct (index_or_first_Ok (dec_end rule) i) as [de ->];
    [destruct (dec_end rule); [cbn in Hi; lia | done] |].
  rewrite Hc. reflexivity.
Qed.

(** What the virtual-rule table must hold for the rule at index [i] of the
    rule list. *)
Definition cached_for (rule : DeconjugationRule)
    (entry : option (list DeconjugationVirtualRule)) : Prop :=
  if decide (length (dec_end rule) <= 1) then entry = None
  else exists vrs,
         entry = Some vrs /\ length vrs = length (dec_end rule)
         /\ forall k vr, vrs !! k = Some vr -> virtual_rule_at rule k = Ok vr.

Lemma cache_virtual_rules_returns cache rule i :
  (1 < length (dec_end rule) -> con_end rule <> []) ->
  cache !! i = None ->
  exists cache',
    _cache_virtual_rules cache rule i = Ok cache'
    /\ cached_for rule (cache' !! i)
    /\ forall j, j <> i -> cache' !! j = cache !! j.
Proof.
  intros Hc Hfree. unfold _cache_virtual_rules, cached_for. case_decide as Hlen.
  - exists cache. by split_and!.
  - destruct (mapM_returns (virtual_rule_at rule) (seq 0 (length (dec_end rule))))
      as [vrs Hvrs].
    { apply Forall_forall. intros k Hk%elem_of_seq.
      apply virtual_rule_at_returns; [lia | apply Hc; lia]. }
    rewrite Hvrs. cbn [mbind result_bind]. eexists. split; [reflexivity |].
    split; [| intros j Hj; by rewrite lookup_insert_ne].
    exists vrs. rewrite lookup_insert_eq. split; [reflexivity |].
    apply mapM_Ok_length in Hvrs as [Hl Hk]. rewrite length_seq in Hl.
    split; [exact Hl |].
    intros k vr Hvr. apply (Hk k k vr); [|exact Hvr].
    apply lookup_seq. split; [reflexivity |]. apply lookup_lt_Some in Hvr. lia.
Qed.

Lemma cache_virtual_rules_raises cache rule i :
  1 < length (dec_end rule) -> con_end rule = [] ->
  _cache_virtual_rules cache rule i = Raise IndexError.
Proof.
  intros Hlen Hc. unfold _cache_virtual_rules. rewrite decide_False by lia.
  destruct (length (dec_end rule)) as [|n] eqn:E; [lia |].
  cbn [seq mapM]. rewrite virtual_rule_at_raises by (rewrite ?E; done || lia).
  reflexivity.
Qed.

Definition accepted (rule : DeconjugationRule) : Prop :=
  1 < length (dec_end rule) -> con_end rule <> [].

Lemma init_loop_returns rules_data : forall i self0,
  Forall accepted rules_data ->
  length (rules self0) = i ->
  (forall j, i <= j -> _virtual_rules_cache self0 !! j = None) ->
  exists self,
    init_loop rules_data i self0 = Ok self
    /\ rules self = rules self0 ++ rules_data
    /\ (forall j, j < i -> _virtual_rules_cache self !! j = _virtual_rules_cache self0 !! j)
    /\ (forall k rule, rules_data !! k = Some rule ->
          cached_for rule (_virtual_rules_cache self !! (i + k)))
    /\ (forall j, i + length rules_data <= j -> _virtual_rules_cache self !! j = None).
Proof.
  induction rules_data as [|rule rest IH]; intros i self0 Hacc Hlen Hfree;
    cbn [init_loop].
  - exists self0. split_and!; [done | by rewrite app_nil_r | done | by intros [|k] | ].
    intros j Hj. apply Hfree. cbn in Hj. lia.
  - apply Forall_cons in Hacc as [Hrule Hacc].
    destruct (cache_virtual_rules_returns (_virtual_rules_cache self0) rule i Hrule)
      as (cache' & -> & Hmine & Hother); [by apply Hfree |].
    cbn [mbind result_bind].
    destruct (IH (S i) {| rules := rules self0 ++ [rule]; _virtual_rules_cache := cache' |}
                Hacc) as (self & -> & Hrules & Hlow & Hentries & Hhigh).
    { cbn. rewrite length_app. cbn. lia. }
    { intros j Hj. cbn. rewrite Hother by lia. apply Hfree. lia. }
    cbn [rules _virtual_rules_cache] in *.
    exists self. split_and!.
    + reflexivity.
    + by rewrite Hrules, <- app_assoc.
    + intros j Hj. rewrite Hlow by lia. apply Hother. lia.
    + intros [|k] rule' Hk.
      * cbn in Hk. injection Hk as <-. rewrite Nat.add_0_r, Hlow by lia. exact Hmine.
      * cbn in Hk. rewrite <- Nat.add_succ_comm. by apply Hentries.
    + intros j Hj. apply Hhigh. cbn [length] in Hj. lia.
Qed.

Lemma init_loop_raises rules_data : forall i self0,
  Exists (fun rule => 1 < length (dec_end rule) /\ con_end rule = []) rules_data ->
  init_loop rules_data i self0 = Raise IndexError.
Proof.
  induction rules_data as [|rule rest IH]; intros i self0 Hex; cbn [init_loop].
  - by apply Exists_nil in Hex.
  - destruct (decide (1 < length (dec_end rule) /\ con_end rule = [])) as [[H1 H2] | Hn].
    + by rewrite cache_virtual_rules_raises.
    + apply Exists_cons in Hex as [Hex | Hex]; [done |].
      destruct (_cache_virtual_rules (_virtual_rules_cache self0) rule i) as [c|e] eqn:E.
      * cbn [mbind result_bind]. by apply IH.
      * unfold _cache_virtual_rules in E. case_decide as Hlen; [discriminate |].
        destruct (con_end rule) as [|ce ces] eqn:Hce; [exfalso; apply Hn; split; [lia | done] |].
        destruct (mapM_returns (virtual_rule_at rule) (seq 0 (length (dec_end rule))))
          as [vrs Hvrs].
        { apply Forall_forall. intros k Hk%elem_of_seq.
          apply virtual_rule_at_returns; [lia | by rewrite Hce]. }
        rewrite Hvrs in E. discriminate.
Qed.


Lemma deconjugate_returns_derivable_witness :
  empty_cache = empty_cache
  /\ forall f, f ∈ ({[tabeta_0; tabeta_1; tabeta_2]} : gset DeconjugationForm)
               <-> derivable retagging (u "食べた") f.
Proof.
  apply (deconjugate_returns_derivable 3 retagging empty_cache empty_cache (u "食べた")).
  - compute_done.
  - compute_done.
Defined.

(** X2: in a set returned by [deconjugate] with the memo off, the initial form
    is the only form with an empty [process]; a form whose text is the input
    text has at most one entry in [process] (it is the initial form or a
    substitution made on it); and a form has at most one tag more than
    [process] has entries, and at most seven more than the input has
    characters. *)
Theorem deconjugate_records_derivation (fuel : nat) (self : Deconjugator)
    (cache cache' : gmap str (gset DeconjugationForm)) (t : str)
    (r : gset DeconjugationForm) (f : DeconjugationForm) :
  deconjugate fuel false self cache t = Some (Ok (r, cache')) ->
  f ∈ r ->
  (process f = [] <-> f = _create_initial_form t)
  /\ (text f = t -> length (process f) <= 1)
  /\ length (tags f) <= length (process f) + 1
  /\ length (tags f) <= length t + 7.
Proof.
  intros Hcall Hf.
  destruct t as [|c t'].
  { cbn in Hcall. injection Hcall as <- _. set_solver. }
  assert (c :: t' <> []) as Ht by done.
  destruct (deconjugate_returns_derivable _ _ _ _ _ _ Ht Hcall) as [_ Hr].
  apply Hr in Hf. apply derivable_recorded in Hf as (_ & Hp & Ht1 & Hlen & Hmax); [|done].
  split_and!; [| exact Ht1 | exact Hlen | exact Hmax].
  split; [exact Hp | by intros ->].
Qed.

Lemma deconjugate_records_derivation_witness :
  (process tabeta_2 = [] <-> tabeta_2 = _create_initial_form (u "食べた"))
  /\ (text tabeta_2 = u "食べた" -> length (process tabeta_2) <= 1)
  /\ length (tags tabeta_2) <= length (process tabeta_2) + 1
  /\ length (tags tabeta_2) <= length (u "食べた") + 7.
Proof.
  apply (deconjugate_records_derivation 3 retagging empty_cache empty_cache (u "食べた")
           {[tabeta_0; tabeta_1; tabeta_2]}).
  - compute_done.
  - compute_done.
Defined.

(** X3: when every rule of the table has at least one [con_end], a call of
    [deconjugate] raises no exception, whatever the text, the memo and the
    setting of [USE_CACHE] are. *)
Theorem deconjugate_never_raises (fuel : nat) (USE_CACHE : bool) (self : Deconjugator)
    (cache : gmap str (gset DeconjugationForm)) (t : str) (e : exn) :
  Forall (fun rule => con_end rule <> []) (rules self) ->
  deconjugate fuel USE_CACHE self cache t <> Some (Raise e).
Proof.
  intros Hrs. unfold deconjugate.
  destruct (if USE_CACHE then cache !! t else None); [done |].
  destruct (is_empty t); [done |].
  pose proof (while_novel_no_raise fuel self ∅ {[_create_initial_form t]}) as Hw.
  destruct (while_novel fuel self ∅ {[_create_initial_form t]}) as [[p|e']|]; try done.
  intros [= ->]. by eapply Hw.
Qed.

Lemma deconjugate_never_raises_witness :
  deconjugate 3 true ichidan empty_cache (u "食べた") <> Some (Raise IndexError).
Proof.
  apply (deconjugate_never_raises 3 true ichidan empty_cache (u "食べた") IndexError).
  repeat constructor; discriminate.
Defined.

(** X4: a memo filled by calls of one instance does not change what that
    instance returns: on the same memo and text, a call with [USE_CACHE] on
    and a call with [USE_CACHE] off return the same set (whenever both
    return). *)
Theorem memo_does_not_change_results (self : Deconjugator)
    (cache c1 c2 : gmap str (gset DeconjugationForm)) (fuel1 fuel2 : nat) (t : str)
    (r1 r2 : gset DeconjugationForm) :
  filled_by self cache ->
  deconjugate fuel1 true self cache t = Some (Ok (r1, c1)) ->
  deconjugate fuel2 false self cache t = Some (Ok (r2, c2)) ->
  r1 = r2.
Proof.
  intros Hfilled%filled_by_exact H1 H2.
  destruct t as [|c t'].
  { cbn in H2. injection H2 as <- _. unfold deconjugate in H1.
    destruct (cache !! []) as [s|] eqn:E; [by destruct (Hfilled _ _ E) |].
    cbn in H1. by injection H1 as <- _. }
  assert (c :: t' <> []) as Ht by done.
  destruct (deconjugate_returns_derivable _ _ _ _ _ _ Ht H2) as [_ Hr2].
  apply set_eq. intros f. rewrite Hr2.
  destruct (cache !! (c :: t')) as [s|] eqn:E.
  - unfold deconjugate in H1. rewrite E in H1. injection H1 as <- _.
    by destruct (Hfilled _ _ E) as [_ Hs].
  - by destruct (deconjugate_miss fuel1 true self cache c1 (c :: t') r1 E Ht H1) as [Hr1 _].
Qed.

Lemma memo_does_not_change_results_witness :
  filled_by retagging tabeta_cache
  /\ ({[tabeta_0; tabeta_1; tabeta_2]} : gset DeconjugationForm)
     = {[tabeta_0; tabeta_1; tabeta_2]}.
Proof.
  assert (filled_by retagging tabeta_cache) as Hfilled.
  { apply (filled_call retagging 3 true empty_cache (u "食べた")
             {[tabeta_0; tabeta_1; tabeta_2]} tabeta_cache).
    - apply filled_empty.
    - compute_done. }
  split; [exact Hfilled |].
  apply (memo_does_not_change_results retagging tabeta_cache tabeta_cache tabeta_cache
           0 3 (u "食べた")).
  - exact Hfilled.
  - compute_done.
  - compute_done.
Defined.

Lemma opt_tag_at_lookup (t : option (list str)) k o :
  opt_tag_at t k = Ok o ->
  o = (l ← t; l !! (if decide (k < length l) then k else 0)).
Proof.
  unfold opt_tag_at. destruct t as [[|x l]|]; [by intros [= <-] | | by intros [= <-]].
  destruct (index_or_first (x :: l) k) as [a|] eqn:E; [|discriminate].
  cbn [mbind result_bind]. intros [= <-].
  apply index_or_first_lookup in E. cbn [mbind option_bind]. by rewrite E.
Qed.

(** The fields of the virtual rule built at position [k]. *)
Lemma virtual_rule_at_fields rule k vr :
  k < length (dec_end rule) ->
  virtual_rule_at rule k = Ok vr ->
  dec_end rule !! k = Some (v_dec_end vr)
  /\ con_end rule !! (if decide (k < length (con_end rule)) then k else 0)
     = Some (v_con_end vr)
  /\ v_dec_tag vr = (l ← dec_tag rule; l !! (if decide (k < length l) then k else 0))
  /\ v_con_tag vr = (l ← con_tag rule; l !! (if decide (k < length l) then k else 0))
  /\ v_detail vr = detail rule.
Proof.
  intros Hk. unfold virtual_rule_at.
  destruct (index_or_first (dec_end rule) k) as [de|] eqn:Hde; [|discriminate].
  destruct (index_or_first (con_end rule) k) as [ce|] eqn:Hce; [|discriminate].
  destruct (opt_tag_at (dec_tag rule) k) as [dt|] eqn:Hdt; [|discriminate].
  destruct (opt_tag_at (con_tag rule) k) as [ct|] eqn:Hct; [|discriminate].
  cbn [mbind result_bind]. intros [= <-].
  cbn [v_dec_end v_con_end v_dec_tag v_con_tag v_detail].
  apply index_or_first_lookup in Hde, Hce. rewrite decide_True in Hde by exact Hk.
  apply opt_tag_at_lookup in Hdt, Hct.
  by split_and!.
Qed.


(** Undoes the polite past of a godan verb in く or す: two endings, one
    [con_tag] shared by both. *)
Definition rule_godan : DeconjugationRule :=
  {| type := s_stdrule; detail := u "polite past";
     dec_end := [u "く"; u "す"]; con_end := [u "きました"; u "しました"];
     context_rule := None; dec_tag := Some [u "v5k"; u "v5s"];
     con_tag := Some [u "stem-past"] |}.

(** Two endings to put back and none to take off. *)
Definition rule_no_con_end : DeconjugationRule :=
  {| type := s_stdrule; detail := u "broken";
     dec_end := [u "く"; u "す"]; con_end := [];
     context_rule := None; dec_tag := None; con_tag := None |}.



(** *** A table on which the loop does not end *)

(** Appends a character to any form. *)
Definition rule_grow : DeconjugationRule := std_rule [] (u "x") None None (u "grow").

(** Leaves the text as it is; only [process] gets longer. *)
Definition rule_stay : DeconjugationRule := std_rule [] [] None None (u "stay").

Definition growing : Deconjugator :=
  {| rules := [rule_grow; rule_stay]; _virtual_rules_cache := ∅ |}.

(** The form that [rule_grow] and then [n] firings of [rule_stay] make of the
    initial form of [t]. *)
Definition stayed (t : str) (n : nat) : DeconjugationForm :=
  {| text := t ++ u "x"; original_text := t; tags := [];
     seen_text := {[t ++ u "x"; t]};
     process := u "grow" :: repeat (u "stay") n |}.

Definition live (t : str) (n : nat) : DeconjugationForm :=
  match n with
  | O => _create_initial_form t
  | S n' => stayed t n'
  end.

Lemma fires_process self f g :
  fires self f g -> length (process g) = S (length (process f)).
Proof.
  intros [[vr Hhit] | (_ & ce & de & d & Hsub)]%fires_cases.
  - apply std_inner_hit in Hhit as (nt & _ & ->). cbn. rewrite length_app. cbn. lia.
  - unfold _substitution_inner in Hsub. case_match; [discriminate |].
    injection Hsub as <-. cbn. rewrite length_app. cbn. lia.
Qed.

Lemma endswith_nil (s : str) : endswith s [] = true.
Proof. unfold endswith. cbn [rev]. by destruct (rev s). Qed.

Lemma snoc_ne (t x : str) : x <> [] -> t ++ x <> t.
Proof.
  intros Hx H. apply (f_equal length) in H. rewrite length_app in H.
  destruct x; [done | cbn in H; lia].
Qed.

(** A tag-free standard rule with an empty [con_end] appends its [dec_end]. *)
Lemma appending_rule_fires self form (x d : str) i :
  tags form = [] -> d <> [] -> text form ++ x <> original_text form ->
  _apply_rule self form (std_rule [] x None None d) i
  = Ok (Some {[_create_new_form form (text form ++ x) None None d]}).
Proof.
  intros Htags Hd Hne.
  unfold _apply_rule. cbn [type std_rule]. rewrite decide_True by done.
  unfold _std_rule_deconjugate.
  cbn [detail std_rule dec_end con_end dec_tag con_tag first_tag length index lookup
       list_lookup mbind result_bind].
  destruct d as [|d0 d']; [done |]. cbn [is_empty andb].
  rewrite decide_True by done.
  unfold _std_rule_deconjugate_inner. cbn [v_con_end v_dec_end v_con_tag v_dec_tag v_detail].
  rewrite endswith_nil, Htags. cbn [negb is_empty andb length].
  rewrite Nat.sub_0_r. unfold slice_to. rewrite firstn_all.
  by rewrite decide_False by exact Hne.
Qed.

Lemma not_skipped form :
  text form <> [] ->
  length (text form) <= length (original_text form) + 10 ->
  length (tags form) <= length (original_text form) + 6 ->
  _should_skip_form form = false.
Proof.
  intros Ht H1 H2. unfold _should_skip_form.
  rewrite !bool_decide_eq_false_2 by lia. by destruct (text form).
Qed.

Lemma stay_step t n :
  _create_new_form (stayed t n) (text (stayed t n)) None None (u "stay")
  = stayed t (S n).
Proof.
  unfold _create_new_form. cbn [text original_text tags seen_text process stayed].
  rewrite decide_False by set_solver.
  unfold stayed. f_equal; [set_solver |].
  rewrite <- app_comm_cons. f_equal. cbn [repeat]. symmetry. apply repeat_cons.
Qed.

Lemma live_fires t n : t <> [] -> fires growing (live t n) (live t (S n)).
Proof.
  intros Ht. destruct n as [|n]; cbn [live].
  - split.
    + apply not_skipped; cbn; [done | lia | lia].
    + exists 0, rule_grow, {[stayed t 0]}. split_and!; [done | | set_solver].
      unfold rule_grow. rewrite appending_rule_fires;
        [| done | done | apply snoc_ne; done].
      do 3 f_equal. unfold _create_new_form, stayed. cbn.
      rewrite decide_True by done. f_equal. set_solver.
  - split.
    + apply not_skipped; cbn [text original_text tags stayed length];
        rewrite ?length_app; change (length (u "x")) with 1;
        [by destruct t | lia | lia].
    + exists 1, rule_stay, {[stayed t (S n)]}. split_and!; [done | | set_solver].
      unfold rule_stay. rewrite appending_rule_fires;
        [| done | done | cbn [text stayed original_text]; rewrite app_nil_r;
                         apply snoc_ne; done].
      do 3 f_equal. rewrite app_nil_r. apply stay_step.
Qed.

Lemma live_process t n : length (process (live t n)) = n.
Proof. destruct n; cbn; [done |]. by rewrite repeat_length. Qed.

Lemma while_novel_growing t fuel : t <> [] -> forall n processed novel,
  (forall f, f ∈ processed -> length (process f) < n) ->
  (forall f, f ∈ novel -> length (process f) = n) ->
  live t n ∈ novel ->
  while_novel fuel growing processed novel = None.
Proof.
  intros Ht. induction fuel as [|fuel IH]; intros n processed novel Hp Hn Hlive;
    cbn [while_novel].
  - rewrite decide_False by set_solver. reflexivity.
  - rewrite decide_False by set_solver.
    destruct (forms_loop_returns growing processed novel (elements novel) ∅) as [nn E].
    { repeat constructor; discriminate. }
    rewrite E.
    pose proof (fun g => forms_loop_elem _ _ _ _ _ _ g E) as Hnn.
    apply (IH (S n)).
    + intros f [Hf | Hf]%elem_of_union; [apply Hp in Hf; lia | apply Hn in Hf; lia].
    + intros g [Hg | (_ & _ & f & Hf & Hfire)]%Hnn; [set_solver |].
      apply elem_of_elements in Hf. rewrite (fires_process _ _ _ Hfire).
      by rewrite (Hn f Hf).
    + apply Hnn. right. split_and!.
      * intros Hin. apply Hp in Hin. rewrite live_process in Hin. lia.
      * intros Hin. apply Hn in Hin. rewrite live_process in Hin. lia.
      * exists (live t n). split; [by apply elem_of_elements | by apply live_fires].
Qed.

(** X6: the loop of [deconjugate] need not end. With one rule that appends a
    character and one that leaves the text as it is (both with a detail and no
    tags), every round finds a form with a longer [process], so on every
    non-empty text no number of rounds empties the frontier. *)
Theorem deconjugate_can_run_forever (fuel : nat) (USE_CACHE : bool) (t : str) :
  t <> [] ->
  deconjugate fuel USE_CACHE growing empty_cache t = None.
Proof.
  intros Ht. unfold deconjugate, empty_cache.
  replace (if USE_CACHE then (∅ : gmap str (gset DeconjugationForm)) !! t else None)
    with (@None (gset DeconjugationForm)) by (destruct USE_CACHE; by rewrite ?lookup_empty).
  destruct t as [|c t']; [done |]. cbn [is_empty].
  rewrite (while_novel_growing (c :: t') fuel Ht 0); [done | set_solver | | set_solver].
  by intros f ->%elem_of_singleton.
Qed.

Lemma deconjugate_can_run_forever_witness :
  deconjugate 1000 false growing empty_cache (u "た") = None.
Proof. apply (deconjugate_can_run_forever 1000 false (u "た")). compute_done. Defined.

End DeconjReach.

(** ** Preprocessing and sentences *)

Module SentenceProps.

Import Morph MorphProps.
Local Open Scope nat_scope.

(** *** What [replace] can put into a string *)

Lemma replace_ne_Forall (P : N -> Prop) (old new : str) fuel : forall s,
  Forall P s -> Forall P new -> Forall P (replace_ne fuel s old new).
Proof.
  induction fuel as [|fuel IH]; intros s Hs Hnew; cbn [replace_ne]; [exact Hs |].
  destruct s as [|c s']; [constructor |].
  destruct (startswith (c :: s') old).
  - apply Forall_app. split; [exact Hnew |]. apply IH; [|exact Hnew].
    by apply Forall_drop.
  - apply Forall_cons in Hs as [Hc Hs]. apply Forall_cons. split; [exact Hc |].
    by apply IH.
Qed.

Lemma replace_Forall (P : N -> Prop) (s old new : str) :
  Forall P s -> Forall P new -> Forall P (replace s old new).
Proof.
  intros Hs Hnew. unfold replace. destruct old as [|o old'].
  - induction Hs as [|c s Hc _ IH]; cbn [replace_empty]; [exact Hnew |].
    apply Forall_app. split; [exact Hnew |]. by apply Forall_cons.
  - by apply replace_ne_Forall.
Qed.

Lemma startswith_Forall (P : N -> Prop) (p : str) : forall s,
  startswith s p = true -> Forall P s -> Forall P p.
Proof.
  induction p as [|c p IH]; intros s; [constructor |].
  destruct s as [|d s]; cbn [startswith]; [discriminate |].
  destruct (decide (c = d)) as [<- |]; [|discriminate].
  intros Hs [Hc Hrest]%Forall_cons. apply Forall_cons. split; [exact Hc |].
  by apply (IH s).
Qed.

(** A pattern with a character that the string cannot hold is not found. *)
Lemma replace_absent (P : N -> Prop) (s old new : str) :
  Forall P s -> ~ Forall P old -> replace s old new = s.
Proof.
  intros Hs Hold. unfold replace.
  destruct old as [|o old']; [destruct Hold; constructor |].
  generalize (length s) as fuel. intros fuel. revert s Hs.
  induction fuel as [|fuel IH]; intros s Hs; cbn [replace_ne]; [reflexivity |].
  destruct s as [|c s']; [reflexivity |].
  destruct (startswith (c :: s') (o :: old')) eqn:E.
  - destruct Hold. by eapply startswith_Forall.
  - f_equal. apply IH. by apply Forall_cons in Hs as [_ ?].
Qed.

(** The characters of a text handed to the tokenizer: those of the character
    class, and the space that the forced breaks insert. *)
Definition passes_filter (c : N) : Prop := allowed_char c = true \/ c = 32%N.

(** X9: whatever the input, every character of the text that [_preprocess_text]
    returns belongs to the character class of its filter or is a space put in
    by the forced breaks; so no character outside the class survives, the
    angle brackets included. *)
Theorem preprocess_text_keeps_allowed_chars (t : str) :
  Forall passes_filter (_preprocess_text t)
  /\ contains (_preprocess_text t) (u "<") = false
  /\ contains (_preprocess_text t) (u ">") = false.
Proof.
  assert (H : Forall passes_filter (_preprocess_text t)).
  { unfold _preprocess_text.
    assert (Hlit : forall s : str,
              forallb (fun c => allowed_char c || (c =? 32)%N) s = true ->
              Forall passes_filter s).
    { intros s Hs. apply Forall_forall. intros c Hc.
      rewrite forallb_forall in Hs. apply list_elem_of_In in Hc.
      specialize (Hs c Hc). apply orb_true_iff in Hs as [Hs | Hs%N.eqb_eq];
        [by left | by right]. }
    assert (Hnot : forall s : str,
              existsb (fun c => negb (allowed_char c || (c =? 32)%N)) s = true ->
              ~ Forall passes_filter s).
    { intros s Hs Hall. apply existsb_exists in Hs as (c & Hc & Hbad).
      rewrite Forall_forall in Hall. apply list_elem_of_In in Hc.
      apply negb_true_iff, orb_false_iff in Hbad as [Hb1 Hb2%N.eqb_neq].
      destruct (Hall _ Hc) as [H | H]; congruence. }
    repeat first
      [ apply replace_Forall; [| apply Hlit; vm_compute; reflexivity]
      | match goal with
        | |- Forall _ (replace ?a ?old ?new) =>
          let Ha := fresh "Ha" in
          assert (Forall passes_filter a) as Ha;
            [| rewrite (replace_absent passes_filter a old new Ha)
                 by (apply Hnot; vm_compute; reflexivity);
               exact Ha]
        end ].
    apply Forall_forall. intros c Hc. apply list_elem_of_In in Hc.
    apply filter_In in Hc as [_ Hc]. by left. }
  split; [exact H |].
  assert (Hno : forall (x : N) (s : str),
            Forall passes_filter s -> ~ passes_filter x -> contains s [x] = false).
  { intros x s Hs Hx. unfold contains.
    assert (Hgen : forall pos, find_from s [x] pos = None).
    { induction Hs as [|c s Hc _ IH]; intros pos; cbn [find_from startswith];
        [reflexivity |].
      destruct (decide (x = c)) as [-> | Hne]; [done |]. apply IH. }
    by rewrite Hgen. }
  split; apply Hno; try exact H; intros [Hc | Hc]; vm_compute in Hc; discriminate.
Qed.


(** *** Splitting into sentences *)

Abbreviation stext := SentenceInfo.text.
Abbreviation swords := SentenceInfo.words.

Lemma split_chars_concat chars : forall sentences cur seen ss cur',
  split_chars chars sentences cur seen = (ss, cur') ->
  concat ss ++ cur' = concat sentences ++ cur ++ chars.
Proof.
  induction chars as [|char rest IH]; intros sentences cur seen ss cur';
    cbn [split_chars].
  - intros [= <- <-]. by rewrite app_nil_r.
  - destruct (isin char _SENTENCE_ENDERS).
    + intros H%IH. rewrite H. by rewrite <- !app_assoc.
    + destruct seen.
      * intros H%IH. rewrite H. rewrite removelast_last, concat_app. cbn [concat].
        by rewrite app_nil_r, <- !app_assoc.
      * intros H%IH. rewrite H. by rewrite <- !app_assoc.
Qed.

(** No sentence is empty. *)
Lemma split_chars_nonempty chars : forall sentences cur seen ss cur',
  split_chars chars sentences cur seen = (ss, cur') ->
  Forall (fun s => s <> []) sentences -> (seen = true -> cur <> []) ->
  Forall (fun s => s <> []) ss /\ (cur <> [] \/ chars <> [] -> cur' <> []).
Proof.
  induction chars as [|char rest IH]; intros sentences cur seen ss cur';
    cbn [split_chars].
  - intros [= <- <-] Hs _. split; [exact Hs |]. by intros [? | ?].
  - destruct (isin char _SENTENCE_ENDERS).
    + intros H Hs Hc. apply IH in H as [H1 H2]; [| exact Hs | by destruct cur].
      split; [exact H1 |]. intros _. apply H2. left. by destruct cur.
    + destruct seen.
      * intros H Hs Hc. rewrite removelast_last in H.
        apply IH in H as [H1 H2]; [| | done].
        -- split; [exact H1 |]. intros _. apply H2. by left.
        -- apply Forall_app. split; [exact Hs |]. apply Forall_cons.
           split; [by apply Hc | constructor].
      * intros H Hs Hc. apply IH in H as [H1 H2]; [| exact Hs | done].
        split; [exact H1 |]. intros _. apply H2. left. by destruct cur.
Qed.

(** *** Finding a word in a sentence *)

Lemma startswith_take (p : str) : forall s,
  startswith s p = true -> take (length p) s = p.
Proof.
  induction p as [|c p IH]; intros s; [reflexivity |].
  destruct s as [|d s]; cbn [startswith]; [discriminate |].
  destruct (decide (c = d)) as [<- |]; [|discriminate].
  intros H. cbn. f_equal. by apply IH.
Qed.

Lemma find_from_found (p : str) : forall s pos i,
  find_from s p pos = Some i ->
  exists k, i = pos + k /\ take (length p) (drop k s) = p.
Proof.
  intros s. induction s as [|c s IH]; intros pos i; cbn [find_from].
  - destruct (startswith [] p) eqn:E; [|discriminate].
    intros [= <-]. exists 0. split; [lia |]. by apply startswith_take.
  - destruct (startswith (c :: s) p) eqn:E.
    + intros [= <-]. exists 0. split; [lia |]. by apply startswith_take.
    + intros (k & -> & Hk)%IH. exists (S k). split; [lia | exact Hk].
Qed.

Lemma find_found (s p : str) (start i : nat) :
  find s p start = Some i -> take (length p) (drop i s) = p.
Proof.
  unfold find. case_decide; [|discriminate].
  intros (k & -> & Hk)%find_from_found. by rewrite drop_drop in Hk.
Qed.

(** An occurrence in a text stays where it is when the text is extended. *)
Lemma occurrence_extends (t1 t2 w : str) (idx len : nat) :
  len = length w -> take len (drop idx t1) = w ->
  take len (drop idx (t1 ++ t2)) = w.
Proof.
  intros Hlen Hocc.
  assert (len <= length (drop idx t1)) as Hle.
  { apply (f_equal length) in Hocc. rewrite length_take in Hocc. lia. }
  rewrite length_drop in Hle.
  destruct (decide (len = 0)) as [-> | Hpos].
  { destruct w; [reflexivity | discriminate]. }
  rewrite drop_app_le by lia. by rewrite take_app_le by (rewrite length_drop; lia).
Qed.

(** *** Placing the words *)

(** An entry of a sentence's word list: the unit, and where its text lies in
    the sentence text. *)
Definition entry_ok (h : store) (word_infos : list ref) (sentence_text : str)
    (e : ref * nat * nat) : Prop :=
  let '(word, word_idx, len) := e in
  word ∈ word_infos
  /\ text (get h word) <> []
  /\ len = length (text (get h word))
  /\ take len (drop word_idx sentence_text) = text (get h word).

Definition sentence_ok (h : store) (word_infos : list ref) (s : SentenceInfo.t) : Prop :=
  stext s <> [] /\ Forall (entry_ok h word_infos (stext s)) (swords s).

Lemma entry_ok_extends h word_infos t1 t2 e :
  entry_ok h word_infos t1 e -> entry_ok h word_infos (t1 ++ t2) e.
Proof.
  destruct e as [[word idx] len]. intros (Hin & Hne & Hlen & Hocc).
  split_and!; [exact Hin | exact Hne | exact Hlen |]. by apply occurrence_extends.
Qed.

Lemma add_word_ok h word_infos sentence word word_idx c :
  sentence_ok h word_infos sentence -> word ∈ word_infos ->
  text (get h word) <> [] ->
  find (stext sentence) (text (get h word)) c = Some word_idx ->
  sentence_ok h word_infos
    (add_word sentence (word, word_idx, length (text (get h word)))).
Proof.
  intros [Hne Hws] Hin Htext Hfind. split; [exact Hne |].
  cbn [add_word swords stext]. apply Forall_app. split; [exact Hws |].
  apply Forall_cons. split; [| constructor].
  split_and!; [exact Hin | exact Htext | reflexivity | by eapply find_found].
Qed.

Lemma insert_same_text (sentences : list SentenceInfo.t) i s s' :
  sentences !! i = Some s -> stext s' = stext s ->
  map stext (<[i := s']> sentences) = map stext sentences.
Proof.
  intros Hi Ht. rewrite list_fmap_insert, Ht.
  apply list_insert_id. by rewrite list_lookup_fmap, Hi.
Qed.

Lemma merge_concat (sentences : list SentenceInfo.t) i s next merged :
  sentences !! i = Some s -> sentences !! S i = Some next ->
  stext merged = stext s ++ stext next ->
  concat (map stext (delete (S i) (<[i := merged]> sentences)))
  = concat (map stext sentences).
Proof.
  intros Hi Hn Hm.
  apply list_elem_of_split_length in Hi as (l1 & l2 & -> & ->).
  rewrite lookup_app_r in Hn by lia.
  replace (S (length l1) - length l1) with 1 in Hn by lia.
  destruct l2 as [|n l2]; [discriminate |]. cbn in Hn. injection Hn as ->.
  rewrite insert_app_r_alt, Nat.sub_diag by lia. cbn [insert list_insert].
  change (l1 ++ merged :: next :: l2) with (l1 ++ [merged] ++ next :: l2).
  rewrite app_assoc.
  replace (S (length l1)) with (length (l1 ++ [merged]))
    by (rewrite length_app; cbn; lia).
  rewrite delete_middle. rewrite !map_app, !concat_app. cbn [map concat].
  by rewrite Hm, <- !app_assoc.
Qed.


Lemma assign_word_ok h word_infos word fuel : forall sentences i c,
  Forall (sentence_ok h word_infos) sentences ->
  word ∈ word_infos -> text (get h word) <> [] ->
  let r := assign_word fuel word (text (get h word)) sentences i c in
  Forall (sentence_ok h word_infos) r.1.1
  /\ concat (map stext r.1.1) = concat (map stext sentences).
Proof.
  induction fuel as [|fuel IH]; intros sentences i c Hok Hin Htext;
    cbn [assign_word]; [by split |].
  destruct (sentences !! i) as [sentence|] eqn:Hi; [|by split].
  assert (Hs : sentence_ok h word_infos sentence).
  { rewrite Forall_forall in Hok. apply Hok. by eapply list_elem_of_lookup_2. }
  destruct (find (stext sentence) (text (get h word)) c) as [word_idx|] eqn:Hfind.
  { cbn [fst]. split.
    - apply Forall_insert; [exact Hok |]. by eapply add_word_ok.
    - f_equal. by eapply insert_same_text. }
  destruct (sentences !! S i) as [next|] eqn:Hn; [|by apply IH].
  destruct (straddles _ _ _); [|by apply IH].
  set (merged := {| SentenceInfo.text := stext sentence ++ stext next;
                    SentenceInfo.words := swords sentence |}).
  set (sentences' := delete (S i) (<[i := merged]> sentences)).
  assert (Hm : sentence_ok h word_infos merged).
  { destruct Hs as [Hne Hws]. split; [cbn; by destruct (stext sentence) |].
    cbn [swords stext merged]. eapply Forall_impl; [exact Hws |].
    intros e. apply entry_ok_extends. }
  assert (Hok' : Forall (sentence_ok h word_infos) sentences').
  { apply Forall_delete. by apply Forall_insert. }
  assert (Hcat : concat (map stext sentences') = concat (map stext sentences)).
  { by eapply merge_concat. }
  assert (Hi' : sentences' !! i = Some merged).
  { unfold sentences'. rewrite list_lookup_delete_lt by lia.
    apply list_lookup_insert_eq. by eapply lookup_lt_Some. }
  destruct (find (stext merged) (text (get h word)) c) as [word_idx|] eqn:Hfind2.
  - cbn [fst]. split.
    + apply Forall_insert; [exact Hok' |]. by eapply add_word_ok.
    + rewrite <- Hcat. f_equal. by eapply insert_same_text.
  - destruct (IH sentences' (S i) 0 Hok' Hin Htext) as [H1 H2].
    split; [exact H1 | by rewrite H2].
Qed.

Lemma assign_words_ok h word_infos ws : forall sentences i c,
  Forall (sentence_ok h word_infos) sentences ->
  (forall w, w ∈ ws -> w ∈ word_infos) ->
  Forall (sentence_ok h word_infos) (assign_words h ws sentences i c)
  /\ concat (map stext (assign_words h ws sentences i c))
     = concat (map stext sentences).
Proof.
  induction ws as [|word ws IH]; intros sentences i c Hok Hsub; cbn [assign_words];
    [by split |].
  destruct (text (get h word)) as [|x t] eqn:Htext; cbn [is_empty].
  { apply IH; [exact Hok |]. intros w Hw. apply Hsub. by right. }
  pose proof (assign_word_ok h word_infos word (S (length sentences)) sentences i c Hok)
    as Hstep.
  rewrite Htext in Hstep.
  destruct Hstep as [H1 H2]; [apply Hsub; by left | done |].
  destruct (assign_word _ _ _ _ _ _) as [[sentences' i'] c']. cbn [fst] in *.
  destruct (IH sentences' i' c' H1) as [H3 H4].
  { intros w Hw. apply Hsub. by right. }
  split; [exact H3 | by rewrite H4].
Qed.

(** The text that [_split_into_sentences] cuts up: the text without its line
    breaks. *)
Definition flat (t : str) : str := replace (replace t CR []) LF [].

(** X10: [_split_into_sentences] loses no character and invents none: the
    texts of the sentences it returns, put one after the other, are the text
    without its carriage returns and line feeds; and no sentence is empty. *)
Theorem sentences_spell_the_text (h : store) (t : str) (word_infos : list ref) :
  concat (map stext (_split_into_sentences h t word_infos)) = flat t
  /\ Forall (fun s => stext s <> []) (_split_into_sentences h t word_infos).
Proof.
  unfold _split_into_sentences. fold (flat t).
  destruct (split_chars (flat t) [] [] false) as [ss cur] eqn:E.
  pose proof (split_chars_concat _ _ _ _ _ _ E) as Hcat. cbn [concat app] in Hcat.
  destruct (split_chars_nonempty _ _ _ _ _ _ E) as [Hne Hcur]; [constructor | done |].
  set (texts := if is_empty cur then ss else ss ++ [cur]).
  assert (Htexts : concat texts = flat t /\ Forall (fun s => s <> []) texts).
  { unfold texts. destruct cur as [|x cur']; cbn [is_empty].
    - split; [by rewrite app_nil_r in Hcat | exact Hne].
    - split; [by rewrite concat_app; cbn; rewrite app_nil_r |].
      apply Forall_app. split; [exact Hne |]. by repeat constructor. }
  destruct Htexts as [Hflat Hall].
  destruct (assign_words_ok h word_infos word_infos (map new_sentence texts) 0 0)
    as [Hok Hsame].
  { apply Forall_fmap. eapply Forall_impl; [exact Hall |].
    intros s Hs. split; [exact Hs | constructor]. }
  { done. }
  split.
  - rewrite Hsame, <- Hflat. f_equal. rewrite map_map. cbn. by rewrite map_id.
  - eapply Forall_impl; [exact Hok |]. by intros s [? _].
Qed.

(** X11: every entry [(word, word_idx, length)] that [_split_into_sentences]
    puts into a sentence is a unit of the list it was given, with a non-empty
    text; the recorded length is the length of that text, and the sentence
    text holds the unit's text at the recorded index. *)
Theorem words_lie_in_their_sentence (h : store) (t : str) (word_infos : list ref)
    (s : SentenceInfo.t) (word : ref) (word_idx len : nat) :
  s ∈ _split_into_sentences h t word_infos ->
  (word, word_idx, len) ∈ swords s ->
  word ∈ word_infos
  /\ text (get h word) <> []
  /\ len = length (text (get h word))
  /\ take len (drop word_idx (stext s)) = text (get h word).
Proof.
  unfold _split_into_sentences.
  destruct (split_chars _ [] [] false) as [ss cur] eqn:E.
  destruct (split_chars_nonempty _ _ _ _ _ _ E) as [Hne Hcur]; [constructor | done |].
  set (texts := if is_empty cur then ss else ss ++ [cur]).
  assert (Hall : Forall (fun s => s <> []) texts).
  { unfold texts. destruct cur as [|x cur']; cbn [is_empty]; [exact Hne |].
    apply Forall_app. split; [exact Hne |]. by repeat constructor. }
  destruct (assign_words_ok h word_infos word_infos (map new_sentence texts) 0 0)
    as [Hok _].
  { apply Forall_fmap. eapply Forall_impl; [exact Hall |].
    intros s0 Hs. split; [exact Hs | constructor]. }
  { done. }
  intros Hs He. rewrite Forall_forall in Hok. destruct (Hok s Hs) as [_ Hws].
  rewrite Forall_forall in Hws. exact (Hws _ He).
Qed.


(** The units of これはペンです。 in a store, and the sentence they give. *)
Definition pen_store : store := pen_tokens false [].

Definition pen_sentence : SentenceInfo.t :=
  {| SentenceInfo.text := u "これはペンです 。";
     SentenceInfo.words := [(0, 0, 2); (1, 2, 1); (2, 3, 2); (3, 5, 2); (4, 8, 1)] |}.

Example pen_split :
  _split_into_sentences pen_store (_preprocess_text kore_wa_pen_desu) [0; 1; 2; 3; 4]
  = [pen_sentence].
Proof. vm_compute. reflexivity. Qed.

Lemma words_lie_in_their_sentence_witness :
  2 ∈ [0; 1; 2; 3; 4]
  /\ text (get pen_store 2) <> []
  /\ 2 = length (text (get pen_store 2))
  /\ take 2 (drop 3 (stext pen_sentence)) = text (get pen_store 2).
Proof.
  apply (words_lie_in_their_sentence pen_store (_preprocess_text kore_wa_pen_desu)
           [0; 1; 2; 3; 4] pen_sentence 2 3 2).
  - rewrite pen_split. apply list_elem_of_here.
  - cbn [swords pen_sentence].
    apply list_elem_of_further, list_elem_of_further, list_elem_of_here.
Defined.

End SentenceProps.

(** ** More on the passes *)

Module PassProps.

Import Morph MorphProps.
Local Open Scope nat_scope.

(** *** [_filter_misparse] *)

(** The ten texts that [_filter_misparse] always drops. *)
Definition dropped_texts : list str :=
  [u "そ"; u "ー"; u "る"; u "ま"; u "ふ"; u "ち"; u "ほ"; u "す"; u "じ"; u "なさ"].

Lemma text_set_pos h r p r' :
  text (get (set h r (with_part_of_speech p)) r') = text (get h r').
Proof.
  destruct (decide (r = r')) as [<- | Hne]; [|by rewrite get_set_ne].
  destruct (decide (r < length h)) as [Hlt | Hge].
  - by rewrite get_set_eq.
  - unfold set. by rewrite list_insert_ge by lia.
Qed.

Lemma text_cond_set_pos (b : bool) h r p r' :
  text (get (if b then set h r (with_part_of_speech p) else h) r') = text (get h r').
Proof. destruct b; [apply text_set_pos | reflexivity]. Qed.

Lemma filter_step_text is_kana word kept h r :
  text (get (filter_step is_kana word (kept, h)).2 r) = text (get h r).
Proof.
  unfold filter_step. cbv zeta.
  match goal with |- context [(if ?c then _ else _).2] => destruct c end;
    cbn [snd]; by rewrite !text_cond_set_pos.
Qed.

Lemma filter_step_kept is_kana word kept h :
  let r := filter_step is_kana word (kept, h) in
  (r.1 = kept \/ (r.1 = word :: kept /\ text (get r.2 word) ∉ dropped_texts)).
Proof.
  unfold filter_step. cbv zeta.
  match goal with
  | |- context [if isin ?t ?l || ?c then _ else _] =>
    destruct (isin t l) eqn:E; cbn [orb fst snd]; [by left |];
    destruct c; cbn [fst snd]; [by left |]
  end.
  right. split; [reflexivity |].
  unfold isin in E. by apply bool_decide_eq_false in E.
Qed.

(** X12: [_filter_misparse] only removes: the list it returns is the list it
    was given with some units left out, in the same order; it changes no
    unit's text; and no unit that it keeps has one of the ten texts on its
    removal list. *)
Theorem filter_misparse_only_removes (is_kana : str -> bool) (h : store)
    (word_infos : list ref) :
  let r := _filter_misparse is_kana h word_infos in
  sublist r.1 word_infos
  /\ (forall w, text (get r.2 w) = text (get h w))
  /\ Forall (fun w => text (get r.2 w) ∉ dropped_texts) r.1.
Proof.
  unfold _filter_misparse.
  induction word_infos as [|word ws IH]; cbn [foldr].
  - split_and!; [constructor | done | constructor].
  - destruct IH as (Hsub & Htext & Hkept).
    destruct (foldr (filter_step is_kana) ([], h) ws) as [kept h1]. cbn [fst snd] in *.
    pose proof (filter_step_text is_kana word kept h1) as Ht.
    pose proof (filter_step_kept is_kana word kept h1) as Hk.
    destruct (filter_step is_kana word (kept, h1)) as [kept' h2]. cbn [fst snd] in *.
    assert (Hkept' : Forall (fun w => text (get h2 w) ∉ dropped_texts) kept).
    { eapply Forall_impl; [exact Hkept |]. intros w Hw. by rewrite Ht. }
    split_and!.
    + destruct Hk as [-> | [-> _]]; [by apply sublist_cons | by apply sublist_skip].
    + intros w. by rewrite Ht.
    + destruct Hk as [-> | [-> Hw]]; [exact Hkept' | by apply Forall_cons].
Qed.

End PassProps.

(** ** The text that the units spell *)

Module Spelling.

Import Morph MorphProps PassProps.
Local Open Scope nat_scope.

(** The texts of the units of a list, one after the other. *)
Definition spelled (h : store) (l : list ref) : str :=
  concat (map text (map (get h) l)).

Lemma spelled_app h a b : spelled h (a ++ b) = spelled h a ++ spelled h b.
Proof. unfold spelled. by rewrite !map_app, concat_app. Qed.

Lemma spelled_same h h' (l : list ref) :
  (forall r, r ∈ l -> text (get h' r) = text (get h r)) ->
  spelled h' l = spelled h l.
Proof.
  intros H. unfold spelled. f_equal. rewrite !map_map.
  apply map_ext_in. intros r Hr%list_elem_of_In. by apply H.
Qed.

(** One round of a loop: the units [dropped] leave the input, the units
    [items], new or among [dropped], join the output, and they spell the
    same. *)
Lemma round h h' (nl dropped items ws' : list ref) :
  wf h (nl ++ dropped ++ ws') ->
  length h <= length h' ->
  (forall r, r < length h -> r ∉ dropped -> text (get h' r) = text (get h r)) ->
  NoDup items -> Forall (fun c => c < length h') items ->
  Forall (fun c => c ∈ dropped \/ length h <= c) items ->
  spelled h' items = spelled h dropped ->
  wf h' ((nl ++ items) ++ ws')
  /\ spelled h' ((nl ++ items) ++ ws') = spelled h (nl ++ dropped ++ ws').
Proof.
  intros [Hnd Hv] Hlen Hold Hitems Hvalid Horigin Hsp.
  apply NoDup_app in Hnd as (Hnl & Hdisj1 & Hnd).
  apply NoDup_app in Hnd as (Hdr & Hdisj2 & Hws).
  apply Forall_app in Hv as [Hvnl Hv]. apply Forall_app in Hv as [Hvdr Hvws].
  rewrite Forall_forall in Hvnl, Hvws, Horigin.
  assert (Hout : forall c, c ∈ items -> c ∉ nl /\ c ∉ ws').
  { intros c [Hc | Hc]%Horigin.
    - split; [intros Hin; apply (Hdisj1 c Hin); set_solver | by apply Hdisj2].
    - split; intros Hin; [apply Hvnl in Hin | apply Hvws in Hin]; lia. }
  split; [split |].
  - apply NoDup_app. split_and!; [| | exact Hws].
    + apply NoDup_app. split_and!; [exact Hnl | | exact Hitems].
      intros x Hx Hin. by destruct (Hout x Hin).
    + intros x [Hx | Hx]%elem_of_app Hin.
      * apply (Hdisj1 x Hx). set_solver.
      * by destruct (Hout x Hx).
  - rewrite !Forall_app. split_and!; [| exact Hvalid |].
    + apply Forall_forall. intros x Hx. apply Hvnl in Hx. lia.
    + apply Forall_forall. intros x Hx. apply Hvws in Hx. lia.
  - rewrite !spelled_app, Hsp, <- app_assoc. f_equal; [| f_equal].
    + apply spelled_same. intros r Hr. apply Hold; [by apply Hvnl |].
      intros Hin. apply (Hdisj1 r Hr). set_solver.
    + apply spelled_same. intros r Hr. apply Hold; [by apply Hvws |].
      intros Hin. by apply (Hdisj2 r Hin).
Qed.

Lemma text_set_section1 h r x r' :
  text (get (set h r (with_part_of_speech_section1 x)) r') = text (get h r').
Proof.
  destruct (decide (r = r')) as [<- | Hne]; [|by rewrite get_set_ne].
  destruct (decide (r < length h)) as [Hlt | Hge].
  - by rewrite get_set_eq.
  - unfold set. by rewrite list_insert_ge by lia.
Qed.

Lemma text_set_dictionary_form h r x r' :
  text (get (set h r (with_dictionary_form x)) r') = text (get h r').
Proof.
  destruct (decide (r = r')) as [<- | Hne]; [|by rewrite get_set_ne].
  destruct (decide (r < length h)) as [Hlt | Hge].
  - by rewrite get_set_eq.
  - unfold set. by rewrite list_insert_ge by lia.
Qed.

Lemma text_set_reading h r x r' :
  text (get (set h r (with_reading x)) r') = text (get h r').
Proof.
  destruct (decide (r = r')) as [<- | Hne]; [|by rewrite get_set_ne].
  destruct (decide (r < length h)) as [Hlt | Hge].
  - by rewrite get_set_eq.
  - unfold set. by rewrite list_insert_ge by lia.
Qed.

Lemma text_set_text h r t : r < length h -> text (get (set h r (with_text t)) r) = t.
Proof. intros Hr. by rewrite get_set_eq. Qed.

(** Reading a text through the writes of one round. *)
Ltac heap_len :=
  repeat (progress (rewrite ?length_set, ?length_app)); cbn [length]; lia.

Ltac read_text :=
  repeat first
    [ rewrite text_set_pos
    | rewrite text_set_section1
    | rewrite text_set_dictionary_form
    | rewrite text_set_reading
    | rewrite text_set_text by heap_len
    | rewrite get_set_ne by heap_len
    | rewrite get_alloc_new
    | rewrite get_alloc_old by heap_len ].

Lemma wf_valid h (a b : list ref) r : wf h (a ++ b) -> r ∈ b -> r < length h.
Proof.
  intros [_ Hv] Hr. rewrite Forall_forall in Hv. apply Hv. set_solver.
Qed.

(** A round that puts one new unit, the newest object, in the place of
    [dropped]. *)
Ltac fresh_round loop IH Hwf dropped :=
  unfold copy, alloc, append_text; cbv beta iota zeta;
  match goal with
  | |- context [loop ?h1 (?nl ++ [length ?h]) ?ws'] =>
    let Hwf1 := fresh "Hwf1" in
    let Hsp1 := fresh "Hsp1" in
    destruct (round h h1 nl dropped [length h] ws' Hwf) as [Hwf1 Hsp1];
    [ heap_len
    | intros ? ? _; by read_text
    | apply NoDup_singleton
    | apply Forall_singleton; heap_len
    | apply Forall_singleton; right; lia
    | unfold spelled; cbn [map concat]; read_text;
      by rewrite ?app_nil_r, <- ?app_assoc
    | let H1 := fresh "H" in
      let H2 := fresh "H" in
      destruct (IH ws' h1 (nl ++ [length h])) as [H1 H2];
      [cbn in *; lia | exact Hwf1 |];
      split; [exact H1 | by rewrite H2] ]
  end.

Lemma suru_loop_spelled k : forall ws h nl,
  length ws <= k -> wf h (nl ++ ws) ->
  let p := suru_loop h nl ws in
  wf p.2 p.1 /\ spelled p.2 p.1 = spelled h (nl ++ ws).
Proof.
  induction k as [|k IH]; intros [|cur rest] h nl Hlen Hwf; cbn [suru_loop];
    try (rewrite app_nil_r in Hwf |- *; by split); [cbn in Hlen; lia |].
  assert (Hcur : cur < length h) by (eapply wf_valid; [exact Hwf | set_solver]).
  destruct rest as [|next rest2]; cbv beta iota.
  { fresh_round suru_loop IH Hwf [cur]. }
  assert (Hnext : next < length h) by (eapply wf_valid; [exact Hwf | set_solver]).
  match goal with |- context [if ?b then _ else _] => destruct b end.
  - fresh_round suru_loop IH Hwf [cur; next].
  - fresh_round suru_loop IH Hwf [cur].
Qed.

Lemma teiru_loop_spelled k : forall ws h nl,
  length ws <= k -> wf h (nl ++ ws) ->
  let p := teiru_loop h nl ws in
  wf p.2 p.1 /\ spelled p.2 p.1 = spelled h (nl ++ ws).
Proof.
  induction k as [|k IH]; intros [|cur rest] h nl Hlen Hwf; cbn [teiru_loop];
    try (rewrite app_nil_r in Hwf |- *; by split); [cbn in Hlen; lia |].
  assert (Hcur : cur < length h) by (eapply wf_valid; [exact Hwf | set_solver]).
  destruct rest as [|next1 [|next2 rest3]]; cbv beta iota.
  { fresh_round teiru_loop IH Hwf [cur]. }
  { fresh_round teiru_loop IH Hwf [cur]. }
  assert (Hn1 : next1 < length h) by (eapply wf_valid; [exact Hwf | set_solver]).
  assert (Hn2 : next2 < length h) by (eapply wf_valid; [exact Hwf | set_solver]).
  match goal with |- context [if ?b then _ else _] => destruct b end.
  - fresh_round teiru_loop IH Hwf [cur; next1; next2].
  - fresh_round teiru_loop IH Hwf [cur].
Qed.

(** The joined text of [_combine_particles] is the two texts joined. *)
Lemma particles_text_joins (t1 t2 : str) :
  is_empty (particles_text t1 t2) = false -> particles_text t1 t2 = t1 ++ t2.
Proof.
  unfold particles_text.
  repeat (case_bool_decide;
          [ match goal with
            | E : (t1, t2) = _ |- _ =>
              intros _; apply (f_equal fst) in E as E1; apply (f_equal snd) in E as E2;
              cbn [fst snd] in E1, E2; subst t1 t2; vm_compute; reflexivity
            end |]).
  cbn [is_empty]. discriminate.
Qed.

Lemma particles_loop_spelled k : forall ws h nl,
  length ws <= k -> wf h (nl ++ ws) ->
  let p := particles_loop h nl ws in
  wf p.2 p.1 /\ spelled p.2 p.1 = spelled h (nl ++ ws).
Proof.
  induction k as [|k IH]; intros [|cur rest] h nl Hlen Hwf; cbn [particles_loop];
    try (rewrite app_nil_r in Hwf |- *; by split); [cbn in Hlen; lia |].
  assert (Hcur : cur < length h) by (eapply wf_valid; [exact Hwf | set_solver]).
  destruct rest as [|next rest2]; cbv beta iota zeta.
  { fresh_round particles_loop IH Hwf [cur]. }
  assert (Hnext : next < length h) by (eapply wf_valid; [exact Hwf | set_solver]).
  destruct (is_empty (particles_text (text (get h cur)) (text (get h next)))) eqn:E;
    cbn [negb].
  - fresh_round particles_loop IH Hwf [cur].
  - rewrite (particles_text_joins _ _ E).
    fresh_round particles_loop IH Hwf [cur; next].
Qed.


(** *** [_process_special_cases] *)

(** What a round hands to [round]: the units [items] that take the place of
    [dropped]. *)
Definition replaces (h h' : store) (dropped items : list ref) : Prop :=
  length h <= length h'
  /\ (forall r, r < length h -> text (get h' r) = text (get h r))
  /\ NoDup items
  /\ Forall (fun c => c < length h') items
  /\ Forall (fun c => c ∈ dropped \/ length h <= c) items
  /\ spelled h' items = spelled h dropped.

Lemma round_replaces h h' (nl dropped items ws' : list ref) :
  wf h (nl ++ dropped ++ ws') -> replaces h h' dropped items ->
  wf h' ((nl ++ items) ++ ws')
  /\ spelled h' ((nl ++ items) ++ ws') = spelled h (nl ++ dropped ++ ws').
Proof.
  intros Hwf (H1 & H2 & H3 & H4 & H5 & H6).
  apply round; try done. intros r Hr _. by apply H2.
Qed.

Ltac replaces_fresh :=
  unfold replaces; split_and!;
  [ heap_len
  | intros ? ?; by read_text
  | apply NoDup_singleton
  | apply Forall_singleton; heap_len
  | apply Forall_singleton; right; lia
  | unfold spelled; cbn [map concat]; read_text;
    by rewrite ?app_nil_r, <- ?app_assoc ].

Lemma special_three_replaces h w1 w2 w3 new_word h' :
  w1 < length h -> w2 < length h -> w3 < length h ->
  special_three h w1 w2 w3 = Some (new_word, h') ->
  replaces h h' [w1; w2; w3] [new_word].
Proof.
  intros H1 H2 H3. unfold special_three, copy, alloc. cbv beta iota zeta.
  destruct (_ && _).
  - intros [= <- <-]. replaces_fresh.
  - destruct (find_case3 _ _ _ _) as [[p|]|]; [| |discriminate];
      intros [= <- <-]; replaces_fresh.
Qed.

Lemma special_two_replaces h w1 w2 new_word h' :
  w1 < length h -> w2 < length h ->
  special_two h w1 w2 = Some (new_word, h') ->
  replaces h h' [w1; w2] [new_word].
Proof.
  intros H1 H2. unfold special_two, copy, alloc. cbv beta iota zeta.
  destruct (find_case2 _ _ _) as [[p|]|]; [| |discriminate];
    intros [= <- <-]; replaces_fresh.
Qed.

Lemma length_cond_set (b : bool) h r f :
  length (if b then set h r f else h) = length h.
Proof. destruct b; [apply length_set | reflexivity]. Qed.

Lemma special_one_replaces h w1 :
  w1 < length h ->
  replaces h (special_one h w1).2 [w1] (special_one h w1).1.
Proof.
  intros H1. unfold special_one, copy, alloc. cbv beta iota zeta.
  case_bool_decide as E1; [cbn [fst snd]; replaces_fresh |].
  case_bool_decide as E2.
  - cbn [fst snd]. unfold replaces. split_and!.
    + heap_len.
    + intros r Hr. by read_text.
    + apply NoDup_cons. split; [|apply NoDup_singleton].
      intros Hin%list_elem_of_singleton. revert Hin. heap_len.
    + apply Forall_cons. split; [heap_len |]. apply Forall_singleton. heap_len.
    + apply Forall_cons. split; [right; heap_len |]. apply Forall_singleton.
      right. heap_len.
    + unfold spelled. cbn [map concat]. rewrite E2. read_text.
      vm_compute. reflexivity.
  - cbn [fst snd]. unfold replaces. split_and!.
    + by rewrite !length_cond_set.
    + intros r Hr. by rewrite !text_cond_set_pos.
    + apply NoDup_singleton.
    + apply Forall_singleton. by rewrite !length_cond_set.
    + apply Forall_singleton. left. set_solver.
    + unfold spelled. cbn [map concat]. by rewrite !text_cond_set_pos.
Qed.

Lemma special_loop_spelled k : forall ws h nl,
  length ws <= k -> wf h (nl ++ ws) ->
  let p := special_loop h nl ws in
  wf p.2 p.1 /\ spelled p.2 p.1 = spelled h (nl ++ ws).
Proof.
  induction k as [|k IH]; intros [|w1 rest] h nl Hlen Hwf; cbn [special_loop];
    try (rewrite app_nil_r in Hwf |- *; by split); [cbn in Hlen; lia |].
  assert (Hw1 : w1 < length h) by (eapply wf_valid; [exact Hwf | set_solver]).
  assert (Hone : forall rest', length rest' <= k -> wf h (nl ++ [w1] ++ rest') ->
    let p := (let '(items, h') := special_one h w1 in
              special_loop h' (nl ++ items) rest') in
    wf p.2 p.1 /\ spelled p.2 p.1 = spelled h (nl ++ [w1] ++ rest')).
  { intros rest' Hl Hwf'.
    pose proof (special_one_replaces h w1 Hw1) as Hrep.
    destruct (special_one h w1) as [items h1]. cbn [fst snd] in Hrep.
    destruct (round_replaces _ _ _ _ _ _ Hwf' Hrep) as [Hwf1 Hsp1].
    destruct (IH rest' h1 (nl ++ items) Hl Hwf1) as [H1 H2].
    split; [exact H1 | by rewrite H2]. }
  destruct (_ && _).
  { destruct (round_replaces h (set h w1 (with_part_of_speech PartOfSpeech.PARTICLE))
                nl [w1] [w1] rest Hwf) as [Hwf1 Hsp1].
    - unfold replaces. split_and!.
      + by rewrite length_set.
      + intros r Hr. by rewrite text_set_pos.
      + apply NoDup_singleton.
      + apply Forall_singleton. by rewrite length_set.
      + apply Forall_singleton. left. set_solver.
      + unfold spelled. cbn [map concat]. by rewrite text_set_pos.
    - destruct (IH rest _ _ ltac:(cbn in Hlen; lia) Hwf1) as [H1 H2].
      split; [exact H1 | by rewrite H2]. }
  destruct rest as [|w2 rest2]; cbv beta iota; [apply Hone; [cbn; lia | exact Hwf] |].
  assert (Hw2 : w2 < length h) by (eapply wf_valid; [exact Hwf | set_solver]).
  assert (Htwo :
    let p := match special_two h w1 w2 with
             | Some (new_word, h') => special_loop h' (nl ++ [new_word]) rest2
             | None =>
               let '(items, h') := special_one h w1 in
               special_loop h' (nl ++ items) (w2 :: rest2)
             end in
    wf p.2 p.1 /\ spelled p.2 p.1 = spelled h (nl ++ w1 :: w2 :: rest2)).
  { destruct (special_two h w1 w2) as [[nw h2]|] eqn:E2.
    - pose proof (special_two_replaces _ _ _ _ _ Hw1 Hw2 E2) as Hrep.
      destruct (round_replaces h h2 nl [w1; w2] [nw] rest2 Hwf Hrep) as [Hwf1 Hsp1].
      destruct (IH rest2 h2 (nl ++ [nw]) ltac:(cbn in Hlen; lia) Hwf1) as [H1 H2].
      split; [exact H1 | by rewrite H2].
    - apply Hone; [cbn in *; lia | exact Hwf]. }
  destruct rest2 as [|w3 rest3]; cbv beta iota; [exact Htwo |].
  assert (Hw3 : w3 < length h) by (eapply wf_valid; [exact Hwf | set_solver]).
  destruct (special_three h w1 w2 w3) as [[nw h3]|] eqn:E3; [|exact Htwo].
  pose proof (special_three_replaces _ _ _ _ _ _ Hw1 Hw2 Hw3 E3) as Hrep.
  destruct (round_replaces h h3 nl [w1; w2; w3] [nw] rest3 Hwf Hrep) as [Hwf1 Hsp1].
  destruct (IH rest3 h3 (nl ++ [nw]) ltac:(cbn in Hlen; lia) Hwf1) as [H1 H2].
  split; [exact H1 | by rewrite H2].
Qed.


(** *** The loops that merge into a unit of their input *)

Lemma merge_round h (nl0 : list ref) (prev cur : ref) (rest : list ref) :
  wf h ((nl0 ++ [prev]) ++ cur :: rest) ->
  wf (append_text h prev cur) ((nl0 ++ [prev]) ++ rest)
  /\ spelled (append_text h prev cur) ((nl0 ++ [prev]) ++ rest)
     = spelled h ((nl0 ++ [prev]) ++ cur :: rest).
Proof.
  intros Hwf. pose proof Hwf as [Hnd Hv].
  assert (Hprev : prev < length h) by (rewrite Forall_forall in Hv; apply Hv; set_solver).
  rewrite <- app_assoc in Hnd. apply NoDup_app in Hnd as (Hnl0 & Hd1 & Hnd).
  cbn [app] in Hnd. apply NoDup_cons in Hnd as [Hp Hnd].
  apply NoDup_cons in Hnd as [Hc Hrest].
  unfold append_text. split; [split |].
  - rewrite <- app_assoc. apply NoDup_app. split_and!; [exact Hnl0 | | ].
    + intros x Hx Hin. apply (Hd1 x Hx). set_solver.
    + cbn [app]. apply NoDup_cons. split; [set_solver | exact Hrest].
  - rewrite length_set. rewrite !Forall_app in Hv |- *.
    destruct Hv as [[H1 H2] H3%Forall_cons]. by destruct H3.
  - rewrite !spelled_app. unfold spelled at 2 5. cbn [map concat].
    rewrite get_set_eq by exact Hprev. cbn [text with_text].
    change (cur :: rest) with ([cur] ++ rest). rewrite spelled_app.
    unfold spelled at 4. cbn [map concat]. rewrite !app_nil_r, <- !app_assoc.
    f_equal; [| f_equal; f_equal].
    + apply spelled_same. intros r Hr. rewrite get_set_ne; [done |].
      intros <-. apply (Hd1 prev Hr). set_solver.
    + apply spelled_same. intros r Hr. rewrite get_set_ne; [done |].
      intros <-. set_solver.
Qed.

Lemma snoc_cases {A} (l : list A) : l = [] \/ exists l0 x, l = l0 ++ [x].
Proof.
  induction l as [|a l IH] using rev_ind; [by left | right; by exists l, a].
Qed.

Lemma conjunctive_particle_loop_spelled rest : forall h nl0 prev,
  wf h ((nl0 ++ [prev]) ++ rest) ->
  let p := conjunctive_particle_loop h (nl0 ++ [prev]) rest in
  wf p.2 p.1 /\ spelled p.2 p.1 = spelled h ((nl0 ++ [prev]) ++ rest).
Proof.
  induction rest as [|cur rest IH]; intros h nl0 prev Hwf;
    cbn [conjunctive_particle_loop].
  - rewrite app_nil_r in Hwf |- *. by split.
  - rewrite last_ref_snoc.
    match goal with |- context [if ?b then _ else _] => destruct b end.
    + destruct (merge_round h nl0 prev cur rest Hwf) as [Hwf1 Hsp1].
      destruct (IH _ nl0 prev Hwf1) as [H1 H2]. split; [exact H1 | by rewrite H2].
    + assert (Hwf1 : wf h (((nl0 ++ [prev]) ++ [cur]) ++ rest))
        by (by rewrite <- (app_assoc _ [cur] rest)).
      destruct (IH h (nl0 ++ [prev]) cur Hwf1) as [H1 H2].
      split; [exact H1 |]. rewrite H2. by rewrite <- (app_assoc _ [cur] rest).
Qed.

Lemma auxiliary_loop_spelled rest : forall h nl0 prev,
  wf h ((nl0 ++ [prev]) ++ rest) ->
  let p := auxiliary_loop h (nl0 ++ [prev]) rest in
  wf p.2 p.1 /\ spelled p.2 p.1 = spelled h ((nl0 ++ [prev]) ++ rest).
Proof.
  induction rest as [|cur rest IH]; intros h nl0 prev Hwf; cbn [auxiliary_loop].
  - rewrite app_nil_r in Hwf |- *. by split.
  - rewrite last_ref_snoc.
    assert (Hskip :
      let p := auxiliary_loop h ((nl0 ++ [prev]) ++ [cur]) rest in
      wf p.2 p.1 /\ spelled p.2 p.1 = spelled h ((nl0 ++ [prev]) ++ cur :: rest)).
    { assert (Hwf1 : wf h (((nl0 ++ [prev]) ++ [cur]) ++ rest))
        by (by rewrite <- (app_assoc _ [cur] rest)).
      destruct (IH h (nl0 ++ [prev]) cur Hwf1) as [H1 H2].
      split; [exact H1 |]. rewrite H2. by rewrite <- (app_assoc _ [cur] rest). }
    destruct (negb _); [exact Hskip |].
    match goal with |- context [if ?b then _ else _] => destruct b end;
      [| exact Hskip].
    destruct (merge_round h nl0 prev cur rest Hwf) as [Hwf1 Hsp1].
    destruct (IH _ nl0 prev Hwf1) as [H1 H2]. split; [exact H1 | by rewrite H2].
Qed.

(** *** The accumulator loops, through their value-level form *)

Lemma text_merge k cur next : text (merge k cur next) = text cur ++ text next.
Proof. destruct k as [|[p|]]; reflexivity. Qed.

Lemma acc_pure_spelled cond k rest : forall cur prev,
  concat (map text (acc_pure cond k cur prev rest))
  = text cur ++ concat (map text rest).
Proof.
  induction rest as [|next rest IH]; intros cur prev; cbn [acc_pure map concat].
  - reflexivity.
  - destruct (cond cur next prev).
    + by rewrite IH, text_merge, <- app_assoc.
    + cbn [map concat]. by rewrite IH.
Qed.

Lemma pass_pure_spelled cond k l :
  concat (map text (pass_pure cond k l)) = concat (map text l).
Proof.
  destruct l as [|w0 [|w1 rest]]; [reflexivity | reflexivity |].
  unfold pass_pure. by rewrite acc_pure_spelled.
Qed.

Definition cond_verb_possible_dependants (cur next prev : WordInfo) : bool :=
  has_part_of_speech_section next PartOfSpeechSection.POSSIBLE_DEPENDANT
  && bool_decide (part_of_speech cur = PartOfSpeech.VERB)
  && isin (dictionary_form next) possible_dependant_forms.

Definition cond_final (cur next prev : WordInfo) : bool :=
  bool_decide (text next = u "ば")
  && bool_decide (part_of_speech prev = PartOfSpeech.VERB).

Lemma verb_possible_dependants_loop_acc rest : forall h nl cur prev,
  verb_possible_dependants_loop h nl cur rest
  = acc_loop cond_verb_possible_dependants Append h nl cur prev rest.
Proof.
  induction rest as [|next rest IH]; intros h nl cur prev;
    [reflexivity
    | same_loop verb_possible_dependants_loop cond_verb_possible_dependants IH].
Qed.

Lemma final_loop_acc rest : forall h nl cur prev,
  final_loop h nl cur prev rest = acc_loop cond_final Append h nl cur prev rest.
Proof.
  induction rest as [|next rest IH]; intros h nl cur prev;
    [reflexivity | same_loop final_loop cond_final IH].
Qed.

(** *** The passes *)

(** A pass keeps the spelling: on distinct units of the store it returns
    distinct units of the store that spell what its input spelled. *)
Definition keeps_spelling (pass : store -> list ref -> list ref * store) : Prop :=
  forall h ws,
    wf h ws ->
    wf (pass h ws).2 (pass h ws).1
    /\ spelled (pass h ws).2 (pass h ws).1 = spelled h ws.

Lemma refined_keeps_spelling (pass : store -> list ref -> list ref * store) cond k :
  (forall h ws, wf h ws ->
     let p := pass h ws in
     wf (snd p) (fst p) /\ view p = pass_pure cond k (map (get h) ws)) ->
  keeps_spelling pass.
Proof.
  intros Href h ws Hwf. destruct (Href h ws Hwf) as [H1 H2].
  split; [exact H1 |]. unfold spelled. unfold view in H2. rewrite H2.
  apply pass_pure_spelled.
Qed.


Lemma wf_nil_l h (ws : list ref) : wf h ws -> wf h ([] ++ ws).
Proof. done. Qed.

Lemma _combine_prefixes_spelling : keeps_spelling _combine_prefixes.
Proof. eapply refined_keeps_spelling, _combine_prefixes_refines. Qed.

Lemma _combine_amounts_spelling COMBINATIONS :
  keeps_spelling (_combine_amounts COMBINATIONS).
Proof. eapply refined_keeps_spelling, _combine_amounts_refines. Qed.

Lemma _combine_tte_spelling : keeps_spelling _combine_tte.
Proof. eapply refined_keeps_spelling, _combine_tte_refines. Qed.

Lemma _combine_auxiliary_verb_stem_spelling : keeps_spelling _combine_auxiliary_verb_stem.
Proof. eapply refined_keeps_spelling, _combine_auxiliary_verb_stem_refines. Qed.

Lemma _combine_adverbial_particle_spelling : keeps_spelling _combine_adverbial_particle.
Proof. eapply refined_keeps_spelling, _combine_adverbial_particle_refines. Qed.

Lemma _combine_suffix_spelling : keeps_spelling _combine_suffix.
Proof. eapply refined_keeps_spelling, _combine_suffix_refines. Qed.

Lemma _combine_verb_dependants_spelling : keeps_spelling _combine_verb_dependants.
Proof. eapply refined_keeps_spelling, _combine_verb_dependants_refines. Qed.

Lemma _combine_verb_possible_dependants_spelling :
  keeps_spelling _combine_verb_possible_dependants.
Proof.
  apply (refined_keeps_spelling _ cond_verb_possible_dependants Append).
  intros h ws Hwf. destruct ws as [|w0 [|w1 rest]]; [by split | by split |].
  unfold _combine_verb_possible_dependants, copy, alloc; cbv beta iota zeta.
  rewrite (verb_possible_dependants_loop_acc _ _ _ _ w0). by apply acc_pass_refines.
Qed.

Lemma _combine_final_spelling : keeps_spelling _combine_final.
Proof.
  apply (refined_keeps_spelling _ cond_final Append).
  intros h ws Hwf. destruct ws as [|w0 [|w1 rest]]; [by split | by split |].
  unfold _combine_final, copy, alloc; cbv beta iota zeta.
  rewrite (final_loop_acc _ _ _ _ w0). by apply acc_pass_refines.
Qed.

Lemma _combine_verb_dependants_suru_spelling :
  keeps_spelling _combine_verb_dependants_suru.
Proof.
  intros h ws Hwf. unfold _combine_verb_dependants_suru.
  destruct ws as [|w0 [|w1 rest]]; [by split | by split |].
  by apply (suru_loop_spelled _ _ h [] (Nat.le_refl _)).
Qed.

Lemma _combine_verb_dependants_teiru_spelling :
  keeps_spelling _combine_verb_dependants_teiru.
Proof.
  intros h ws Hwf. unfold _combine_verb_dependants_teiru.
  destruct ws as [|w0 [|w1 [|w2 rest]]]; [by split | by split | by split |].
  by apply (teiru_loop_spelled _ _ h [] (Nat.le_refl _)).
Qed.

Lemma _combine_particles_spelling : keeps_spelling _combine_particles.
Proof.
  intros h ws Hwf. unfold _combine_particles.
  destruct ws as [|w0 [|w1 rest]]; [by split | by split |].
  by apply (particles_loop_spelled _ _ h [] (Nat.le_refl _)).
Qed.

Lemma _process_special_cases_spelling : keeps_spelling _process_special_cases.
Proof.
  intros h ws Hwf. unfold _process_special_cases.
  destruct ws as [|w0 rest]; [by split |].
  by apply (special_loop_spelled _ _ h [] (Nat.le_refl _)).
Qed.

Lemma _combine_conjunctive_particle_spelling :
  keeps_spelling _combine_conjunctive_particle.
Proof.
  intros h ws Hwf. unfold _combine_conjunctive_particle.
  destruct ws as [|w0 [|w1 rest]]; [by split | by split |].
  by apply (conjunctive_particle_loop_spelled (w1 :: rest) h [] w0).
Qed.

Lemma _combine_auxiliary_spelling : keeps_spelling _combine_auxiliary.
Proof.
  intros h ws Hwf. unfold _combine_auxiliary.
  destruct ws as [|w0 [|w1 rest]]; [by split | by split |].
  by apply (auxiliary_loop_spelled (w1 :: rest) h [] w0).
Qed.

Lemma keeps_spelling_then (f g : store -> list ref -> list ref * store) :
  keeps_spelling f -> keeps_spelling g ->
  keeps_spelling (fun h ws => let '(ws1, h1) := f h ws in g h1 ws1).
Proof.
  intros Hf Hg h ws Hwf. destruct (Hf h ws Hwf) as [H1 H2].
  destruct (f h ws) as [ws1 h1]. cbn [fst snd] in *.
  destruct (Hg h1 ws1 H1) as [H3 H4]. split; [exact H3 | by rewrite H4].
Qed.

Lemma _combine_verb_dependant_spelling : keeps_spelling _combine_verb_dependant.
Proof.
  intros h ws Hwf. unfold _combine_verb_dependant.
  destruct ws as [|w0 [|w1 rest]]; [by split | by split |].
  set (ws0 := w0 :: w1 :: rest) in *.
  destruct (_combine_verb_dependants_spelling h ws0 Hwf) as [H1 H2].
  destruct (_combine_verb_dependants h ws0) as [ws1 h1]. cbn [fst snd] in *.
  destruct (_combine_verb_possible_dependants_spelling h1 ws1 H1) as [H3 H4].
  destruct (_combine_verb_possible_dependants h1 ws1) as [ws2 h2]. cbn [fst snd] in *.
  destruct (_combine_verb_dependants_suru_spelling h2 ws2 H3) as [H5 H6].
  destruct (_combine_verb_dependants_suru h2 ws2) as [ws3 h3]. cbn [fst snd] in *.
  destruct (_combine_verb_dependants_teiru_spelling h3 ws3 H5) as [H7 H8].
  destruct (_combine_verb_dependants_teiru h3 ws3) as [ws4 h4]. cbn [fst snd] in *.
  split; [exact H7 | congruence].
Qed.

Lemma _separate_suffix_honorifics_spelling : keeps_spelling _separate_suffix_honorifics.
Proof.
  intros h ws [Hnd Hv].
  pose proof (_separate_suffix_honorifics_unchanged h ws) as [Hlen Hk].
  rewrite _separate_suffix_honorifics_returns_input.
  split; [split; [exact Hnd |] |].
  - eapply Forall_impl; [exact Hv |]. intros r Hr. cbn in Hr. lia.
  - apply spelled_same. intros r Hr. rewrite Forall_forall in Hv.
    by rewrite <- (Hk r (Hv r Hr)).
Qed.

Lemma all_passes_keep_spelling (COMBINATIONS : str * str -> bool) :
  Forall keeps_spelling
    [ _process_special_cases; _combine_prefixes; _combine_amounts COMBINATIONS;
      _combine_tte; _combine_auxiliary_verb_stem; _combine_adverbial_particle;
      _combine_suffix; _combine_auxiliary; _combine_verb_dependant;
      _combine_verb_dependants; _combine_verb_possible_dependants;
      _combine_verb_dependants_suru; _combine_verb_dependants_teiru;
      _combine_conjunctive_particle; _combine_particles; _combine_final;
      _separate_suffix_honorifics ].
Proof.
  repeat apply Forall_cons_2; try apply Forall_nil_2.
  - apply _process_special_cases_spelling.
  - apply _combine_prefixes_spelling.
  - apply _combine_amounts_spelling.
  - apply _combine_tte_spelling.
  - apply _combine_auxiliary_verb_stem_spelling.
  - apply _combine_adverbial_particle_spelling.
  - apply _combine_suffix_spelling.
  - apply _combine_auxiliary_spelling.
  - apply _combine_verb_dependant_spelling.
  - apply _combine_verb_dependants_spelling.
  - apply _combine_verb_possible_dependants_spelling.
  - apply _combine_verb_dependants_suru_spelling.
  - apply _combine_verb_dependants_teiru_spelling.
  - apply _combine_conjunctive_particle_spelling.
  - apply _combine_particles_spelling.
  - apply _combine_final_spelling.
  - apply _separate_suffix_honorifics_spelling.
Qed.

(** X13: the passes that [parse] runs before [_filter_misparse] lose no text
    and invent none. Given distinct units, each of them returns distinct units
    whose texts, one after the other, are the texts of the units it was
    given, one after the other. *)
Theorem passes_keep_the_spelling (COMBINATIONS : str * str -> bool)
    (pass : store -> list ref -> list ref * store) (h : store) (word_infos : list ref) :
  pass ∈ [ _process_special_cases; _combine_prefixes; _combine_amounts COMBINATIONS;
           _combine_tte; _combine_auxiliary_verb_stem; _combine_adverbial_particle;
           _combine_suffix; _combine_auxiliary; _combine_verb_dependant;
           _combine_verb_dependants; _combine_verb_possible_dependants;
           _combine_verb_dependants_suru; _combine_verb_dependants_teiru;
           _combine_conjunctive_particle; _combine_particles; _combine_final;
           _separate_suffix_honorifics ] ->
  NoDup word_infos -> Forall (fun w => w < length h) word_infos ->
  NoDup (pass h word_infos).1
  /\ Forall (fun w => w < length (pass h word_infos).2) (pass h word_infos).1
  /\ spelled (pass h word_infos).2 (pass h word_infos).1 = spelled h word_infos.
Proof.
  intros Hpass Hnd Hv.
  pose proof (all_passes_keep_spelling COMBINATIONS) as Hall.
  rewrite Forall_forall in Hall.
  destruct (Hall pass Hpass h word_infos (conj Hnd Hv)) as [[H1 H2] H3].
  by split_and!.
Qed.

(** 食べ, て and いる in a store. *)
Definition tabe_te_iru : store :=
  [ tabe; te_conjunctive;
    morpheme (u "いる") PartOfSpeech.VERB PartOfSpeechSection.DEPENDANT (u "いる") ].

Lemma passes_keep_the_spelling_witness :
  NoDup (_combine_conjunctive_particle tabe_te_iru [0; 1; 2]).1
  /\ Forall (fun w => w < length (_combine_conjunctive_particle tabe_te_iru [0; 1; 2]).2)
       (_combine_conjunctive_particle tabe_te_iru [0; 1; 2]).1
  /\ spelled (_combine_conjunctive_particle tabe_te_iru [0; 1; 2]).2
       (_combine_conjunctive_particle tabe_te_iru [0; 1; 2]).1
     = spelled tabe_te_iru [0; 1; 2].
Proof.
  apply (passes_keep_the_spelling (fun _ => false)).
  - do 13 apply list_elem_of_further. apply list_elem_of_here.
  - repeat (apply NoDup_cons_2; [set_solver |]). apply NoDup_nil_2.
  - repeat (apply List.Forall_cons; [cbn; lia |]). apply List.Forall_nil.
Defined.

(** The passes of [combine] before the last. *)
Definition before_filter (COMBINATIONS : str * str -> bool) (h : store)
    (word_infos : list ref) : list ref * store :=
  let '(word_infos, h) := _process_special_cases h word_infos in
  let '(word_infos, h) := _combine_prefixes h word_infos in
  let '(word_infos, h) := _combine_amounts COMBINATIONS h word_infos in
  let '(word_infos, h) := _combine_tte h word_infos in
  let '(word_infos, h) := _combine_auxiliary_verb_stem h word_infos in
  let '(word_infos, h) := _combine_adverbial_particle h word_infos in
  let '(word_infos, h) := _combine_suffix h word_infos in
  let '(word_infos, h) := _combine_auxiliary h word_infos in
  let '(word_infos, h) := _combine_verb_dependant h word_infos in
  let '(word_infos, h) := _combine_conjunctive_particle h word_infos in
  let '(word_infos, h) := _combine_particles h word_infos in
  let '(word_infos, h) := _combine_final h word_infos in
  _separate_suffix_honorifics h word_infos.

Lemma combine_filters COMBINATIONS is_kana h ws :
  combine COMBINATIONS is_kana h ws
  = _filter_misparse is_kana (before_filter COMBINATIONS h ws).2
      (before_filter COMBINATIONS h ws).1.
Proof.
  unfold combine, before_filter.
  repeat match goal with
         | |- context [let '(_, _) := ?p in _] => destruct p
         end.
  reflexivity.
Qed.

Lemma before_filter_spelling COMBINATIONS : keeps_spelling (before_filter COMBINATIONS).
Proof.
  unfold before_filter.
  repeat (apply keeps_spelling_then;
          [first [ apply _process_special_cases_spelling
                 | apply _combine_prefixes_spelling
                 | apply _combine_amounts_spelling
                 | apply _combine_tte_spelling
                 | apply _combine_auxiliary_verb_stem_spelling
                 | apply _combine_adverbial_particle_spelling
                 | apply _combine_suffix_spelling
                 | apply _combine_auxiliary_spelling
                 | apply _combine_verb_dependant_spelling
                 | apply _combine_conjunctive_particle_spelling
                 | apply _combine_particles_spelling
                 | apply _combine_final_spelling ] |]).
  apply _separate_suffix_honorifics_spelling.
Qed.


(** X14: the units that [combine] returns are, in their order, among distinct
    units that spell what the tokens spelled: the passes before
    [_filter_misparse] keep the spelling, and [_filter_misparse] only leaves
    units out. So the text of the result is the text of the tokens with the
    texts of the units that were filtered out removed. *)
Theorem combine_spells_the_tokens (COMBINATIONS : str * str -> bool)
    (is_kana : str -> bool) (h : store) (word_infos : list ref) :
  NoDup word_infos -> Forall (fun w => w < length h) word_infos ->
  exists units,
    sublist (combine COMBINATIONS is_kana h word_infos).1 units
    /\ NoDup units
    /\ spelled (combine COMBINATIONS is_kana h word_infos).2 units
       = spelled h word_infos.
Proof.
  intros Hnd Hv. rewrite combine_filters.
  destruct (before_filter_spelling COMBINATIONS h word_infos (conj Hnd Hv))
    as [[Hnd1 Hv1] Hsp].
  destruct (before_filter COMBINATIONS h word_infos) as [ws1 h1]. cbn [fst snd] in *.
  destruct (filter_misparse_only_removes is_kana h1 ws1) as (Hsub & Htext & _).
  exists ws1. split_and!; [exact Hsub | exact Hnd1 |].
  rewrite <- Hsp. apply spelled_same. intros r _. apply Htext.
Qed.

Lemma combine_spells_the_tokens_witness :
  exists units,
    sublist (combine (fun _ => false) no_kana tabe_te_iru [0; 1; 2]).1 units
    /\ NoDup units
    /\ spelled (combine (fun _ => false) no_kana tabe_te_iru [0; 1; 2]).2 units
       = spelled tabe_te_iru [0; 1; 2].
Proof.
  apply (combine_spells_the_tokens (fun _ => false) no_kana tabe_te_iru [0; 1; 2]).
  - repeat (apply NoDup_cons_2; [set_solver |]). apply NoDup_nil_2.
  - repeat (apply List.Forall_cons; [cbn; lia |]). apply List.Forall_nil.
Defined.

End Spelling.

(** ** The retries and the cache of [_process_word] *)

Module ResolverCache.

Import Resolver.
Local Open Scope nat_scope.

(** *** The text ladder *)

Lemma replace_ne_length (old : str) fuel : forall s,
  old <> [] -> length (replace_ne fuel s old []) <= length s.
Proof.
  induction fuel as [|fuel IH]; intros s Hold; cbn [replace_ne]; [done |].
  destruct s as [|c s']; [done |].
  destruct (startswith (c :: s') old).
  - cbn [app]. specialize (IH (drop (length old) (c :: s')) Hold).
    rewrite length_drop in IH. lia.
  - cbn [length]. specialize (IH s' Hold). lia.
Qed.

Lemma startswith_length (p : str) : forall s,
  startswith s p = true -> length p <= length s.
Proof.
  induction p as [|c p IH]; intros s; [cbn; lia |].
  destruct s as [|d s]; cbn [startswith]; [discriminate |].
  destruct (decide (c = d)); [|discriminate]. intros H%IH. cbn. lia.
Qed.

(** Removing the occurrences of a non-empty text that does occur makes the
    string shorter. *)
Lemma replace_ne_shorter (old : str) fuel : forall s pos i,
  old <> [] -> length s <= fuel -> find_from s old pos = Some i ->
  length (replace_ne fuel s old []) < length s.
Proof.
  induction fuel as [|fuel IH]; intros s pos i Hold Hfuel Hfind.
  - destruct s; [|cbn in Hfuel; lia]. cbn [find_from] in Hfind.
    destruct (startswith [] old) eqn:E; [|discriminate].
    apply startswith_length in E. destruct old; [done | cbn in E; lia].
  - cbn [replace_ne]. destruct s as [|c s'].
    + cbn [find_from] in Hfind. destruct (startswith [] old) eqn:E; [|discriminate].
      apply startswith_length in E. destruct old; [done | cbn in E; lia].
    + cbn [find_from] in Hfind. destruct (startswith (c :: s') old) eqn:E.
      * cbn [app].
        pose proof (replace_ne_length old fuel (drop (length old) (c :: s')) Hold) as H.
        rewrite length_drop in H. destruct old; [done |]. cbn [length] in *. lia.
      * cbn [length] in *. specialize (IH s' (S pos) i Hold ltac:(lia) Hfind). lia.
Qed.

(** X15: every step down the ladder of [_process_word] shortens the text, so
    the next attempt never sees the same text again: dropping the last
    character, dropping a leading お, or taking out the long-vowel marks all
    give a strictly shorter text. *)
Theorem strip_text_shortens (t t' : str) :
  strip_text t = Some t' -> length t' < length t.
Proof.
  unfold strip_text.
  destruct (bool_decide (2 < length t)) eqn:E2; cbn [andb].
  - apply bool_decide_eq_true in E2.
    destruct (_ || _).
    + intros [= <-]. change (length (slice_to_neg 1 t) < length t).
      unfold slice_to_neg. rewrite length_take. lia.
    + destruct (startswith t (u "お")) eqn:Eo.
      * intros [= <-]. change (length (slice_from 1 t) < length t).
        unfold slice_from. rewrite length_drop. lia.
      * unfold contains. destruct (find_from t (u "ー") 0) as [i|] eqn:Ef;
          [|discriminate].
        intros [= <-]. unfold replace. change (u "ー") with [12540%N] in *.
        by eapply replace_ne_shorter.
  - destruct (startswith t (u "お")) eqn:Eo.
    + intros [= <-]. apply startswith_length in Eo. change (length (u "お")) with 1 in Eo.
      change (length (slice_from 1 t) < length t).
      unfold slice_from. rewrite length_drop. lia.
    + unfold contains. destruct (find_from t (u "ー") 0) as [i|] eqn:Ef;
        [|discriminate].
      intros [= <-]. unfold replace. change (u "ー") with [12540%N] in *.
      by eapply replace_ne_shorter.
Qed.

Lemma strip_text_shortens_witness : length (u "おはよ") < length (u "おはよー").
Proof. apply (strip_text_shortens (u "おはよー") (u "おはよ")). vm_compute. reflexivity. Defined.


(** *** What [_process_word] does to the cache *)

Abbreviation lookup_fn := (Morph.WordInfo -> state -> (bool * option ref) * state).

(** A lookup that leaves [_deck_word_cache_store] alone, as the two lookups of
    [parser.py] do: only [_process_word] reads and writes it. *)
Definition leaves_cache (lookup : lookup_fn) : Prop :=
  forall word_info s,
    _deck_word_cache_store (lookup word_info s).2 = _deck_word_cache_store s.

Definition key_of (word_info : Morph.WordInfo) : DeckWordCacheKey :=
  (Morph.text word_info, PartOfSpeech.value (Morph.part_of_speech word_info),
   Morph.dictionary_form word_info).

Section lookups.

Variable va w : lookup_fn.
Hypothesis va_leaves : leaves_cache va.
Hypothesis w_leaves : leaves_cache w.

Lemma retry_pos_cache poss : forall s word_info word,
  _deck_word_cache_store (retry_pos va s word_info poss word).2
  = _deck_word_cache_store s.
Proof.
  induction poss as [|p poss IH]; intros s wi word; cbn [retry_pos]; [done |].
  pose proof (va_leaves (Morph.with_part_of_speech p wi) s) as H.
  destruct (va _ s) as [[ok [r|]] s1]; cbn [snd] in *; [exact H |].
  by rewrite IH.
Qed.

Lemma attempts_cache n : forall s word_info,
  _deck_word_cache_store (attempts va w n s word_info).2 = _deck_word_cache_store s.
Proof.
  induction n as [|n IH]; intros s wi; cbn [attempts]; [done |].
  match goal with
  | |- context [let '(_, _) := ?step in _] =>
    assert (Hstep : _deck_word_cache_store step.2 = _deck_word_cache_store s);
      [| destruct step as [[r|] s1]; cbn [snd] in *; [exact Hstep |]]
  end.
  - destruct (_ || _).
    + pose proof (va_leaves wi s) as H1.
      destruct (va wi s) as [[ok word] s1]; cbn [snd] in *.
      destruct (negb ok || is_none word); [|exact H1].
      pose proof (w_leaves wi s1) as H2.
      destruct (w wi s1) as [[ok2 word2] s2]; cbn [snd] in *. congruence.
    + pose proof (w_leaves wi s) as H1.
      destruct (w wi s) as [[ok word] s1]; cbn [snd] in *.
      destruct (negb ok || is_none word); [|exact H1].
      rewrite retry_pos_cache. exact H1.
  - destruct (strip_text (Morph.text wi)) as [t|]; cbn [snd]; [|exact Hstep].
    by rewrite IH.
Qed.

End lookups.



End ResolverCache.

(** ** Tokenizer lines *)

Module TokenLinesProps.

Import Morph TokenLines.
Local Open Scope nat_scope.

(** [sep.join(pieces)] *)
Fixpoint join (sep : N) (pieces : list str) : str :=
  match pieces with
  | [] => []
  | [piece] => piece
  | piece :: rest => piece ++ sep :: join sep rest
  end.

Lemma split_nonempty sep s : split sep s <> [].
Proof.
  induction s as [|c s IH]; cbn [split]; [done |].
  case_decide; [done |]. by destruct (split sep s).
Qed.

Lemma split_piece sep (piece : str) : sep ∉ piece -> split sep piece = [piece].
Proof.
  induction piece as [|c piece IH]; intros Hsep; cbn [split]; [done |].
  rewrite decide_False by set_solver. rewrite IH by set_solver. reflexivity.
Qed.

Lemma split_app sep (piece rest : str) :
  sep ∉ piece -> split sep (piece ++ sep :: rest) = piece :: split sep rest.
Proof.
  induction piece as [|c piece IH]; intros Hsep; cbn [split app].
  - by rewrite decide_True.
  - rewrite decide_False by set_solver. rewrite IH by set_solver. reflexivity.
Qed.

(** Splitting what was joined gives the pieces back. *)
Lemma split_join sep (pieces : list str) :
  pieces <> [] -> Forall (fun piece => sep ∉ piece) pieces ->
  split sep (join sep pieces) = pieces.
Proof.
  induction pieces as [|piece rest IH]; intros Hne Hall; [done |].
  apply Forall_cons in Hall as [Hp Hrest].
  destruct rest as [|piece2 rest]; [by apply split_piece |].
  cbn [join]. rewrite split_app by exact Hp. f_equal. by apply IH.
Qed.


(** X17: a tokenizer line that joins at least six columns with tabs, the
    second of them joining at least four tags with commas, is read back
    column by column: the unit gets the first column as its text, the third
    as its normalized form, the fourth as its dictionary form and the sixth
    as its reading, and the first four tags, converted, as its part of speech
    and its three sections; it is not marked invalid. The columns hold no tab
    and the tags no comma. *)
Theorem sudachi_line_round_trip (c0 c2 c3 c4 c5 : str) (more : list str)
    (p0 p1 p2 p3 : str) (ps : list str) :
  let tags := p0 :: p1 :: p2 :: p3 :: ps in
  let columns := c0 :: join COMMA tags :: c2 :: c3 :: c4 :: c5 :: more in
  Forall (fun column => TAB ∉ column) columns ->
  Forall (fun tag => COMMA ∉ tag) tags ->
  WordInfo_of_line (join TAB columns)
  = {| text := c0;
       part_of_speech := to_part_of_speech p0;
       part_of_speech_section1 := to_part_of_speech_section p1;
       part_of_speech_section2 := to_part_of_speech_section p2;
       part_of_speech_section3 := to_part_of_speech_section p3;
       normalized_form := c2;
       dictionary_form := c3;
       reading := c5;
       is_invalid := false |}.
Proof.
  intros tags columns Hcols Htags.
  unfold WordInfo_of_line, _init_from_sudachi_line.
  rewrite (split_join TAB columns) by done.
  rewrite decide_False by (cbn; lia).
  change (part columns 1) with (join COMMA tags).
  rewrite (split_join COMMA tags) by done.
  rewrite decide_False by (cbn; lia).
  reflexivity.
Qed.

(** The line for 食べ as the tokenizer prints it. *)
Definition tabe_line : str :=
  join TAB [u "食べ"; join COMMA [u "動詞"; u "一般"; u "*"; u "*"; u "下一段-バ行";
                                   u "連用形-一般"];
            u "食べる"; u "食べる"; u "タベ"; u "タベ"].

Lemma sudachi_line_round_trip_witness :
  WordInfo_of_line tabe_line
  = {| text := u "食べ";
       part_of_speech := to_part_of_speech (u "動詞");
       part_of_speech_section1 := to_part_of_speech_section (u "一般");
       part_of_speech_section2 := to_part_of_speech_section (u "*");
       part_of_speech_section3 := to_part_of_speech_section (u "*");
       normalized_form := u "食べる";
       dictionary_form := u "食べる";
       reading := u "タベ";
       is_invalid := false |}.
Proof.
  apply (sudachi_line_round_trip (u "食べ") (u "食べる") (u "食べる") (u "タベ") (u "タベ") []
           (u "動詞") (u "一般") (u "*") (u "*") [u "下一段-バ行"; u "連用形-一般"]).
  - repeat (apply List.Forall_cons; [vm_compute; set_solver |]). apply List.Forall_nil.
  - repeat (apply List.Forall_cons; [vm_compute; set_solver |]). apply List.Forall_nil.
Defined.

(** *** The image of [to_part_of_speech] *)

Ltac chain_cases :=
  repeat match goal with
         | |- context [if ?b then _ else _] => destruct b eqn:?
         end.

(** X18: [to_part_of_speech] reads every code that starts with v as a verb;
    it never answers [ADNOMINAL]; and every other part of speech is its answer
    for some code. *)
Theorem to_part_of_speech_image :
  (forall pos_str, startswith pos_str (u "v") = true ->
     to_part_of_speech pos_str = PartOfSpeech.VERB)
  /\ (forall pos_str, to_part_of_speech pos_str <> PartOfSpeech.ADNOMINAL)
  /\ (forall p, p <> PartOfSpeech.ADNOMINAL -> exists pos_str, to_part_of_speech pos_str = p).
Proof.
  split_and!.
  - intros pos_str Hv. unfold to_part_of_speech.
    destruct (isin pos_str [u "名詞"; u "n"]) eqn:E1.
    { unfold isin in E1. apply bool_decide_eq_true in E1.
      repeat (apply elem_of_cons in E1 as [-> | E1]; [vm_compute in Hv; discriminate |]).
      by apply elem_of_nil in E1. }
    destruct (isin pos_str [u "動詞"]); [reflexivity |].
    by rewrite Hv.
  - intros pos_str. unfold to_part_of_speech. chain_cases; discriminate.
  - intros p Hp.
    destruct p; try done;
      first [ by exists (u "名詞") | by exists (u "動詞") | by exists (u "形容詞") | by exists (u "形状詞") | by exists (u "副詞") | by exists (u "助詞") | by exists (u "接続詞") | by exists (u "助動詞") | by exists (u "感動詞") | by exists (u "記号") | by exists (u "接頭詞") | by exists (u "フィラー") | by exists (u "名") | by exists (u "代名詞") | by exists (u "接尾辞") | by exists (u "普通名詞") | by exists (u "補助記号") | by exists (u "空白") | by exists (u "表現") | by exists (u "形動") | by exists (u "連体詞") | by exists (u "数詞") | by exists (u "助数詞") | by exists (u "副詞的と") | by exists (u "名詞接尾辞") | by exists (u "zzz") ].
Qed.

End TokenLinesProps.

(** ** The direct dictionary lookup *)

Module DirectLookupProps.

Import Resolver StringHelpers TokenLines DirectLookup.
Local Open Scope Z_scope.

Lemma unique_loop_sub candidates : forall seen_ids e,
  e ∈ unique_loop candidates seen_ids -> e ∈ candidates /\ entry_id e ∉ seen_ids.
Proof.
  induction candidates as [|cand rest IH]; intros seen e; cbn [unique_loop].
  - intros H. by apply elem_of_nil in H.
  - case_decide as Hin.
    + intros [H1 H2]%IH. split; [by right | exact H2].
    + intros [-> | [H1 H2]%IH]%elem_of_cons; [split; [by left | exact Hin] |].
      split; [by right | set_solver].
Qed.

(** No two candidates have the same id. *)
Lemma unique_loop_NoDup candidates : forall seen_ids,
  NoDup (map entry_id (unique_loop candidates seen_ids)).
Proof.
  induction candidates as [|cand rest IH]; intros seen; cbn [unique_loop].
  - constructor.
  - case_decide as Hin; [apply IH |]. cbn [map]. apply NoDup_cons. split; [|apply IH].
    intros (e & He & Hin')%list_elem_of_fmap.
    apply unique_loop_sub in Hin' as [_ Hnot]. set_solver.
Qed.

Lemma list_index_found (l : list str) (x : str) : forall i,
  list_index l x = Some i -> l !! i = Some x.
Proof.
  induction l as [|y l IH]; intros i; cbn [list_index]; [discriminate |].
  case_decide as E; [by intros [= <-]; subst |].
  destruct (list_index l x) as [j|]; [|discriminate].
  intros [= <-]. cbn. by apply IH.
Qed.

Lemma max_loop_greatest {A} (keyed : list (A * Z)) : forall best,
  exists k,
    (max_loop keyed best, k) ∈ best :: keyed
    /\ forall item, item ∈ best :: keyed -> item.2 <= k.
Proof.
  induction keyed as [|item rest IH]; intros best; cbn [max_loop].
  - exists best.2. split; [destruct best; by left |].
    intros i ->%list_elem_of_singleton. lia.
  - destruct (best.2 <? item.2) eqn:E.
    + apply Z.ltb_lt in E. destruct (IH item) as (k & Hin & Hmax).
      exists k. split; [by right |].
      intros i [-> | Hi]%elem_of_cons; [| by apply Hmax].
      specialize (Hmax item ltac:(by left)). lia.
    + apply Z.ltb_ge in E. destruct (IH best) as (k & Hin & Hmax).
      exists k. split.
      * apply elem_of_cons in Hin as [Hin | Hin]; [rewrite Hin; by left | by do 2 right].
      * intros i [-> | [-> | Hi]%elem_of_cons]%elem_of_cons.
        -- apply Hmax. by left.
        -- specialize (Hmax best ltac:(by left)). lia.
        -- apply Hmax. by right.
Qed.

Lemma mapM_Forall2 {A B} (f : A -> result B) (l : list A) : forall bs,
  Deconj.mapM f l = Ok bs -> Forall2 (fun a b => f a = Ok b) l bs.
Proof.
  induction l as [|a l IH]; intros bs; cbn [Deconj.mapM].
  - intros [= <-]. constructor.
  - destruct (f a) as [b|] eqn:E; [|discriminate]. cbn [mbind result_bind].
    destruct (Deconj.mapM f l) as [bs'|]; [|discriminate]. cbn [mbind result_bind].
    intros [= <-]. constructor; [exact E | by apply IH].
Qed.

Section deconjugate_word.

Variable lookup : str -> list JmDictEntry.
Variable to_hiragana : str -> str.
Variable is_japanese : str -> bool.
Variable is_kana : str -> bool.
Variable isdigit : str -> bool.
Variable py_int : str -> result Z.
Variable py_round_div10 : Z -> result Z.

Abbreviation unique_of := (unique_candidates lookup to_hiragana is_japanese).
Abbreviation score_of := (score is_kana py_int py_round_div10).
Abbreviation deconjugate_word :=
  (_deconjugate_word lookup to_hiragana is_japanese is_kana isdigit py_int
     py_round_div10).

(** The unit's part of speech is among those of the entry. *)
Definition has_pos (word_info : Morph.WordInfo) (e : JmDictEntry) : Prop :=
  Morph.part_of_speech word_info
  ∈ strings_to_parts_of_speech (entry_parts_of_speech e).

Lemma matches_of_elem word_info unique e :
  e ∈ matches_of word_info unique <-> e ∈ unique /\ has_pos word_info e.
Proof.
  unfold matches_of, has_pos, Morph.isin.
  rewrite (list_elem_of_In (List.filter _ _) e), filter_In, <- list_elem_of_In.
  by rewrite bool_decide_eq_true.
Qed.

Lemma unique_of_sub t e :
  e ∈ unique_of t -> e ∈ lookup t \/ e ∈ lookup (to_hiragana t).
Proof.
  unfold unique_candidates. intros [H _]%unique_loop_sub.
  destruct (_ || _); [by apply elem_of_app in H | by left].
Qed.

(** The entry chosen is a candidate; when some candidate has the unit's part
    of speech, so has the entry chosen, and none of those has a greater
    score. *)
Lemma best_match_of_chosen word_info unique e :
  best_match_of is_kana py_int py_round_div10 word_info unique = Ok e ->
  e ∈ unique
  /\ (forall c, c ∈ unique -> has_pos word_info c ->
        has_pos word_info e
        /\ forall kc ke, score_of word_info c = Ok kc -> score_of word_info e = Ok ke ->
             kc <= ke).
Proof.
  unfold best_match_of.
  pose proof (matches_of_elem word_info unique) as Hm.
  destruct (matches_of word_info unique) as [|m [|m2 rest]] eqn:Em.
  - unfold index. destruct (unique !! 0%nat) as [e0|] eqn:E0; [|discriminate].
    intros [= <-]. split; [by eapply list_elem_of_lookup_2 |].
    intros c Hc Hpos. exfalso. assert (c ∈ []) as Hin by (apply Hm; by split).
    by apply elem_of_nil in Hin.
  - intros [= <-]. destruct (proj1 (Hm m) ltac:(by left)) as [Hin Hpos].
    split; [exact Hin |]. intros c Hc Hposc. split; [exact Hpos |].
    assert (c ∈ [m]) as ->%list_elem_of_singleton by (apply Hm; by split).
    intros kc ke -> [= ->]. lia.
  - destruct (score_of word_info m) as [k|] eqn:Ek; [|discriminate].
    cbn [mbind result_bind].
    destruct (Deconj.mapM _ (m2 :: rest)) as [keyed|] eqn:Ekeyed; [|discriminate].
    cbn [mbind result_bind]. intros [= <-].
    apply mapM_Forall2 in Ekeyed.
    destruct (max_loop_greatest keyed (m, k)) as (kb & Hin & Hmax).
    set (e := max_loop keyed (m, k)) in *.
    assert (Hkeyed1 : forall x kx, (x, kx) ∈ keyed ->
              x ∈ m2 :: rest /\ score_of word_info x = Ok kx).
    { intros x kx Hx. apply list_elem_of_lookup in Hx as [i Hi].
      destruct (Forall2_lookup_r _ _ _ _ _ Ekeyed Hi) as (a & Ha & Hf).
      destruct (score_of word_info a) as [ka|] eqn:Eka; [|discriminate].
      cbn [mbind result_bind] in Hf. injection Hf as <- <-.
      split; [by eapply list_elem_of_lookup_2 | exact Eka]. }
    assert (Hkeyed2 : forall x kx, x ∈ m2 :: rest -> score_of word_info x = Ok kx ->
              (x, kx) ∈ keyed).
    { intros x kx Hx Hsc. apply list_elem_of_lookup in Hx as [i Hi].
      destruct (Forall2_lookup_l _ _ _ _ _ Ekeyed Hi) as (y & Hy & Hf).
      rewrite Hsc in Hf. cbn [mbind result_bind] in Hf. injection Hf as <-.
      by eapply list_elem_of_lookup_2. }
    assert (He : e ∈ m :: m2 :: rest /\ score_of word_info e = Ok kb).
    { apply elem_of_cons in Hin as [[= -> ->] | Hin]; [split; [by left | exact Ek] |].
      destruct (Hkeyed1 _ _ Hin) as [H1 H2]. split; [by right | exact H2]. }
    destruct He as [He Hse]. destruct (proj1 (Hm e) He) as [Hu Hpos].
    split; [exact Hu |]. intros c Hc Hposc. split; [exact Hpos |].
    intros kc ke Hkc Hke. rewrite Hse in Hke. injection Hke as <-.
    assert (c ∈ m :: m2 :: rest) as Hcm by (apply Hm; by split).
    apply elem_of_cons in Hcm as [-> | Hcm].
    + rewrite Ek in Hkc. injection Hkc as <-.
      apply (Hmax (m, k)). by left.
    + apply (Hmax (c, kc)). right. by apply Hkeyed2.
Qed.

Lemma reading_index_of_found t e i :
  reading_index_of to_hiragana t e = Some i ->
  exists rd, entry_readings e !! i = Some rd
             /\ (rd = t \/ to_hiragana rd = to_hiragana t).
Proof.
  unfold reading_index_of.
  destruct (if Score.mem t (entry_readings e) then list_index (entry_readings e) t
            else None) as [j|] eqn:E1.
  - intros [= <-]. destruct (Score.mem t (entry_readings e)); [|discriminate].
    exists t. split; [by apply list_index_found | by left].
  - destruct (Score.mem (to_hiragana t) _); [|discriminate].
    intros Hi%list_index_found. rewrite list_lookup_fmap in Hi.
    destruct (entry_readings e !! i) as [rd|]; cbn in Hi; [|discriminate].
    injection Hi as Hi. exists rd. split; [reflexivity | by right].
Qed.

Lemma new_DeckWord_read s word_id original_text reading_index parts_of_speech origin :
  let r := new_DeckWord s word_id original_text reading_index parts_of_speech origin in
  read (objects r.2) r.1
  = Some {| v_word_id := word_id; v_original_text := original_text;
            v_reading_index := reading_index; v_occurrences := 0;
            v_conjugations := []; v_parts_of_speech := parts_of_speech;
            v_origin := origin |}
  /\ (exists new, objects r.2 = objects s ++ new)
  /\ _deck_word_cache_store r.2 = _deck_word_cache_store s.
Proof.
  unfold new_DeckWord, alloc. cbn [fst snd objects _deck_word_cache_store].
  split_and!; [| eexists; by rewrite <- !app_assoc | reflexivity].
  assert (Hnew : forall (l : store) x, (l ++ [x]) !! length l = Some x).
  { intros l x. rewrite lookup_app_r by lia. by rewrite Nat.sub_diag. }
  assert (Hold : forall (l : store) x i o, l !! i = Some o -> (l ++ [x]) !! i = Some o).
  { intros l x i o Hi. by apply lookup_app_l_Some. }
  unfold read. rewrite Hnew. cbn [conjugations Resolver.parts_of_speech].
  rewrite (Hold _ _ _ _ (Hnew _ _)).
  rewrite (Hold _ _ _ _ (Hold _ _ _ _ (Hnew _ _))).
  reflexivity.
Qed.

End deconjugate_word.

(** X19: the flag that [_deconjugate_word] returns says whether it returns a
    word: it never returns [(True, None)] nor a word with [False]. When it
    returns no word it leaves the state as it was; in any case it leaves the
    cache alone and only adds objects. *)
Theorem deconjugate_word_flag (lookup : str -> list JmDictEntry)
    (to_hiragana : str -> str) (is_japanese is_kana isdigit : str -> bool)
    (py_int : str -> result Z) (py_round_div10 : Z -> result Z)
    (word_info : Morph.WordInfo) (s s' : state) (ok : bool) (word : option ref) :
  _deconjugate_word lookup to_hiragana is_japanese is_kana isdigit py_int
    py_round_div10 word_info s = Ok ((ok, word), s') ->
  (ok = true <-> word <> None)
  /\ (word = None -> s' = s)
  /\ _deck_word_cache_store s' = _deck_word_cache_store s
  /\ exists new, objects s' = objects s ++ new.
Proof.
  unfold _deconjugate_word.
  assert (Hnone : forall x : (bool * option ref) * state,
            x = ((false, None), s) -> Ok x = Ok ((ok, word), s') ->
            (ok = true <-> word <> None) /\ (word = None -> s' = s)
            /\ _deck_word_cache_store s' = _deck_word_cache_store s
            /\ exists new, objects s' = objects s ++ new).
  { intros x -> [= <- <- <-]. split_and!; [done | done | done |].
    exists []. by rewrite app_nil_r. }
  destruct (_ || _); [by apply Hnone |].
  destruct (is_empty _); [by apply Hnone |].
  destruct (best_match_of _ _ _ _ _) as [e|]; [|discriminate].
  cbn [mbind result_bind is_false].
  destruct (reading_index_of _ _ _) as [i|]; [|by apply Hnone].
  match goal with
  | |- context [new_DeckWord ?a ?b ?c ?d ?e ?f] =>
    destruct (new_DeckWord_read a b c d e f) as (_ & Hgrow & Hcache);
    destruct (new_DeckWord a b c d e f) as [r s1]
  end.
  cbn [fst snd] in *. intros [= <- <- <-].
  split_and!; [done | done | exact Hcache | exact Hgrow].
Qed.

(** X20: a word that [_deconjugate_word] returns is built from one dictionary
    entry found under the unit's text or under its hiragana form. The word
    carries the entry's id, origin and converted parts of speech, the unit's
    text, no conjugation and no occurrence; its reading index points at a
    reading of the entry that is the text, or has the same hiragana form.
    When some candidate has the unit's part of speech, the entry has it too,
    and no such candidate has a greater priority score. *)
Theorem deconjugate_word_resolves (lookup : str -> list JmDictEntry)
    (to_hiragana : str -> str) (is_japanese is_kana isdigit : str -> bool)
    (py_int : str -> result Z) (py_round_div10 : Z -> result Z)
    (word_info : Morph.WordInfo) (s s' : state) (ok : bool) (word : ref) :
  let t := Morph.text word_info in
  _deconjugate_word lookup to_hiragana is_japanese is_kana isdigit py_int
    py_round_div10 word_info s = Ok ((ok, Some word), s') ->
  exists (e : JmDictEntry) (i : nat) (rd : str),
    (e ∈ lookup t \/ e ∈ lookup (to_hiragana t))
    /\ read (objects s') word
       = Some {| v_word_id := entry_id e; v_original_text := t;
                 v_reading_index := Z.of_nat i; v_occurrences := 0;
                 v_conjugations := [];
                 v_parts_of_speech :=
                   strings_to_parts_of_speech (entry_parts_of_speech e);
                 v_origin := entry_origin e |}
    /\ entry_readings e !! i = Some rd
    /\ (rd = t \/ to_hiragana rd = to_hiragana t)
    /\ forall c,
         c ∈ unique_candidates lookup to_hiragana is_japanese t ->
         has_pos word_info c ->
         has_pos word_info e
         /\ forall kc ke,
              score is_kana py_int py_round_div10 word_info c = Ok kc ->
              score is_kana py_int py_round_div10 word_info e = Ok ke ->
              kc <= ke.
Proof.
  intros t. unfold _deconjugate_word. fold t.
  destruct (_ || _); [discriminate |].
  destruct (is_empty _); [discriminate |].
  destruct (best_match_of _ _ _ _ _) as [e|] eqn:Ebest; [|discriminate].
  cbn [mbind result_bind is_false].
  destruct (reading_index_of _ _ _) as [i|] eqn:Eidx; [|discriminate].
  apply best_match_of_chosen in Ebest as [Hin Hbest].
  apply reading_index_of_found in Eidx as (rd & Hrd & Hsame).
  match goal with
  | |- context [new_DeckWord ?a ?b ?c ?d ?e ?f] =>
    destruct (new_DeckWord_read a b c d e f) as (Hread & _ & _);
    destruct (new_DeckWord a b c d e f) as [r s1]
  end.
  cbn [fst snd] in *. intros [= <- <- <-].
  exists e, i, rd. split_and!; [by eapply unique_of_sub | exact Hread | exact Hrd
                               | exact Hsame | exact Hbest].
Qed.

(** *** A dictionary with two entries for 食べる *)

Definition taberu_entry : JmDictEntry :=
  {| entry_word := {| Score.word_id := 1358280; Score.readings := [u "食べる"; u "たべる"];
                      Score.parts_of_speech := [u "v1"; u "vt"];
                      Score.priorities := Some [u "ichi1"] |};
     entry_origin := 1 |}.

Definition taberu_name_entry : JmDictEntry :=
  {| entry_word := {| Score.word_id := 5000001; Score.readings := [u "食べる"];
                      Score.parts_of_speech := [u "surname"];
                      Score.priorities := None |};
     entry_origin := 0 |}.

Definition small_lookup (key : str) : list JmDictEntry :=
  if bool_decide (key = u "食べる") then [taberu_name_entry; taberu_entry; taberu_entry]
  else [].

Definition taberu_unit : Morph.WordInfo :=
  MorphProps.morpheme (u "食べる") PartOfSpeech.VERB PartOfSpeechSection.COMMON
    (u "食べる").

Abbreviation small_deconjugate_word :=
  (_deconjugate_word small_lookup (fun t => t) (fun _ => true) (fun _ => false)
     (fun _ => false) Score.int_of_digits Score.round_half_even_div10).

Definition state_after (r : result ((bool * option ref) * state)) : state :=
  match r with
  | Ok (_, s') => s'
  | Raise _ => ResolverProps.start
  end.

Definition taberu_state : state :=
  state_after (small_deconjugate_word taberu_unit ResolverProps.start).

Lemma deconjugate_word_flag_witness :
  small_deconjugate_word taberu_unit ResolverProps.start
    = Ok ((true, Some 2%nat), taberu_state)
  /\ ((true = true <-> Some 2%nat <> None)
      /\ (Some 2%nat = None -> taberu_state = ResolverProps.start)
      /\ _deck_word_cache_store taberu_state
         = _deck_word_cache_store ResolverProps.start
      /\ exists new, objects taberu_state = objects ResolverProps.start ++ new).
Proof.
  split; [vm_compute; reflexivity |].
  apply (deconjugate_word_flag small_lookup (fun t => t) (fun _ => true)
           (fun _ => false) (fun _ => false) Score.int_of_digits
           Score.round_half_even_div10 taberu_unit).
  vm_compute; reflexivity.
Defined.

Lemma deconjugate_word_resolves_witness :
  small_deconjugate_word taberu_unit ResolverProps.start
    = Ok ((true, Some 2%nat), taberu_state)
  /\ exists (e : JmDictEntry) (i : nat) (rd : str),
       (e ∈ small_lookup (u "食べる") \/ e ∈ small_lookup (u "食べる"))
       /\ read (objects taberu_state) 2%nat
          = Some {| v_word_id := entry_id e; v_original_text := u "食べる";
                    v_reading_index := Z.of_nat i; v_occurrences := 0;
                    v_conjugations := [];
                    v_parts_of_speech :=
                      strings_to_parts_of_speech (entry_parts_of_speech e);
                    v_origin := entry_origin e |}
       /\ entry_readings e !! i = Some rd
       /\ (rd = u "食べる" \/ rd = u "食べる")
       /\ forall c,
            c ∈ unique_candidates small_lookup (fun t => t) (fun _ => true)
                  (u "食べる") ->
            has_pos taberu_unit c ->
            has_pos taberu_unit e
            /\ forall kc ke,
                 score (fun _ => false) Score.int_of_digits
                   Score.round_half_even_div10 taberu_unit c = Ok kc ->
                 score (fun _ => false) Score.int_of_digits
                   Score.round_half_even_div10 taberu_unit e = Ok ke ->
                 kc <= ke.
Proof.
  split; [vm_compute; reflexivity |].
  apply (deconjugate_word_resolves small_lookup (fun t => t) (fun _ => true)
           (fun _ => false) (fun _ => false) Score.int_of_digits
           Score.round_half_even_div10 taberu_unit ResolverProps.start
           taberu_state true 2%nat).
  vm_compute; reflexivity.
Defined.

End DirectLookupProps.
